(** * Flappy Kat: the frame update of [src/game.cpp], embedded and verified

    The embedding follows [Game::Game], [Game::InitGame], [Game::Reset],
    [Game::Update], [Game::HandleInput], [Game::UpdateUI],
    [Game::DrawUI], [Game::FormatWithLeadingZeroes],
    [Game::LoadHighScore], [Game::SaveHighScore] and
    [Game::UpdatePipeSpeed] statement by statement.

    - A C++ [float] is an IEEE-754 binary32 number: [spec_float] with
      precision 24 and maximal exponent 128, every operation rounding to
      nearest, ties to even.
    - A C++ [int] is a [Z]; the only arithmetic that can leave the 32-bit
      range ([score++]) has its wrap-around written out.
    - The object is a record [Game]; a member function is a function from
      [Game] to [Game], the frame's raylib queries are a record [Input],
      and the calls that leave the program (audio, high-score file,
      window) are appended to the field [trace]. *)

From Stdlib Require Import ZArith List Bool Lia.
From Stdlib Require Import Floats.SpecFloat.
From coqutil Require Import Datatypes.RecordSetters.
From Stdlib Require String Ascii Decimal DecimalString DecimalZ.
From Stdlib Require Reals Lra.
Import ListNotations.
Import RecordSetters.TriangleBracketNotations.
Local Open Scope Z_scope.

(** ** The C++ [int] *)

Module Int32.
Definition INT_MIN : Z := - 2 ^ 31.
Definition INT_MAX : Z := 2 ^ 31 - 1.

(** Two's-complement wrap-around of a 32-bit signed integer. *)
Definition wrap (z : Z) : Z := (z + 2 ^ 31) mod 2 ^ 32 - 2 ^ 31.

Definition in_range (z : Z) : Prop := INT_MIN <= z <= INT_MAX.

(** What [operator>>] stores in an [int] for the number [z] read: the
    number itself, or the nearest bound when it is out of range. *)
Definition saturate (z : Z) : Z := Z.max INT_MIN (Z.min INT_MAX z).
End Int32.

(** ** The C++ [float]: binary32 *)

Module F32.
Definition prec : Z := 24.
Definition emax : Z := 128.

Definition float : Type := spec_float.

Definition add : float -> float -> float := SFadd prec emax.
Definition sub : float -> float -> float := SFsub prec emax.
Definition mul : float -> float -> float := SFmul prec emax.
Definition div : float -> float -> float := SFdiv prec emax.

(** The comparison operators [==], [<], [<=], [>], [>=]; each is false
    as soon as one side is a NaN. *)
Definition eqb (a b : float) : bool := SFeqb a b.
Definition ltb (a b : float) : bool := SFltb a b.
Definition leb (a b : float) : bool := SFleb a b.
Definition gtb (a b : float) : bool := ltb b a.
Definition geb (a b : float) : bool := leb b a.

(** Conversion [int -> float] (round to nearest even). *)
Definition of_int (n : Z) : float := binary_normalize prec emax n 0 false.

(** Conversion [float -> int]: truncation toward zero.  Outside of the
    range of [int] (and on infinities and NaN) C++ leaves the result
    undefined; the value given here is the one of the x86 conversion
    instruction. *)
Definition to_int (a : float) : Z :=
  match a with
  | S754_zero _ => 0
  | S754_finite s m e =>
      let mag := match e with
                 | Zneg p => Z.shiftr (Zpos m) (Zpos p)
                 | _ => Z.shiftl (Zpos m) e
                 end in
      let v := if s then - mag else mag in
      if (Int32.INT_MIN <=? v) && (v <=? Int32.INT_MAX) then v
      else Int32.INT_MIN
  | _ => Int32.INT_MIN
  end.

Definition zero : float := S754_zero false.

(** The literals of the source. *)
Definition lit_2 : float := S754_finite false 8388608 (-22).
Definition lit_100 : float := S754_finite false 13107200 (-17).
Definition lit_80 : float := S754_finite false 10485760 (-17).
Definition lit_0_5 : float := S754_finite false 8388608 (-24).
Definition lit_0_2 : float := S754_finite false 13421773 (-26).
Definition lit_0_70 : float := S754_finite false 11744051 (-24).
Definition lit_0_55 : float := S754_finite false 9227469 (-24).

(** The macros [MIN] and [MAX]. *)
Definition MIN (a b : float) : float := if ltb a b then a else b.
Definition MAX (a b : float) : float := if gtb a b then a else b.

(** Unary minus. *)
Definition neg (a : float) : float := SFopp a.

Definition is_nan (a : float) : bool :=
  match a with S754_nan => true | _ => false end.

Definition is_finite (a : float) : bool :=
  match a with S754_zero _ | S754_finite _ _ _ => true | _ => false end.

(** A well-formed binary32 datum: the mantissa and the exponent of a
    finite number are the canonical ones. *)
Definition valid (a : float) : bool := valid_binary prec emax a.

(** The float is finite and greater than 0. *)
Definition is_positive (a : float) : bool :=
  match a with S754_finite false _ _ => true | _ => false end.

(** The float is finite and its mantissa has all its 24 bits. *)
Definition is_normal (a : float) : bool :=
  match a with
  | S754_finite _ m _ => Z.pos (digits2_pos m) =? prec
  | _ => false
  end.

Section Value.
Import Reals.

(** The real number that a float stands for; 0 for the infinities and
    NaN. *)
Definition value (a : float) : R :=
  match a with
  | S754_finite s m e => (IZR (cond_Zopp s (Z.pos m)) * powerRZ 2 e)%R
  | _ => 0%R
  end.
End Value.
End F32.

Definition float : Type := F32.float.

(** ** Collaborators of the frame update *)

Inductive Key :=
| KEY_SPACE | KEY_UP | KEY_W | KEY_M | KEY_ENTER | KEY_ESCAPE
| KEY_Y | KEY_N | KEY_P | KEY_LEFT_ALT | KEY_RIGHT_ALT.

Definition Key_eqb (k k' : Key) : bool :=
  match k, k' with
  | KEY_SPACE, KEY_SPACE | KEY_UP, KEY_UP | KEY_W, KEY_W
  | KEY_M, KEY_M | KEY_ENTER, KEY_ENTER | KEY_ESCAPE, KEY_ESCAPE
  | KEY_Y, KEY_Y | KEY_N, KEY_N | KEY_P, KEY_P
  | KEY_LEFT_ALT, KEY_LEFT_ALT | KEY_RIGHT_ALT, KEY_RIGHT_ALT => true
  | _, _ => false
  end.

(** What raylib answers during one frame.  [rand] is the raw draw that
    [GetRandomValue] reduces to the requested range. *)
Record Input := {
  IsKeyPressed : Key -> bool;
  IsKeyDown : Key -> bool;
  IsGestureDetected_TAP : bool;
  GetTouchPosition : float * float;
  GetScreenWidth : Z;
  GetScreenHeight : Z;
  WindowShouldClose : bool;
  IsWindowFocused : bool;
  rand : Z
}.

Inductive Sound := flySound | hitSound | scoreSound.

(** Calls that only act on the outside of the program. *)
Inductive Effect :=
| PlayMusicStream
| StopMusicStream
| PauseMusicStream
| UpdateMusicStream
| PlaySound (s : Sound)
| StopSound (s : Sound)
| WriteHighScoreFile (v : Z)
| ToggleBorderlessWindowed.

(** raylib's [GetRandomValue(min, max)]: the bounds are exchanged when
    they come in the wrong order, and the draw is reduced to the
    inclusive range. *)
Definition GetRandomValue (rnd min max : Z) : Z :=
  let '(min, max) := if min >? max then (max, min) else (min, max) in
  Z.rem rnd (Z.abs (max - min) + 1) + min.

(** raylib's [CheckCollisionPointRec], on a rectangle [(x, y, w, h)]. *)
Definition CheckCollisionPointRec (p : float * float)
    (r : float * float * float * float) : bool :=
  let '(rx, ry, rw, rh) := r in
  F32.geb (fst p) rx && F32.ltb (fst p) (F32.add rx rw) &&
  F32.geb (snd p) ry && F32.ltb (snd p) (F32.add ry rh).

(** The constants of [globals.h] and [game.h] that [game.cpp] reads, the
    two preprocessor symbols it tests, and the answer of the file system
    when [SaveHighScore] opens [highscore.txt] for writing
    ([file.is_open()]), taken to be the same throughout a run. *)
Record Globals := {
  defaultGravity : float;
  defaultJumpForce : float;
  defaultPipeWidth : float;
  defaultPipeGap : float;
  defaultPipeSpeed : float;
  defaultPipeSpawnInterval : float;
  maxGapHeightDifference : float;
  pipeSpeedIncrease : float;
  maxSpeed : float;
  gameOverDelayDuration : float;
  playerEyesClosedDuration : float;
  gameScreenWidth : Z;
  gameScreenHeight : Z;
  EMSCRIPTEN : bool;
  EMSCRIPTEN_BUILD : bool;
  ofstream_is_open : bool
}.

(** ** The state *)

Module Pipe.
Record t := { x : float; gapCenter : float; scored : bool }.
End Pipe.

Record Game := {
  firstTimeGameStart : bool;
  playerSize : float;
  playerX : float;
  playerY : float;
  playerVelocity : float;
  gravity : float;
  jumpForce : float;
  pipeWidth : float;
  pipeGap : float;
  pipeSpeed : float;
  basePipeSpeed : float;
  pipeSpawnInterval : float;
  pipeSpawnTimer : float;
  initialPipeDistance : float;
  speedLevel : Z;
  musicPlaying : bool;
  musicManuallyDisabled : bool;
  score : Z;
  highScore : Z;
  playerCollisionWidthRatio : float;
  playerCollisionHeightRatio : float;
  width : Z;
  height : Z;
  backgroundTexture_width : Z;
  backgroundScrollX : float;
  backgroundScrollSpeed : float;
  playerEyesClosedTimer : float;
  isInExitMenu : bool;
  paused : bool;
  lostWindowFocus : bool;
  gameOver : bool;
  gameOverDelayTimer : float;
  exitWindowRequested : bool;
  exitWindow : bool;
  fullscreen : bool;
  screenScale : float;
  isMobile : bool;
  pipes : list Pipe.t;
  trace : list Effect
}.

Definition emit (es : list Effect) (g : Game) : Game :=
  g <| trace := trace g ++ es |>.

(** ** The member functions *)

Section Members.
Variable G : Globals.

(** [Game::SaveHighScore]: unless the program is built for the web,
    the file is opened for writing and, if it is open, the high score
    is written to it; if it is not, nothing is done. *)
Definition SaveHighScore (g : Game) : Game :=
  if EMSCRIPTEN G then g
  else if ofstream_is_open G
       then emit [WriteHighScoreFile (highScore g)] g
       else g.

(** [Game::LoadHighScore]; [file] is [None] when [highscore.txt] cannot
    be opened, and [Some v] when it opens, [v] being the number that
    its text holds; [file >> highScore] stores a number beyond the
    range of [int] as the nearest bound.  (A text that holds no number
    is not modelled.) *)
Definition LoadHighScore (file : option Z) (g : Game) : Game :=
  if EMSCRIPTEN G then g <| highScore := 0 |>
  else match file with
       | Some v => g <| highScore := Int32.saturate v |>
       | None => g <| highScore := 0 |>
       end.

(** [Game::InitGame] *)
Definition InitGame (i : Input) (g : Game) : Game :=
  let g := g <| isInExitMenu := false |> in
  let g := g <| paused := false |> in
  let g := g <| lostWindowFocus := false |> in
  let g := g <| gameOver := false |> in
  g <| screenScale :=
         F32.MIN (F32.div (F32.of_int (GetScreenWidth i))
                          (F32.of_int (gameScreenWidth G)))
                 (F32.div (F32.of_int (GetScreenHeight i))
                          (F32.of_int (gameScreenHeight G))) |>.

(** [Game::Game(int width, int height)].  [this] is the object before
    the body runs (it carries the members that only [game.h]
    initialises, and the static member [isMobile], which starts as
    [false]); [mobile] is the answer of the user-agent test,
    [file] the content of the high-score file and [bgWidth] the width
    of the loaded background texture. *)
Definition Game_ctor (this : Game) (i : Input) (mobile : bool)
    (file : option Z) (bgWidth : Z) (width_ height_ : Z) : Game :=
  let g := this <| isMobile := false |> in
  let g := g <| firstTimeGameStart := true |> in
  let g := g <| playerSize := F32.lit_80 |> in
  let g := g <| playerX := F32.of_int (Z.quot width_ 4) |> in
  let g := g <| playerY := F32.of_int (Z.quot height_ 2) |> in
  let g := g <| playerVelocity := F32.zero |> in
  let g := g <| gravity := defaultGravity G |> in
  let g := g <| jumpForce := defaultJumpForce G |> in
  let g := g <| pipeWidth := defaultPipeWidth G |> in
  let g := g <| pipeGap := defaultPipeGap G |> in
  let g := g <| pipeSpeed := defaultPipeSpeed G |> in
  let g := g <| basePipeSpeed := pipeSpeed g |> in
  let g := g <| pipeSpawnInterval := defaultPipeSpawnInterval G |> in
  let g := g <| pipeSpawnTimer := pipeSpawnInterval g |> in
  let g := g <| initialPipeDistance :=
                  F32.mul (basePipeSpeed g) (pipeSpawnInterval g) |> in
  let g := g <| speedLevel := 0 |> in
  let g := g <| musicPlaying := false |> in
  let g := g <| musicManuallyDisabled := false |> in
  let g := g <| score := 0 |> in
  let g := LoadHighScore file g in
  let g := g <| playerCollisionWidthRatio := F32.lit_0_70 |> in
  let g := g <| playerCollisionHeightRatio := F32.lit_0_55 |> in
  let g := if EMSCRIPTEN G then g <| isMobile := mobile |> else g in
  let g := g <| width := width_ |> in
  let g := g <| height := height_ |> in
  let g := g <| backgroundTexture_width := bgWidth |> in
  let g := g <| backgroundScrollX := F32.zero |> in
  let g := g <| backgroundScrollSpeed :=
                  F32.mul (basePipeSpeed g) F32.lit_0_2 |> in
  let g := g <| playerEyesClosedTimer := F32.zero |> in
  InitGame i g.

(** [Game::Reset] *)
Definition Reset (i : Input) (g : Game) : Game :=
  let g := InitGame i g in
  let g := g <| playerX := F32.of_int (Z.quot (width g) 4) |> in
  let g := g <| playerY := F32.of_int (Z.quot (height g) 2) |> in
  let g := g <| playerVelocity := F32.zero |> in
  let g := g <| pipes := [] |> in
  let g := g <| pipeSpawnTimer := F32.zero |> in
  let g := g <| pipeSpawnInterval := F32.lit_2 |> in
  let g := g <| score := 0 |> in
  let g := g <| speedLevel := 0 |> in
  let g := g <| pipeSpeed := basePipeSpeed g |> in
  if negb (musicManuallyDisabled g) then
    let g := emit [PlayMusicStream] g in
    g <| musicPlaying := true |>
  else g.

(** [Game::UpdatePipeSpeed] *)
Definition UpdatePipeSpeed (dt : float) (g : Game) : Game :=
  let g := g <| pipeSpeed :=
                  F32.add (pipeSpeed g) (F32.mul (pipeSpeedIncrease G) dt) |> in
  let g := if F32.gtb (pipeSpeed g) (maxSpeed G)
           then g <| pipeSpeed := maxSpeed G |> else g in
  let g := g <| pipeSpawnInterval :=
                  F32.div (initialPipeDistance g) (pipeSpeed g) |> in
  g <| backgroundScrollSpeed := F32.mul (pipeSpeed g) F32.lit_0_2 |>.

(** [Game::HandleInput] *)
Definition HandleInput (i : Input) (g : Game) : Game :=
  let g :=
    if negb (paused g) && negb (gameOver g) && negb (firstTimeGameStart g)
       && negb (isInExitMenu g) && negb (lostWindowFocus g)
    then
      if IsKeyPressed i KEY_SPACE || IsKeyPressed i KEY_UP
         || IsKeyPressed i KEY_W
         || (isMobile g && IsGestureDetected_TAP i)
      then
        let g := g <| playerVelocity := jumpForce g |> in
        let g := emit [PlaySound flySound] g in
        g <| playerEyesClosedTimer := playerEyesClosedDuration G |>
      else g
    else g in
  if IsKeyPressed i KEY_M then
    if musicPlaying g then
      let g := emit [PauseMusicStream] g in
      let g := g <| musicPlaying := false |> in
      g <| musicManuallyDisabled := true |>
    else
      let g := emit [PlayMusicStream] g in
      let g := g <| musicPlaying := true |> in
      g <| musicManuallyDisabled := false |>
  else g.

(** [Game::UpdateUI], in its parts.  The first block exists in the
    desktop build only; [Some g'] is its early [return false]. *)
Definition exitRequest (i : Input) (g : Game) : option Game :=
  if WindowShouldClose i
     || (IsKeyPressed i KEY_ESCAPE && negb (exitWindowRequested g))
  then Some (g <| exitWindowRequested := true |> <| isInExitMenu := true |>)
  else None.

Definition fullscreenToggle (i : Input) (g : Game) : Game :=
  if IsKeyPressed i KEY_ENTER
     && (IsKeyDown i KEY_LEFT_ALT || IsKeyDown i KEY_RIGHT_ALT)
  then
    if fullscreen g
    then emit [ToggleBorderlessWindowed] (g <| fullscreen := false |>)
    else emit [ToggleBorderlessWindowed] (g <| fullscreen := true |>)
  else g.

Definition firstStart (i : Input) (g : Game) : Game :=
  if firstTimeGameStart g then
    if isMobile g then
      if IsGestureDetected_TAP i then
        let g := g <| firstTimeGameStart := false |> in
        let g := emit [PlayMusicStream] g in
        g <| musicPlaying := true |>
      else g
    else if IsKeyDown i KEY_ENTER then
      let g := g <| firstTimeGameStart := false |> in
      let g := emit [PlayMusicStream] g in
      g <| musicPlaying := true |>
    else g
  else g.

Definition exitMenu (i : Input) (g : Game) : Game :=
  if exitWindowRequested g then
    if IsKeyPressed i KEY_Y then g <| exitWindow := true |>
    else if IsKeyPressed i KEY_N || IsKeyPressed i KEY_ESCAPE then
      g <| exitWindowRequested := false |> <| isInExitMenu := false |>
    else g
  else g.

Definition focusCheck (i : Input) (g : Game) : Game :=
  if negb (IsWindowFocused i) then g <| lostWindowFocus := true |>
  else g <| lostWindowFocus := false |>.

Definition pauseToggle (i : Input) (g : Game) : Game :=
  if negb (exitWindowRequested g) && negb (lostWindowFocus g)
     && negb (gameOver g)
     && (if EMSCRIPTEN_BUILD G
         then IsKeyPressed i KEY_P || IsKeyPressed i KEY_ESCAPE
         else IsKeyPressed i KEY_P)
  then g <| paused := negb (paused g) |>
  else g.

(** The tap of the mobile build; the result is the returned boolean
    with the state. *)
Definition mobileTap (i : Input) (g : Game) : bool * Game :=
  if isMobile g && negb (firstTimeGameStart g) && negb (gameOver g)
     && negb (exitWindowRequested g)
  then
    if negb (paused g) && IsGestureDetected_TAP i then
      let tapPos := GetTouchPosition i in
      let screenOffsetX :=
        F32.mul (F32.sub (F32.of_int (GetScreenWidth i))
                         (F32.mul (F32.of_int (gameScreenWidth G))
                                  (screenScale g))) F32.lit_0_5 in
      let screenOffsetY :=
        F32.mul (F32.sub (F32.of_int (GetScreenHeight i))
                         (F32.mul (F32.of_int (gameScreenHeight G))
                                  (screenScale g))) F32.lit_0_5 in
      let tapPos :=
        (F32.div (F32.sub (fst tapPos) screenOffsetX) (screenScale g),
         F32.div (F32.sub (snd tapPos) screenOffsetY) (screenScale g)) in
      let titleArea :=
        (F32.zero, F32.zero, F32.of_int (width g), F32.lit_100) in
      if CheckCollisionPointRec tapPos titleArea
      then (true, g <| paused := true |>)
      else (false, g)
    else if paused g && IsGestureDetected_TAP i
    then (true, g <| paused := false |>)
    else (false, g)
  else (false, g).

Definition UpdateUI (i : Input) (g : Game) : bool * Game :=
  match (if EMSCRIPTEN_BUILD G then None else exitRequest i g) with
  | Some g => (false, g)
  | None =>
      let g := if EMSCRIPTEN_BUILD G then g else fullscreenToggle i g in
      let g := firstStart i g in
      let g := exitMenu i g in
      let g := focusCheck i g in
      let g := pauseToggle i g in
      mobileTap i g
  end.

(** *** [Game::Update] *)

(** [running], as computed on entry of the simulation part. *)
Definition running (g : Game) : bool :=
  negb (firstTimeGameStart g) && negb (paused g)
  && negb (lostWindowFocus g) && negb (isInExitMenu g)
  && negb (gameOver g).

Definition scrollBackground (dt : float) (g : Game) : Game :=
  let g := g <| backgroundScrollX :=
                  F32.add (backgroundScrollX g)
                          (F32.mul (backgroundScrollSpeed g) dt) |> in
  if F32.geb (backgroundScrollX g) (F32.of_int (backgroundTexture_width g))
  then g <| backgroundScrollX :=
              F32.sub (backgroundScrollX g)
                      (F32.of_int (backgroundTexture_width g)) |>
  else g.

Definition physics (dt : float) (g : Game) : Game :=
  let g := g <| playerVelocity :=
                  F32.add (playerVelocity g) (F32.mul (gravity g) dt) |> in
  g <| playerY := F32.add (playerY g) (F32.mul (playerVelocity g) dt) |>.

Definition collisionBoxWidth (g : Game) : float :=
  F32.mul (playerSize g) (playerCollisionWidthRatio g).

Definition collisionBoxHeight (g : Game) : float :=
  F32.mul (playerSize g) (playerCollisionHeightRatio g).

(** The block run on a hit, the same after the boundary test and after
    the pipe test. *)
Definition onCollision (g : Game) : Game :=
  let g := g <| gameOver := true |> in
  let g := g <| gameOverDelayTimer := gameOverDelayDuration G |> in
  let g := emit [StopMusicStream; StopSound flySound;
                 StopSound scoreSound; PlaySound hitSound] g in
  if score g >? highScore g
  then SaveHighScore (g <| highScore := score g |>)
  else g.

Definition checkBoundaryCollision (g : Game) (boxHeight : float) : bool :=
  F32.ltb (F32.sub (playerY g) (F32.div boxHeight F32.lit_2)) F32.zero
  || F32.gtb (F32.add (playerY g) (F32.div boxHeight F32.lit_2))
             (F32.of_int (height g)).

(** [pipes.back()], [None] on the empty vector. *)
Fixpoint back (l : list Pipe.t) : option Pipe.t :=
  match l with
  | [] => None
  | [p] => Some p
  | _ :: l' => back l'
  end.

(** The gap center of the pipe to spawn. *)
Definition targetGapCenter (i : Input) (g : Game) : float :=
  match back (pipes g) with
  | None => F32.of_int (Z.quot (height g) 2)
  | Some prev =>
      let prevGapCenter := Pipe.gapCenter prev in
      let minGapCenter :=
        F32.MAX (F32.div (pipeGap g) F32.lit_2)
                (F32.sub prevGapCenter (maxGapHeightDifference G)) in
      let maxGapCenter :=
        F32.MIN (F32.sub (F32.of_int (height g))
                         (F32.div (pipeGap g) F32.lit_2))
                (F32.add prevGapCenter (maxGapHeightDifference G)) in
      F32.of_int (GetRandomValue (rand i) (F32.to_int minGapCenter)
                                 (F32.to_int maxGapCenter))
  end.

Definition spawn (i : Input) (dt : float) (g : Game) : Game :=
  let g := g <| pipeSpawnTimer := F32.add (pipeSpawnTimer g) dt |> in
  if F32.geb (pipeSpawnTimer g) (pipeSpawnInterval g) then
    let g := g <| pipeSpawnTimer := F32.zero |> in
    g <| pipes := pipes g ++ [ {| Pipe.x := F32.of_int (width g);
                                  Pipe.gapCenter := targetGapCenter i g;
                                  Pipe.scored := false |} ] |>
  else g.

(** The pipe test of the loop: the horizontal gate, then the vertical
    one. *)
Definition checkObstacleCollision (g : Game) (boxWidth boxHeight : float)
    (pipe : Pipe.t) : bool :=
  if F32.gtb (F32.add (playerX g) (F32.div boxWidth F32.lit_2)) (Pipe.x pipe)
     && F32.ltb (F32.sub (playerX g) (F32.div boxWidth F32.lit_2))
                (F32.add (Pipe.x pipe) (pipeWidth g))
  then
    F32.ltb (F32.sub (playerY g) (F32.div boxHeight F32.lit_2))
            (F32.sub (Pipe.gapCenter pipe) (F32.div (pipeGap g) F32.lit_2))
    || F32.gtb (F32.add (playerY g) (F32.div boxHeight F32.lit_2))
               (F32.add (Pipe.gapCenter pipe) (F32.div (pipeGap g) F32.lit_2))
  else false.

Definition movePipe (dt : float) (g : Game) (pipe : Pipe.t) : Pipe.t :=
  pipe <| Pipe.x := F32.sub (Pipe.x pipe) (F32.mul (pipeSpeed g) dt) |>.

(** The scoring test of the loop, on the moved pipe. *)
Definition scorePipe (g : Game) (pipe : Pipe.t) : Game * Pipe.t :=
  if F32.gtb (playerX g) (F32.add (Pipe.x pipe) (pipeWidth g))
     && negb (Pipe.scored pipe)
  then
    let g := g <| score := Int32.wrap (score g + 1) |> in
    let pipe := pipe <| Pipe.scored := true |> in
    let g := emit [PlaySound scoreSound] g in
    let g := if score g >? highScore g
             then SaveHighScore (g <| highScore := score g |>)
             else g in
    (g, pipe)
  else (g, pipe).

Definition collidePipe (boxWidth boxHeight : float) (g : Game)
    (pipe : Pipe.t) : Game :=
  if negb (gameOver g) then
    if checkObstacleCollision g boxWidth boxHeight pipe
    then onCollision g else g
  else g.

(** One iteration of [for (auto& pipe : pipes)]. *)
Definition pipeBody (dt boxWidth boxHeight : float) (g : Game)
    (pipe : Pipe.t) : Game * Pipe.t :=
  let pipe := movePipe dt g pipe in
  let '(g, pipe) := scorePipe g pipe in
  (collidePipe boxWidth boxHeight g pipe, pipe).

(** The loop: the game members and the visited pipes. *)
Fixpoint pipeLoop (dt boxWidth boxHeight : float) (g : Game)
    (ps : list Pipe.t) : Game * list Pipe.t :=
  match ps with
  | [] => (g, [])
  | pipe :: ps' =>
      let '(g, pipe) := pipeBody dt boxWidth boxHeight g pipe in
      let '(g, ps') := pipeLoop dt boxWidth boxHeight g ps' in
      (g, pipe :: ps')
  end.

Definition movePipes (dt boxWidth boxHeight : float) (g : Game) : Game :=
  let '(g', ps) := pipeLoop dt boxWidth boxHeight g (pipes g) in
  g' <| pipes := ps |>.

(** [pipes.erase(std::remove_if(...))] *)
Definition removeOffscreen (g : Game) : Game :=
  g <| pipes := filter (fun pipe =>
                          negb (F32.ltb (Pipe.x pipe) (F32.neg (pipeWidth g))))
                       (pipes g) |>.

Definition eyesTimer (dt : float) (g : Game) : Game :=
  if F32.gtb (playerEyesClosedTimer g) F32.zero then
    let g := g <| playerEyesClosedTimer :=
                    F32.sub (playerEyesClosedTimer g) dt |> in
    if F32.ltb (playerEyesClosedTimer g) F32.zero
    then g <| playerEyesClosedTimer := F32.zero |> else g
  else g.

(** The body of [if (running)]. *)
Definition simulate (i : Input) (dt : float) (g : Game) : Game :=
  let g := HandleInput i g in
  let g := UpdatePipeSpeed dt g in
  let g := physics dt g in
  let boxWidth := collisionBoxWidth g in
  let boxHeight := collisionBoxHeight g in
  let g := if checkBoundaryCollision g boxHeight
           then onCollision g else g in
  let g := spawn i dt g in
  let g := movePipes dt boxWidth boxHeight g in
  let g := removeOffscreen g in
  eyesTimer dt g.

(** The body of the final [if (gameOver)]. *)
Definition gameOverRestart (i : Input) (dt : float) (g : Game) : Game :=
  let g :=
    if F32.gtb (gameOverDelayTimer g) F32.zero then
      let g := g <| gameOverDelayTimer :=
                      F32.sub (gameOverDelayTimer g) dt |> in
      if F32.ltb (gameOverDelayTimer g) F32.zero
      then g <| gameOverDelayTimer := F32.zero |> else g
    else g in
  if F32.leb (gameOverDelayTimer g) F32.zero then
    if isMobile g then
      if IsGestureDetected_TAP i then Reset i g else g
    else if IsKeyPressed i KEY_ENTER then Reset i g
    else g
  else g.

Definition setScreenScale (i : Input) (g : Game) : Game :=
  g <| screenScale :=
         F32.MIN (F32.div (F32.of_int (GetScreenWidth i))
                          (F32.of_int (gameScreenWidth G)))
                 (F32.div (F32.of_int (GetScreenHeight i))
                          (F32.of_int (gameScreenHeight G))) |>.

(** What follows [UpdateUI] when it does not ask to skip the frame:
    the simulation of a running game, then the final block. *)
Definition advance (i : Input) (dt : float) (g : Game) : Game :=
  let run := running g in
  let g := if run then scrollBackground dt g else g in
  let g := if musicPlaying g then emit [UpdateMusicStream] g else g in
  if run then simulate i dt g else g.

Definition frame (i : Input) (dt : float) (g : Game) : Game :=
  let g := advance i dt g in
  if gameOver g then gameOverRestart i dt g else g.

Definition Update (i : Input) (dt : float) (g : Game) : Game :=
  if F32.eqb dt F32.zero then g
  else
    let g := setScreenScale i g in
    let '(skipFrame, g) := UpdateUI i g in
    if skipFrame then g else frame i dt g.
End Members.

(** ** Vocabulary of the properties *)

(** The comparisons as propositions. *)
Definition flt (a b : float) : Prop := F32.ltb a b = true.
Definition fle (a b : float) : Prop := F32.leb a b = true.

(** One of the five mode flags that [Update] tests is set. *)
Definition blocked (g : Game) : bool :=
  firstTimeGameStart g || paused g || lostWindowFocus g || isInExitMenu g
  || gameOver g.

(** The simulation state: the player, the obstacles, the score and the
    obstacle speed. *)
Definition sim (g : Game)
    : float * float * float * list Pipe.t * Z * float :=
  (playerX g, playerY g, playerVelocity g, pipes g, score g, pipeSpeed g).

(** The restart input of the platform. *)
Definition restartPressed (i : Input) (g : Game) : bool :=
  if isMobile g then IsGestureDetected_TAP i else IsKeyPressed i KEY_ENTER.

(** The collision box of the player, centered on its position. *)
Definition boxLeft (g : Game) : float :=
  F32.sub (playerX g) (F32.div (collisionBoxWidth g) F32.lit_2).
Definition boxRight (g : Game) : float :=
  F32.add (playerX g) (F32.div (collisionBoxWidth g) F32.lit_2).
Definition boxTop (g : Game) : float :=
  F32.sub (playerY g) (F32.div (collisionBoxHeight g) F32.lit_2).
Definition boxBottom (g : Game) : float :=
  F32.add (playerY g) (F32.div (collisionBoxHeight g) F32.lit_2).

(** The band of the opening of a pipe. *)
Definition gapTop (g : Game) (pipe : Pipe.t) : float :=
  F32.sub (Pipe.gapCenter pipe) (F32.div (pipeGap g) F32.lit_2).
Definition gapBottom (g : Game) (pipe : Pipe.t) : float :=
  F32.add (Pipe.gapCenter pipe) (F32.div (pipeGap g) F32.lit_2).

(** The box meets the horizontal extent [[x, x + width)] of the pipe: it
    ends right of [x] and starts left of [x + width]. *)
Definition overlapsHorizontally (g : Game) (pipe : Pipe.t) : Prop :=
  flt (Pipe.x pipe) (boxRight g)
  /\ flt (boxLeft g) (F32.add (Pipe.x pipe) (pipeWidth g)).

(** The box leaves the band of the opening, above or below. *)
Definition outsideGap (g : Game) (pipe : Pipe.t) : Prop :=
  flt (boxTop g) (gapTop g pipe) \/ flt (gapBottom g pipe) (boxBottom g).

(** The box lies within the band of the opening. *)
Definition insideGap (g : Game) (pipe : Pipe.t) : Prop :=
  fle (gapTop g pipe) (boxTop g) /\ fle (boxBottom g) (gapBottom g pipe).

(** The player is strictly beyond the right edge of the pipe. *)
Definition passed (g : Game) (pipe : Pipe.t) : Prop :=
  flt (F32.add (Pipe.x pipe) (pipeWidth g)) (playerX g).

(** What the user interface never writes. *)
Definition kept (g : Game) :=
  (sim g, highScore g, gameOver g, musicManuallyDisabled g,
   (width g, height g, basePipeSpeed g, isMobile g)).

Definition scores (g : Game) : Z * Z := (score g, highScore g).

(** The score never exceeds the high score, which is not negative. *)
Definition scoreInv (g : Game) : Prop :=
  score g <= highScore g /\ 0 <= highScore g.

(** The state of a running frame on entry of the pipe loop. *)
Definition beforePipes (G : Globals) (i : Input) (dt : float) (g : Game)
    : Game :=
  let g := HandleInput G i g in
  let g := UpdatePipeSpeed G dt g in
  let g := physics dt g in
  let g := if checkBoundaryCollision g (collisionBoxHeight g)
           then onCollision G g else g in
  spawn G i dt g.

(** What is fixed once the game is constructed. *)
Definition config (g : Game) :=
  (initialPipeDistance g, basePipeSpeed g, width g, height g,
   (pipeGap g, pipeWidth g, playerSize g, playerCollisionWidthRatio g,
    playerCollisionHeightRatio g, isMobile g)).

(** A sequence of frames, each with its input and its [dt]. *)
Fixpoint play (G : Globals) (frames : list (Input * float)) (g : Game)
    : Game :=
  match frames with
  | [] => g
  | (i, dt) :: frames' => play G frames' (Update G i dt g)
  end.

(** ** A configuration and some states to run the model on *)

Module Sample.
(** Constants in the style of the game: gravity 1000, jump -400, pipes
    80 wide with a gap of 250, speed 200 growing by 5 per second up to
    500, one pipe every 2 seconds, gap centers at most 200 apart, on a
    1280 x 720 desktop screen. *)
Definition globals : Globals := {|
  defaultGravity := F32.of_int 1000;
  defaultJumpForce := F32.of_int (-400);
  defaultPipeWidth := F32.of_int 80;
  defaultPipeGap := F32.of_int 250;
  defaultPipeSpeed := F32.of_int 200;
  defaultPipeSpawnInterval := F32.of_int 2;
  maxGapHeightDifference := F32.of_int 200;
  pipeSpeedIncrease := F32.of_int 5;
  maxSpeed := F32.of_int 500;
  gameOverDelayDuration := F32.of_int 1;
  playerEyesClosedDuration := F32.lit_0_2;
  gameScreenWidth := 1280;
  gameScreenHeight := 720;
  EMSCRIPTEN := false;
  EMSCRIPTEN_BUILD := false;
  ofstream_is_open := true
|}.

(** A frame in which nothing is pressed, the window has the focus and
    the generator draws [r]. *)
Definition idle (r : Z) : Input := {|
  IsKeyPressed := fun _ => false;
  IsKeyDown := fun _ => false;
  IsGestureDetected_TAP := false;
  GetTouchPosition := (F32.zero, F32.zero);
  GetScreenWidth := 1280;
  GetScreenHeight := 720;
  WindowShouldClose := false;
  IsWindowFocused := true;
  rand := r
|}.

(** The same frame with the key [k] pressed (and held). *)
Definition press (k : Key) (r : Z) : Input :=
  (idle r) <| IsKeyPressed := Key_eqb k |> <| IsKeyDown := Key_eqb k |>.

(** The object before the constructor runs. *)
Definition blank : Game := {|
  firstTimeGameStart := false; playerSize := F32.zero;
  playerX := F32.zero; playerY := F32.zero; playerVelocity := F32.zero;
  gravity := F32.zero; jumpForce := F32.zero; pipeWidth := F32.zero;
  pipeGap := F32.zero; pipeSpeed := F32.zero; basePipeSpeed := F32.zero;
  pipeSpawnInterval := F32.zero; pipeSpawnTimer := F32.zero;
  initialPipeDistance := F32.zero; speedLevel := 0;
  musicPlaying := false; musicManuallyDisabled := false;
  score := 0; highScore := 0;
  playerCollisionWidthRatio := F32.zero;
  playerCollisionHeightRatio := F32.zero;
  width := 0; height := 0; backgroundTexture_width := 0;
  backgroundScrollX := F32.zero; backgroundScrollSpeed := F32.zero;
  playerEyesClosedTimer := F32.zero;
  isInExitMenu := false; paused := false; lostWindowFocus := false;
  gameOver := false; gameOverDelayTimer := F32.zero;
  exitWindowRequested := false; exitWindow := false; fullscreen := false;
  screenScale := F32.zero; isMobile := false; pipes := []; trace := []
|}.

(** The game as constructed, with a stored high score of 7. *)
Definition fresh : Game :=
  Game_ctor globals blank (idle 0) false (Some 7) 2048 1280 720.

(** A sixtieth of a second. *)
Definition dt60 : float := F32.div (F32.of_int 1) (F32.of_int 60).

(** [n] idle frames. *)
Fixpoint idleFrames (n : nat) (g : Game) : Game :=
  match n with
  | O => g
  | S n' => idleFrames n' (Update globals (idle (Z.of_nat n * 37)) dt60 g)
  end.

(** The game once Enter has started it. *)
Definition started : Game := Update globals (press KEY_ENTER 0) dt60 fresh.

(** The started game, paused. *)
Definition pausedGame : Game := started <| paused := true |>.

(** A pipe that the player of [started] is crossing, its opening around
    the player; and a pipe that the player has left behind. *)
Definition crossedPipe : Pipe.t :=
  {| Pipe.x := F32.of_int 300; Pipe.gapCenter := F32.of_int 360;
     Pipe.scored := false |}.
Definition passedPipe : Pipe.t :=
  {| Pipe.x := F32.of_int 100; Pipe.gapCenter := F32.of_int 360;
     Pipe.scored := false |}.
End Sample.

(** ** Vocabulary of the further properties *)

(** The mode flags and window members that only the user-interface step
    and [Reset] write. *)
Definition uiState (g : Game) :=
  (firstTimeGameStart g, paused g, lostWindowFocus g, isInExitMenu g,
   (exitWindowRequested g, exitWindow g, fullscreen g, screenScale g)).

(** What the difficulty controller computes. *)
Definition speeds (g : Game) : float * float * float :=
  (pipeSpeed g, pipeSpawnInterval g, backgroundScrollSpeed g).

(** The two music members. *)
Definition music (g : Game) : bool * bool :=
  (musicPlaying g, musicManuallyDisabled g).

(** What the steps of a running frame that follow the difficulty
    controller leave alone. *)
Definition settled (g : Game) :=
  (uiState g, speeds g, music g, playerX g).

(** The exit menu is only open while an exit is requested. *)
Definition exitInv (g : Game) : Prop :=
  isInExitMenu g = true -> exitWindowRequested g = true.

(** Two flags move one way only: the first-start flag is never set
    again, the exit flag is never cleared. *)
Definition later (g g' : Game) : Prop :=
  (firstTimeGameStart g = false -> firstTimeGameStart g' = false)
  /\ (exitWindow g = true -> exitWindow g' = true).

(** The effect is the hit cue. *)
Definition isHit (e : Effect) : bool :=
  match e with PlaySound hitSound => true | _ => false end.

(** The effect writes the high-score file. *)
Definition isWrite (e : Effect) : bool :=
  match e with WriteHighScoreFile _ => true | _ => false end.

(** The effect is the score cue. *)
Definition isCue (e : Effect) : bool :=
  match e with PlaySound scoreSound => true | _ => false end.

(** The number of hit cues of a trace, and of score cues. *)
Definition hits (tr : list Effect) : nat := length (filter isHit tr).
Definition cues (tr : list Effect) : nat := length (filter isCue tr).

(** The content of the high-score file once the effects of [tr] are
    done, [file] being its content before ([None]: no file). *)
Definition diskAfter (file : option Z) (tr : list Effect) : option Z :=
  fold_left (fun f e => match e with
                        | WriteHighScoreFile v => Some v
                        | _ => f
                        end) tr file.

(** Effects that neither play the hit cue or the score cue nor write
    the file. *)
Definition quiet (es : list Effect) : bool :=
  forallb (fun e => negb (isHit e) && negb (isWrite e) && negb (isCue e)) es.

(** [g'] has the trace of [g], extended by quiet effects. *)
Definition quietStep (g g' : Game) : Prop :=
  exists es, trace g' = trace g ++ es /\ quiet es = true.

(** A call of [SaveHighScore] writes the file: the build has a file
    system and the file opens. *)
Definition saves (G : Globals) : bool :=
  negb (EMSCRIPTEN G) && ofstream_is_open G.

(** The score and the high score are [int]s, and what a restart of the
    program would load is the high score. *)
Definition persisted (G : Globals) (file : option Z) (g : Game) : Prop :=
  Int32.in_range (score g) /\ Int32.in_range (highScore g)
  /\ highScore (LoadHighScore G (diskAfter file (trace g)) g) = highScore g.

(** From [g] to [g'] the hit cue was played once if the game went over,
    and not at all otherwise; a game that was over is still over. *)
Definition tally (g g' : Game) : Prop :=
  hits (trace g')
  = (hits (trace g) + (if negb (gameOver g) && gameOver g' then 1 else 0))%nat
  /\ (gameOver g = true -> gameOver g' = true).

(** Music that the player switched off is off, and it can only have been
    switched off once the game has started. *)
Definition musicInv (g : Game) : Prop :=
  (musicManuallyDisabled g = true -> musicPlaying g = false)
  /\ (firstTimeGameStart g = true -> musicManuallyDisabled g = false).

(** Neither the pipe speed nor the base speed is above the maximum. *)
Definition speedInv (G : Globals) (g : Game) : Prop :=
  F32.gtb (pipeSpeed g) (maxSpeed G) = false
  /\ F32.gtb (basePipeSpeed g) (maxSpeed G) = false.

(** What one frame does to a pipe: it moves left by the distance covered
    at the speed of [g], keeps its gap center, and is flagged once the
    player is beyond its right edge. *)
Definition stepPipe (dt : float) (g : Game) (pipe : Pipe.t) : Pipe.t :=
  let x' := F32.sub (Pipe.x pipe) (F32.mul (pipeSpeed g) dt) in
  {| Pipe.x := x';
     Pipe.gapCenter := Pipe.gapCenter pipe;
     Pipe.scored := Pipe.scored pipe
                    || F32.gtb (playerX g) (F32.add x' (pipeWidth g)) |}.

(** What the pipe loop reads of the game. *)
Definition loopView (g : Game) : float * float * float :=
  (pipeSpeed g, playerX g, pipeWidth g).

(** The bounds that the spawn hands to [GetRandomValue], as floats and
    once converted to [int]. *)
Definition minGapCenter (G : Globals) (g : Game) (prev : Pipe.t) : float :=
  F32.MAX (F32.div (pipeGap g) F32.lit_2)
          (F32.sub (Pipe.gapCenter prev) (maxGapHeightDifference G)).
Definition maxGapCenter (G : Globals) (g : Game) (prev : Pipe.t) : float :=
  F32.MIN (F32.sub (F32.of_int (height g)) (F32.div (pipeGap g) F32.lit_2))
          (F32.add (Pipe.gapCenter prev) (maxGapHeightDifference G)).

(** The player's vertical state. *)
Definition body (g : Game) : float * float := (playerY g, playerVelocity g).

(** A flap input of the frame. *)
Definition flapPressed (i : Input) (g : Game) : bool :=
  IsKeyPressed i KEY_SPACE || IsKeyPressed i KEY_UP || IsKeyPressed i KEY_W
  || (isMobile g && IsGestureDetected_TAP i).

(** ** [Game::FormatWithLeadingZeroes] *)

Section Text.
Import String Ascii Decimal DecimalString DecimalZ.

(** [std::to_string] on an [int]. *)
Definition to_string (n : Z) : string := NilZero.string_of_int (Z.to_int n).

(** [std::string(count, '0')] *)
Fixpoint zeros (count : nat) : string :=
  match count with
  | O => EmptyString
  | S count' => String "0"%char (zeros count')
  end.

(** The difference [width - numberText.length()] is taken on [size_t]
    and stored in an [int]; a negative count makes the constructor of
    the padding throw [std::length_error]: [None]. *)
Definition FormatWithLeadingZeroes (number width_ : Z) : option string :=
  let numberText := to_string number in
  let leadingZeros :=
    Int32.wrap (width_ - Z.of_nat (String.length numberText)) in
  if leadingZeros <? 0 then None
  else Some (zeros (Z.to_nat leadingZeros) ++ numberText)%string.

(** A reader of decimal text. *)
Definition read_int (s : string) : option Z :=
  option_map Z.of_int (NilZero.int_of_string s).
End Text.

(** ** [Game::DrawUI]

    The function is the list of its raylib calls.  A conversion of a
    [float] to [int] is [F32.to_int], of an [int] to [float] is
    [F32.of_int]; the sums and differences of [int]s are taken on [Z]
    (an overflow of [int] there is undefined in C++). *)

Inductive Color := BLACK | WHITE | Rgba (r g b a : Z).

(** The raylib calls of [DrawUI], in the order of their execution. *)
Inductive DrawCmd :=
| DrawRectangle (posX posY width_ height_ : Z) (color : Color)
| DrawText (text : String.string) (posX posY fontSize : Z) (color : Color)
| DrawRectangleRounded (rec : float * float * float * float)
    (roundness : float) (segments : Z) (color : Color).

(** The literal [0.76f]. *)
Definition lit_0_76 : float := S754_finite false 12750684 (-24).

Section DrawUI.
Import String Ascii.
(** The constants of [globals.h], raylib's [MeasureText] and the color
    [yellow] of [globals.h]. *)
Variable G : Globals.
Variable MeasureText : string -> Z -> Z.
Variable yellow : Color.

(** The box of the small overlays, [height_] high. *)
Definition overlayBox (screenX screenY : float) (height_ : Z) : DrawCmd :=
  DrawRectangleRounded
    (F32.add screenX (F32.of_int (Z.quot (gameScreenWidth G) 2 - 250)),
     F32.add screenY (F32.of_int (Z.quot (gameScreenHeight G) 2 - 20)),
     F32.of_int 500, F32.of_int height_)
    lit_0_76 20 BLACK.

(** A line of the small overlays, at the left of the box. *)
Definition overlayLine (screenX screenY : float) (text : string) : DrawCmd :=
  DrawText text
    (F32.to_int (F32.add screenX (F32.of_int (Z.quot (gameScreenWidth G) 2 - 200))))
    (F32.to_int (F32.add screenY (F32.of_int (Z.quot (gameScreenHeight G) 2))))
    20 yellow.

(** The welcome overlay. *)
Definition welcome (screenX screenY : float) (g : Game) : list DrawCmd :=
  let at_ (dx : Z) : Z :=
    F32.to_int (F32.add screenX (F32.of_int (Z.quot (gameScreenWidth G) 2 - dx))) in
  let y := F32.to_int
             (F32.add screenY (F32.of_int (Z.quot (gameScreenHeight G) 2 - 110))) in
  [ DrawRectangleRounded
      (F32.add screenX (F32.of_int (Z.quot (gameScreenWidth G) 2 - 320)),
       F32.add screenY (F32.of_int (Z.quot (gameScreenHeight G) 2 - 130)),
       F32.of_int 700, F32.of_int 300)
      lit_0_76 20 BLACK;
    DrawText "Welcome to Hovercat" (at_ 260) y 20 yellow;
    DrawText "Controls:" (at_ 260) (y + 40) 20 yellow ]
  ++ (let y := y + 40 + 30 in
      if negb (isMobile g) then
        DrawText "- Press [Space], [W] or [Up Arrow] to flap" (at_ 220) y 20 WHITE
        :: (let y := y + 30 in
            if negb (EMSCRIPTEN_BUILD G) then
              [ DrawText "- Press [P] to pause" (at_ 220) y 20 WHITE;
                DrawText "- Press [Esc] to exit" (at_ 220) (y + 30) 20 WHITE;
                DrawText "- Press [M] to toggle music" (at_ 220) (y + 30 + 30) 20 WHITE;
                DrawText "Press Enter to play" (at_ 100) (y + 30 + 30 + 40) 20 yellow;
                DrawText "Alt+Enter: toggle fullscreen" (at_ 120)
                         (y + 30 + 30 + 40 + 30) 20 yellow ]
            else
              [ DrawText "- Press [P] or [ESC] to pause" (at_ 220) y 20 WHITE;
                DrawText "- Press [M] to toggle music" (at_ 220) (y + 30) 20 WHITE;
                DrawText "Press Enter to play" (at_ 100) (y + 30 + 70) 20 yellow ])
      else
        [ DrawText "- Tap to flap" (at_ 220) y 20 WHITE;
          DrawText "- Tap title bar to pause" (at_ 220) (y + 30) 20 WHITE;
          DrawText "Tap to play" (at_ 100) (y + 30 + 70) 20 yellow ]).

(** The overlay of the game that is over. *)
Definition gameOverOverlay (screenX screenY : float) (g : Game)
    : list DrawCmd :=
  let gameOverText := ("Game Over! Score: " ++ to_string (score g))%string in
  let gameOverTextWidth := MeasureText gameOverText 20 in
  [ overlayBox screenX screenY 100;
    DrawText gameOverText
      (F32.to_int
         (F32.add screenX
            (F32.of_int (Z.quot (gameScreenWidth G) 2
                         - Z.quot gameOverTextWidth 2))))
      (F32.to_int
         (F32.sub (F32.add screenY (F32.of_int (Z.quot (gameScreenHeight G) 2)))
                  (F32.of_int 10)))
      20 yellow;
    if isMobile g then
      DrawText "Tap to play again"
        (F32.to_int (F32.add screenX (F32.of_int (Z.quot (gameScreenWidth G) 2 - 100))))
        (F32.to_int
           (F32.add (F32.add screenY (F32.of_int (Z.quot (gameScreenHeight G) 2)))
                    (F32.of_int 30)))
        20 yellow
    else
      DrawText "Press Enter to play again"
        (F32.to_int (F32.add screenX (F32.of_int (Z.quot (gameScreenWidth G) 2 - 120))))
        (F32.to_int
           (F32.add (F32.add screenY (F32.of_int (Z.quot (gameScreenHeight G) 2)))
                    (F32.of_int 30)))
        20 yellow ].

(** The part of [DrawUI] drawn in every mode. *)
Definition hud (g : Game) : list DrawCmd :=
  (if isMobile g then
     [ DrawRectangle 0 0 (gameScreenWidth G) 100 (Rgba 128 128 128 8);
       DrawText "Tap to pause"
         (Z.quot (gameScreenWidth G - MeasureText "Tap to pause" 20) 2)
         40 20 BLACK ]
   else [])
  ++ (let scoreText := ("Score: " ++ to_string (score g))%string in
      let highScoreText := ("High Score: " ++ to_string (highScore g))%string in
      let speedText :=
        ("Speed: " ++ to_string (F32.to_int (pipeSpeed g)))%string in
      let rightPadding := 20 in
      [ DrawText scoreText
          (width g - MeasureText scoreText 20 - rightPadding) 20 20 BLACK;
        DrawText highScoreText
          (width g - MeasureText highScoreText 20 - rightPadding) 50 20 BLACK;
        DrawText speedText
          (width g - MeasureText speedText 20 - rightPadding) 80 20 BLACK ])
  ++ (if negb (isMobile g) then
        [ DrawText "Press M to toggle music"
            (Z.quot (gameScreenWidth G
                     - MeasureText "Press M to toggle music" 20) 2)
            (gameScreenHeight G - 30) 20 BLACK ]
      else []).

(** The chain of overlays that ends [DrawUI]. *)
Definition overlay (g : Game) : list DrawCmd :=
  let screenX := F32.zero in
  let screenY := F32.zero in
  if exitWindowRequested g then
    [ overlayBox screenX screenY 60;
      overlayLine screenX screenY "Are you sure you want to exit? [Y/N]" ]
  else if firstTimeGameStart g then welcome screenX screenY g
  else if paused g then
    [ overlayBox screenX screenY 60;
      if negb (EMSCRIPTEN_BUILD G) then
        overlayLine screenX screenY "Game paused, press P to continue"
      else if isMobile g then
        overlayLine screenX screenY "Game paused, tap to continue"
      else
        overlayLine screenX screenY "Game paused, press P or ESC to continue" ]
  else if lostWindowFocus g then
    [ overlayBox screenX screenY 60;
      overlayLine screenX screenY "Game paused, focus window to continue" ]
  else if gameOver g then gameOverOverlay screenX screenY g
  else [].

Definition DrawUI (g : Game) : list DrawCmd := hud g ++ overlay g.
End DrawUI.

(** The command draws the box of an overlay. *)
Definition isBox (c : DrawCmd) : bool :=
  match c with DrawRectangleRounded _ _ _ _ => true | _ => false end.

(** The number of overlay boxes among the commands. *)
Definition boxes (cmds : list DrawCmd) : nat := length (filter isBox cmds).

(** The game but for what the user-interface step writes (the mode and
    exit flags, the fullscreen flag, the screen scale, the music flag),
    the countdown of the restart, the scroll offset of the background
    and the effects done so far. *)
Definition scene (g : Game) : Game :=
  g <| firstTimeGameStart := false |> <| paused := false |>
    <| lostWindowFocus := false |> <| isInExitMenu := false |>
    <| exitWindowRequested := false |> <| exitWindow := false |>
    <| fullscreen := false |> <| screenScale := F32.zero |>
    <| musicPlaying := false |> <| gameOverDelayTimer := F32.zero |>
    <| backgroundScrollX := F32.zero |> <| trace := [] |>.

(** What the spawn of a running frame appends to the pipes: a pipe at
    the right edge of the screen, once the spawn timer with [dt] added
    has reached the interval that the frame has just computed. *)
Definition spawned (G : Globals) (i : Input) (dt : float) (g : Game)
    : list Pipe.t :=
  if F32.geb (F32.add (pipeSpawnTimer g) dt)
             (pipeSpawnInterval (UpdatePipeSpeed G dt g))
  then [ {| Pipe.x := F32.of_int (width g);
            Pipe.gapCenter := targetGapCenter G i g;
            Pipe.scored := false |} ]
  else [].

(** The pipe is not wholly left of the screen. *)
Definition onScreen (g : Game) (pipe : Pipe.t) : bool :=
  negb (F32.ltb (Pipe.x pipe) (F32.neg (pipeWidth g))).

(** The velocity and the height of the player after a running frame. *)
Definition nextVelocity (i : Input) (dt : float) (g : Game) : float :=
  F32.add (if flapPressed i g then jumpForce g else playerVelocity g)
          (F32.mul (gravity g) dt).
Definition nextY (i : Input) (dt : float) (g : Game) : float :=
  F32.add (playerY g) (F32.mul (nextVelocity i dt g) dt).

(** What the spawn reads. *)
Definition spawnView (g : Game) :=
  (pipes g, pipeSpawnTimer g, pipeSpawnInterval g,
   (width g, height g, pipeGap g)).

(** The game with the player at the height that a running frame gives
    it. *)
Definition moved (i : Input) (dt : float) (g : Game) : Game :=
  g <| playerY := nextY i dt g |>.

(** What the two collision tests read of the game. *)
Definition hitView (g : Game) :=
  (playerX g, playerY g, pipeWidth g, pipeGap g, height g).

(** The frame flags the pipe: the player gets beyond its right edge. *)
Definition crossing (dt : float) (g : Game) (pipe : Pipe.t) : bool :=
  negb (Pipe.scored pipe) && Pipe.scored (stepPipe dt g pipe).

(** The number of pipes that the frame flags. *)
Definition crossings (dt : float) (g : Game) (ps : list Pipe.t) : nat :=
  length (filter (crossing dt g) ps).

(** The running frame ends the game: the collision box of the player, at
    its new height, is beyond the top or the bottom of the screen or
    hits one of the pipes of the frame at its new place. *)
Definition crashes (G : Globals) (i : Input) (dt : float) (g : Game) : bool :=
  checkBoundaryCollision (moved i dt g) (collisionBoxHeight g)
  || existsb (checkObstacleCollision (moved i dt g)
                (collisionBoxWidth g) (collisionBoxHeight g))
       (map (stepPipe dt (UpdatePipeSpeed G dt g))
            (pipes g ++ spawned G i dt g)).

(** The two exit flags. *)
Definition exitView (g : Game) : bool * bool :=
  (exitWindowRequested g, exitWindow g).

(** The scale that fits the game screen into the window. *)
Definition fitScale (G : Globals) (i : Input) : float :=
  F32.MIN (F32.div (F32.of_int (GetScreenWidth i))
                   (F32.of_int (gameScreenWidth G)))
          (F32.div (F32.of_int (GetScreenHeight i))
                   (F32.of_int (gameScreenHeight G))).

(** The number of writes of the high-score file in a trace. *)
Definition writes (tr : list Effect) : nat := length (filter isWrite tr).

(** The number of writes of the high-score file that directly follow
    the hit cue, as the save of a collision block does; [prev] tells
    whether the effect before [tr] is the hit cue. *)
Fixpoint hitSaves (prev : bool) (tr : list Effect) : nat :=
  match tr with
  | [] => 0
  | e :: tr' =>
      ((if prev && isWrite e then 1 else 0) + hitSaves (isHit e) tr')%nat
  end.

(** Effects without a save of a collision block, whatever precedes
    them. *)
Definition calm (es : list Effect) : Prop :=
  forall prev, hitSaves prev es = 0%nat.

(** The score is not above the high score, which is not negative, and
    no collision block has saved so far. *)
Definition unsaved (g : Game) : Prop :=
  scoreInv g /\ hitSaves false (trace g) = 0%nat.

(** The record [mrs] is what is left of the fraction [a / b] once it is
    truncated: its mantissa is the integer part, its round bit tells
    whether the rest reaches one half, its sticky bit whether the rest
    is neither zero nor one half. *)
Definition located (mrs : shr_record) (a b : Z) : Prop :=
  0 <= shr_m mrs /\ 0 < b
  /\ shr_m mrs * b <= a < shr_m mrs * b + b
  /\ shr_r mrs = (b <=? 2 * (a - shr_m mrs * b))
  /\ shr_s mrs = (0 <? a - shr_m mrs * b)
                 && negb (2 * (a - shr_m mrs * b) =? b).

(** The constants of the ramp: the rate is a positive float, the maximum
    a positive well-formed one. *)
Definition rampOK (G : Globals) : bool :=
  F32.is_positive (pipeSpeedIncrease G) && F32.is_positive (maxSpeed G)
  && F32.valid (maxSpeed G).

(** The float is positive, well formed and not above the maximum
    speed. *)
Definition rampSpeed (G : Globals) (a : float) : bool :=
  F32.is_positive a && F32.valid a && negb (F32.gtb a (maxSpeed G)).

(** The pipe speed and the base speed, to which [Reset] returns, are
    such floats. *)
Definition onRamp (G : Globals) (g : Game) : bool :=
  rampSpeed G (pipeSpeed g) && rampSpeed G (basePipeSpeed g).

(** Ticks of the difficulty controller, one for each [dt] of the list. *)
Definition ticks (G : Globals) (dts : list float) (g : Game) : Game :=
  fold_left (fun g dt => UpdatePipeSpeed G dt g) dts g.

Module Scenes.
(** The started game with one pipe ahead. *)
Definition onePipe : Game := Sample.started <| pipes := [Sample.crossedPipe] |>.

(** The started game, over, with a second of delay left. *)
Definition crashed : Game :=
  Sample.started <| gameOver := true |>
                 <| gameOverDelayTimer := F32.of_int 1 |>.

(** The started game, over, its delay used up. *)
Definition waiting : Game :=
  Sample.started <| gameOver := true |> <| gameOverDelayTimer := F32.zero |>.

(** The started game with one pipe behind the player, not yet flagged. *)
Definition passing : Game := Sample.started <| pipes := [Sample.passedPipe] |>.

(** The started game with the exit question open. *)
Definition leaving : Game :=
  Sample.started <| exitWindowRequested := true |> <| isInExitMenu := true |>.

(** A game played from the constructor: Enter starts it, and a frame of
    two seconds without a flap drops the player below the screen and
    uses up the delay of the restart. *)
Definition crashedRun : Game :=
  play Sample.globals
       [(Sample.press KEY_ENTER 0, Sample.dt60);
        (Sample.idle 0, F32.of_int 2)] Sample.fresh.

(** Then Escape asks to leave, *)
Definition asking : Game :=
  Update Sample.globals (Sample.press KEY_ESCAPE 0) Sample.dt60 crashedRun.

(** and Enter restarts the game. *)
Definition restarted : Game :=
  Update Sample.globals (Sample.press KEY_ENTER 0) Sample.dt60 asking.

(** The crashed game restarted with Enter, no exit asked. *)
Definition secondRun : Game :=
  Update Sample.globals (Sample.press KEY_ENTER 0) Sample.dt60 crashedRun.

(** The frames of a short game: Enter starts it, and in a frame of five
    seconds the player falls out of the screen and two pipes pass. *)
Definition shortGame : list (Input * float) :=
  [(Sample.press KEY_ENTER 0, Sample.dt60); (Sample.idle 0, F32.of_int 5)].

(** The game as constructed from the high-score file [file]. *)
Definition born (file : option Z) : Game :=
  Game_ctor Sample.globals Sample.blank (Sample.idle 0) false file
            2048 1280 720.
End Scenes.

(** * Proofs *)

Ltac break_ifs :=
  repeat match goal with
         | |- context [if ?c then _ else _] => destruct c eqn:?
         end.

(** Open a game into its members, so that the projections compute. *)
Ltac open_game g :=
  destruct g as
    [ _firstTimeGameStart _playerSize _playerX _playerY
      _playerVelocity _gravity _jumpForce _pipeWidth _pipeGap
      _pipeSpeed _basePipeSpeed _pipeSpawnInterval _pipeSpawnTimer
      _initialPipeDistance _speedLevel _musicPlaying
      _musicManuallyDisabled _score _highScore
      _playerCollisionWidthRatio _playerCollisionHeightRatio _width
      _height _backgroundTexture_width _backgroundScrollX
      _backgroundScrollSpeed _playerEyesClosedTimer _isInExitMenu
      _paused _lostWindowFocus _gameOver _gameOverDelayTimer
      _exitWindowRequested _exitWindow _fullscreen _screenScale
      _isMobile _pipes _trace ].

(** * Facts on the comparisons of binary32 *)

Lemma SFcompare_antisym (a b : spec_float) :
  SFcompare b a = option_map CompOpp (SFcompare a b).
Proof.
  destruct a as [sa|sa| |sa ma ea], b as [sb|sb| |sb mb eb]; simpl;
    try destruct sa; try destruct sb; try reflexivity.
  - rewrite (Z.compare_antisym ea eb).
    destruct (ea ?= eb); simpl; try reflexivity.
    rewrite (Pos.compare_cont_antisym ma mb Eq ). simpl. reflexivity.
  - rewrite (Z.compare_antisym ea eb).
    destruct (ea ?= eb); simpl; try reflexivity.
    rewrite (Pos.compare_cont_antisym ma mb Eq). simpl. reflexivity.
Qed.

Lemma leb_not_ltb a b : F32.leb a b = true -> F32.ltb b a = false.
Proof.
  unfold F32.leb, F32.ltb, SFleb, SFltb. rewrite (SFcompare_antisym a b).
  destruct (SFcompare a b) as [[| |]|]; simpl; congruence.
Qed.

Lemma ltb_irrefl a : F32.ltb a a = false.
Proof.
  unfold F32.ltb, SFltb.
  destruct a as [s|s| |s m e]; simpl; try destruct s; try reflexivity.
  all: rewrite Z.compare_refl, Pos.compare_cont_refl; reflexivity.
Qed.

Lemma checkObstacleCollision_spec g pipe :
  checkObstacleCollision g (collisionBoxWidth g) (collisionBoxHeight g) pipe = true
  <-> overlapsHorizontally g pipe /\ outsideGap g pipe.
Proof.
  unfold checkObstacleCollision, overlapsHorizontally, outsideGap, flt,
    boxLeft, boxRight, boxTop, boxBottom, gapTop, gapBottom, F32.gtb.
  destruct (F32.ltb (Pipe.x pipe) _); simpl.
  2:{ split; [discriminate | intros [[H _] _]; discriminate]. }
  destruct (F32.ltb _ (F32.add (Pipe.x pipe) _)); simpl.
  2:{ split; [discriminate | intros [[_ H] _]; discriminate]. }
  rewrite orb_true_iff. tauto.
Qed.

(** C1: the pipe test reports a hit exactly when the collision box
    meets the horizontal extent of the pipe and leaves the band of its
    opening; a box within the band never hits, a box that does not meet
    the pipe horizontally never hits wherever it is vertically, and in
    the loop the test is what ends a game that is not over yet. *)
Theorem obstacle_collision_gates G g pipe :
  (checkObstacleCollision g (collisionBoxWidth g) (collisionBoxHeight g) pipe = true
   <-> overlapsHorizontally g pipe /\ outsideGap g pipe)
  /\ (overlapsHorizontally g pipe -> insideGap g pipe ->
      checkObstacleCollision g (collisionBoxWidth g) (collisionBoxHeight g) pipe = false)
  /\ (~ overlapsHorizontally g pipe ->
      checkObstacleCollision g (collisionBoxWidth g) (collisionBoxHeight g) pipe = false)
  /\ (gameOver g = false ->
      (gameOver (collidePipe G (collisionBoxWidth g) (collisionBoxHeight g) g pipe) = true
       <-> overlapsHorizontally g pipe /\ outsideGap g pipe)).
Proof.
  pose proof (checkObstacleCollision_spec g pipe) as S.
  split; [exact S|]. split; [|split].
  - intros _ [Ht Hb]. apply not_true_is_false. intros E.
    apply S in E. destruct E as [_ [E|E]]; unfold flt, fle in *.
    + apply leb_not_ltb in Ht. congruence.
    + apply leb_not_ltb in Hb. congruence.
  - intros N. apply not_true_is_false. intros E. apply S in E. tauto.
  - intros Hg. rewrite <- S. unfold collidePipe. rewrite Hg. simpl.
    destruct (checkObstacleCollision _ _ _ _).
    + unfold onCollision, SaveHighScore, emit.
      split; [reflexivity|]. intros _.
      repeat match goal with |- context [if ?c then _ else _] => destruct c end; reflexivity.
    + rewrite Hg. split; discriminate.
Qed.

Lemma Reset_fields G i g :
  score (Reset G i g) = 0
  /\ pipeSpeed (Reset G i g) = basePipeSpeed g
  /\ pipes (Reset G i g) = []
  /\ playerX (Reset G i g) = F32.of_int (Z.quot (width g) 4)
  /\ playerY (Reset G i g) = F32.of_int (Z.quot (height g) 2)
  /\ playerVelocity (Reset G i g) = F32.zero
  /\ highScore (Reset G i g) = highScore g
  /\ musicManuallyDisabled (Reset G i g) = musicManuallyDisabled g.
Proof.
  open_game g. destruct _musicManuallyDisabled; repeat split; reflexivity.
Qed.

Lemma Reset_flags G i g :
  paused (Reset G i g) = false /\ lostWindowFocus (Reset G i g) = false
  /\ isInExitMenu (Reset G i g) = false /\ gameOver (Reset G i g) = false
  /\ firstTimeGameStart (Reset G i g) = firstTimeGameStart g.
Proof.
  open_game g. destruct _musicManuallyDisabled; repeat split; reflexivity.
Qed.

Lemma ctor_player G this i mobile file bg w h :
  playerX (Game_ctor G this i mobile file bg w h) = F32.of_int (Z.quot w 4)
  /\ playerY (Game_ctor G this i mobile file bg w h) = F32.of_int (Z.quot h 2)
  /\ playerVelocity (Game_ctor G this i mobile file bg w h) = F32.zero
  /\ width (Game_ctor G this i mobile file bg w h) = w
  /\ height (Game_ctor G this i mobile file bg w h) = h
  /\ pipeSpeed (Game_ctor G this i mobile file bg w h) = defaultPipeSpeed G
  /\ basePipeSpeed (Game_ctor G this i mobile file bg w h) = defaultPipeSpeed G.
Proof.
  destruct G as [? ? ? ? ? ? ? ? ? ? ? ? ? em eb fo].
  destruct em, file; repeat split; reflexivity.
Qed.

Section UI.
Variable G : Globals.
Variable i : Input.

Lemma setScreenScale_kept g : kept (setScreenScale G i g) = kept g.
Proof. reflexivity. Qed.

Lemma exitRequest_kept g g' : exitRequest i g = Some g' -> kept g' = kept g.
Proof.
  unfold exitRequest. destruct (_ || _); [|discriminate].
  intros E. injection E as <-. reflexivity.
Qed.

Lemma fullscreenToggle_kept g : kept (fullscreenToggle i g) = kept g.
Proof. unfold fullscreenToggle, emit. break_ifs; reflexivity. Qed.

Lemma firstStart_kept g : kept (firstStart i g) = kept g.
Proof. unfold firstStart, emit. break_ifs; reflexivity. Qed.

Lemma exitMenu_kept g : kept (exitMenu i g) = kept g.
Proof. unfold exitMenu. break_ifs; reflexivity. Qed.

Lemma focusCheck_kept g : kept (focusCheck i g) = kept g.
Proof. unfold focusCheck. break_ifs; reflexivity. Qed.

Lemma pauseToggle_kept g : kept (pauseToggle G i g) = kept g.
Proof. unfold pauseToggle. destruct (_ && _); reflexivity. Qed.

Lemma mobileTap_kept g : kept (snd (mobileTap G i g)) = kept g.
Proof.
  unfold mobileTap. destruct (_ && _); [|reflexivity].
  destruct (_ && _).
  - cbv zeta. destruct (CheckCollisionPointRec _ _); reflexivity.
  - destruct (_ && _); reflexivity.
Qed.

Lemma UpdateUI_kept g : kept (snd (UpdateUI G i g)) = kept g.
Proof.
  unfold UpdateUI.
  destruct (EMSCRIPTEN_BUILD G).
  - cbv zeta. rewrite mobileTap_kept, pauseToggle_kept, focusCheck_kept,
      exitMenu_kept, firstStart_kept. reflexivity.
  - destruct (exitRequest i g) as [g'|] eqn:E.
    + simpl. eapply exitRequest_kept; eassumption.
    + cbv zeta. rewrite mobileTap_kept, pauseToggle_kept, focusCheck_kept,
        exitMenu_kept, firstStart_kept, fullscreenToggle_kept. reflexivity.
Qed.
End UI.

Lemma kept_sim g g' : kept g' = kept g -> sim g' = sim g.
Proof. unfold kept. intros H. congruence. Qed.

Section Blocked.
Variable G : Globals.
Variable i : Input.
Variable dt : float.

Lemma sim_Reset g :
  sim (Reset G i g)
  = (F32.of_int (Z.quot (width g) 4), F32.of_int (Z.quot (height g) 2),
     F32.zero, [], 0, basePipeSpeed g).
Proof.
  open_game g. destruct _musicManuallyDisabled; reflexivity.
Qed.

Lemma gameOverRestart_cases g :
  sim (gameOverRestart G i dt g) = sim g
  \/ (restartPressed i g = true
      /\ sim (gameOverRestart G i dt g) = sim (Reset G i g)).
Proof.
  unfold gameOverRestart, restartPressed.
  cbv zeta.
  match goal with
  | |- context [F32.leb (gameOverDelayTimer ?t) _] =>
      set (g3 := t);
      assert (K : kept g3 = kept g) by (subst g3; break_ifs; reflexivity)
  end.
  unfold kept in K.
  replace (isMobile g) with (isMobile g3) by congruence.
  destruct (F32.leb _ _); [|left; congruence].
  destruct (isMobile g3).
  - destruct (IsGestureDetected_TAP i); [right|left; congruence].
    split; [reflexivity|]. rewrite !sim_Reset. congruence.
  - destruct (IsKeyPressed i KEY_ENTER); [right|left; congruence].
    split; [reflexivity|]. rewrite !sim_Reset. congruence.
Qed.

Lemma frame_blocked g :
  running g = false ->
  sim (frame G i dt g) = sim g
  \/ (gameOver g = true /\ restartPressed i g = true
      /\ sim (frame G i dt g) = sim (Reset G i g)).
Proof.
  intros H. unfold frame, advance. rewrite H. cbv zeta.
  set (g1 := if musicPlaying g then emit [UpdateMusicStream] g else g).
  assert (K : kept g1 = kept g) by (subst g1; destruct (musicPlaying g); reflexivity).
  assert (Kg : gameOver g1 = gameOver g) by (unfold kept in K; congruence).
  assert (Km : restartPressed i g1 = restartPressed i g)
    by (unfold restartPressed; unfold kept in K; replace (isMobile g1) with (isMobile g) by congruence; reflexivity).
  rewrite Kg. destruct (gameOver g).
  - destruct (gameOverRestart_cases g1) as [E|[R E]].
    + left. rewrite E. apply kept_sim, K.
    + right. split; [reflexivity|]. split; [congruence|].
      rewrite E, !sim_Reset. unfold kept in K. congruence.
  - left. apply kept_sim, K.
Qed.

End Blocked.


(** * Score and high score *)


Section Scores.
Variable G : Globals.

Lemma emit_scores es g : scores (emit es g) = scores g.
Proof. reflexivity. Qed.

Lemma SaveHighScore_scores g : scores (SaveHighScore G g) = scores g.
Proof.
  unfold SaveHighScore. destruct (EMSCRIPTEN G), (ofstream_is_open G);
    reflexivity.
Qed.

Lemma scrollBackground_scores dt g : scores (scrollBackground dt g) = scores g.
Proof. unfold scrollBackground. cbv zeta. destruct (F32.geb _ _); reflexivity. Qed.

Lemma HandleInput_scores i g : scores (HandleInput G i g) = scores g.
Proof. unfold HandleInput, emit. cbv zeta. break_ifs; reflexivity. Qed.

Lemma UpdatePipeSpeed_scores dt g : scores (UpdatePipeSpeed G dt g) = scores g.
Proof. unfold UpdatePipeSpeed. cbv zeta. destruct (F32.gtb _ _); reflexivity. Qed.

Lemma physics_scores dt g : scores (physics dt g) = scores g.
Proof. reflexivity. Qed.

Lemma spawn_scores i dt g : scores (spawn G i dt g) = scores g.
Proof. unfold spawn. cbv zeta. destruct (F32.geb _ _); reflexivity. Qed.

Lemma removeOffscreen_scores g : scores (removeOffscreen g) = scores g.
Proof. reflexivity. Qed.

Lemma eyesTimer_scores dt g : scores (eyesTimer dt g) = scores g.
Proof. unfold eyesTimer. cbv zeta. break_ifs; reflexivity. Qed.

Lemma onCollision_score g : score (onCollision G g) = score g.
Proof.
  unfold onCollision, SaveHighScore, emit. cbv zeta. break_ifs; reflexivity.
Qed.

Lemma onCollision_highScore g :
  highScore (onCollision G g) = Z.max (highScore g) (score g).
Proof.
  unfold onCollision, SaveHighScore, emit. cbv zeta.
  change (score (_ <| trace := _ |>)) with (score g).
  change (highScore (_ <| trace := _ |>)) with (highScore g).
  destruct (Z.gtb_spec (score g) (highScore g)) as [E|E].
  - transitivity (score g); [destruct (EMSCRIPTEN G), (ofstream_is_open G); reflexivity | lia].
  - transitivity (highScore g); [reflexivity | lia].
Qed.

Lemma wrap_in_range z : Int32.in_range z -> Int32.wrap z = z.
Proof.
  unfold Int32.in_range, Int32.wrap, Int32.INT_MIN, Int32.INT_MAX.
  intros H. rewrite Z.mod_small; lia.
Qed.

Lemma onCollision_scoreInv g : scoreInv g -> scoreInv (onCollision G g).
Proof.
  unfold scoreInv. rewrite onCollision_score, onCollision_highScore. lia.
Qed.

Lemma collidePipe_score bw bh g pipe :
  score (collidePipe G bw bh g pipe) = score g.
Proof.
  unfold collidePipe. break_ifs; try reflexivity. apply onCollision_score.
Qed.

Lemma collidePipe_scoreInv bw bh g pipe :
  scoreInv g -> scoreInv (collidePipe G bw bh g pipe).
Proof.
  unfold collidePipe. break_ifs; auto using onCollision_scoreInv.
Qed.

(** The two outcomes of the scoring test. *)
Lemma scorePipe_cases g pipe :
  (F32.gtb (playerX g) (F32.add (Pipe.x pipe) (pipeWidth g)) = true
   /\ Pipe.scored pipe = false
   /\ score (fst (scorePipe G g pipe)) = Int32.wrap (score g + 1)
   /\ highScore (fst (scorePipe G g pipe))
      = Z.max (highScore g) (Int32.wrap (score g + 1))
   /\ snd (scorePipe G g pipe) = pipe <| Pipe.scored := true |>)
  \/ (F32.gtb (playerX g) (F32.add (Pipe.x pipe) (pipeWidth g))
      && negb (Pipe.scored pipe) = false
      /\ scorePipe G g pipe = (g, pipe)).
Proof.
  unfold scorePipe.
  destruct (F32.gtb _ _ && negb _) eqn:C; [left|right; auto].
  apply andb_true_iff in C. destruct C as [C1 C2].
  apply negb_true_iff in C2. cbv zeta.
  unfold SaveHighScore, emit.
  change (score (_ <| trace := _ |>)) with (Int32.wrap (score g + 1)).
  change (highScore (_ <| trace := _ |>)) with (highScore g).
  repeat split; try assumption.
  - break_ifs; reflexivity.
  - destruct (Z.gtb_spec (Int32.wrap (score g + 1)) (highScore g)) as [E|E].
    + transitivity (Int32.wrap (score g + 1));
        [destruct (EMSCRIPTEN G), (ofstream_is_open G); reflexivity | lia].
    + transitivity (highScore g); [reflexivity | lia].
Qed.

Lemma scorePipe_scoreInv g pipe :
  scoreInv g -> scoreInv (fst (scorePipe G g pipe)).
Proof.
  unfold scoreInv.
  destruct (scorePipe_cases g pipe) as [(_ & _ & S & H & _)|[_ E]].
  - rewrite S, H. lia.
  - rewrite E. auto.
Qed.

Lemma scorePipe_score_bounds g pipe :
  Int32.INT_MIN <= score g -> score g < Int32.INT_MAX ->
  score g <= score (fst (scorePipe G g pipe)) <= score g + 1.
Proof.
  intros L U.
  destruct (scorePipe_cases g pipe) as [(_ & _ & S & _ & _)|[_ E]].
  - rewrite S, wrap_in_range; [lia|]. unfold Int32.in_range. lia.
  - rewrite E. simpl. lia.
Qed.

Lemma pipeBody_fst dt bw bh g pipe :
  fst (pipeBody G dt bw bh g pipe)
  = collidePipe G bw bh (fst (scorePipe G g (movePipe dt g pipe)))
                (snd (scorePipe G g (movePipe dt g pipe))).
Proof.
  unfold pipeBody. cbv zeta. destruct (scorePipe G g _). reflexivity.
Qed.

Lemma pipeLoop_scoreInv dt bw bh ps :
  forall g, scoreInv g -> scoreInv (fst (pipeLoop G dt bw bh g ps)).
Proof.
  induction ps as [|pipe ps IH]; intros g H; [exact H|].
  simpl.
  pose proof (pipeBody_fst dt bw bh g pipe) as B.
  destruct (pipeBody G dt bw bh g pipe) as [g1 p1]. simpl in B.
  specialize (IH g1).
  destruct (pipeLoop G dt bw bh g1 ps) as [g2 ps2]. simpl in *.
  apply IH. rewrite B. apply collidePipe_scoreInv, scorePipe_scoreInv, H.
Qed.

Lemma pipeLoop_score_bounds dt bw bh ps :
  forall g,
    Int32.INT_MIN <= score g ->
    score g + Z.of_nat (length ps) <= Int32.INT_MAX ->
    score g <= score (fst (pipeLoop G dt bw bh g ps))
            <= score g + Z.of_nat (length ps).
Proof.
  induction ps as [|pipe ps IH]; intros g L U; [simpl; lia|].
  simpl.
  pose proof (pipeBody_fst dt bw bh g pipe) as B.
  destruct (pipeBody G dt bw bh g pipe) as [g1 p1]. simpl in B.
  specialize (IH g1).
  destruct (pipeLoop G dt bw bh g1 ps) as [g2 ps2]. simpl in *.
  assert (S1 : score g <= score g1 <= score g + 1).
  { rewrite B, collidePipe_score. apply scorePipe_score_bounds; lia. }
  lia.
Qed.
End Scores.

Lemma kept_scores g g' : kept g' = kept g -> scores g' = scores g.
Proof. unfold kept, sim, scores. intros H. congruence. Qed.

Section Frames.
Variable G : Globals.
Variable i : Input.
Variable dt : float.

Lemma HandleInput_pipes g : pipes (HandleInput G i g) = pipes g.
Proof. unfold HandleInput, emit. cbv zeta. break_ifs; reflexivity. Qed.

Lemma UpdatePipeSpeed_pipes g : pipes (UpdatePipeSpeed G dt g) = pipes g.
Proof. unfold UpdatePipeSpeed. cbv zeta. destruct (F32.gtb _ _); reflexivity. Qed.

Lemma onCollision_pipes g : pipes (onCollision G g) = pipes g.
Proof.
  unfold onCollision, SaveHighScore, emit. cbv zeta. break_ifs; reflexivity.
Qed.

Lemma spawn_pipes g :
  pipes (spawn G i dt g) = pipes g
  \/ exists pipe, pipes (spawn G i dt g) = pipes g ++ [pipe].
Proof.
  unfold spawn. cbv zeta. destruct (F32.geb _ _).
  - right. eexists. reflexivity.
  - left. reflexivity.
Qed.

Lemma spawn_pipes_length g :
  (length (pipes (spawn G i dt g)) <= S (length (pipes g)))%nat.
Proof.
  destruct (spawn_pipes g) as [E|[p E]]; rewrite E; [lia|].
  rewrite length_app. simpl. lia.
Qed.

Lemma movePipes_scores bw bh g :
  scores (movePipes G dt bw bh g)
  = scores (fst (pipeLoop G dt bw bh g (pipes g))).
Proof.
  unfold movePipes. destruct (pipeLoop G dt bw bh g (pipes g)). reflexivity.
Qed.

Lemma simulate_scores g :
  scores (simulate G i dt g)
  = scores (fst (pipeLoop G dt (collisionBoxWidth (physics dt (UpdatePipeSpeed G dt (HandleInput G i g))))
                          (collisionBoxHeight (physics dt (UpdatePipeSpeed G dt (HandleInput G i g))))
                          (beforePipes G i dt g) (pipes (beforePipes G i dt g)))).
Proof.
  unfold simulate, beforePipes. cbv zeta.
  rewrite eyesTimer_scores, removeOffscreen_scores, movePipes_scores.
  reflexivity.
Qed.

Lemma beforePipes_score g : score (beforePipes G i dt g) = score g.
Proof.
  unfold beforePipes. cbv zeta.
  set (g1 := physics dt (UpdatePipeSpeed G dt (HandleInput G i g))).
  assert (S1 : scores g1 = scores g).
  { subst g1. rewrite physics_scores, UpdatePipeSpeed_scores, HandleInput_scores. reflexivity. }
  pose proof (spawn_scores G i dt (if checkBoundaryCollision g1 (collisionBoxHeight g1) then onCollision G g1 else g1)) as S2.
  unfold scores in *.
  transitivity (score (if checkBoundaryCollision g1 (collisionBoxHeight g1) then onCollision G g1 else g1)); [congruence|].
  destruct (checkBoundaryCollision _ _); [rewrite onCollision_score|]; congruence.
Qed.

Lemma beforePipes_scoreInv g : scoreInv g -> scoreInv (beforePipes G i dt g).
Proof.
  intros H. unfold beforePipes. cbv zeta.
  set (g1 := physics dt (UpdatePipeSpeed G dt (HandleInput G i g))).
  assert (S1 : scores g1 = scores g).
  { subst g1. rewrite physics_scores, UpdatePipeSpeed_scores, HandleInput_scores. reflexivity. }
  assert (H1 : scoreInv g1) by (unfold scoreInv, scores in *; replace (score g1) with (score g) by congruence; replace (highScore g1) with (highScore g) by congruence; exact H).
  set (g2 := if checkBoundaryCollision g1 (collisionBoxHeight g1) then onCollision G g1 else g1).
  assert (H2 : scoreInv g2) by (subst g2; destruct (checkBoundaryCollision _ _); auto using onCollision_scoreInv).
  pose proof (spawn_scores G i dt g2) as S2.
  unfold scoreInv, scores in *.
  replace (score (spawn G i dt g2)) with (score g2) by congruence.
  replace (highScore (spawn G i dt g2)) with (highScore g2) by congruence.
  exact H2.
Qed.

Lemma beforePipes_length g :
  (length (pipes (beforePipes G i dt g)) <= S (length (pipes g)))%nat.
Proof.
  unfold beforePipes. cbv zeta.
  etransitivity; [apply spawn_pipes_length|].
  apply le_n_S.
  match goal with |- context [if ?c then _ else _] => destruct c end;
    rewrite ?onCollision_pipes; unfold physics;
    change (pipes (_ <| playerY := _ |>)) with (pipes (UpdatePipeSpeed G dt (HandleInput G i g)));
    rewrite UpdatePipeSpeed_pipes, HandleInput_pipes; reflexivity.
Qed.

Lemma simulate_scoreInv g : scoreInv g -> scoreInv (simulate G i dt g).
Proof.
  intros H. pose proof (simulate_scores g) as S.
  pose proof (pipeLoop_scoreInv G dt
    (collisionBoxWidth (physics dt (UpdatePipeSpeed G dt (HandleInput G i g))))
    (collisionBoxHeight (physics dt (UpdatePipeSpeed G dt (HandleInput G i g))))
    (pipes (beforePipes G i dt g)) (beforePipes G i dt g) (beforePipes_scoreInv g H)) as P.
  unfold scoreInv, scores in *.
  replace (score (simulate G i dt g)) with (score (fst (pipeLoop G dt
    (collisionBoxWidth (physics dt (UpdatePipeSpeed G dt (HandleInput G i g))))
    (collisionBoxHeight (physics dt (UpdatePipeSpeed G dt (HandleInput G i g))))
    (beforePipes G i dt g) (pipes (beforePipes G i dt g))))) by congruence.
  replace (highScore (simulate G i dt g)) with (highScore (fst (pipeLoop G dt
    (collisionBoxWidth (physics dt (UpdatePipeSpeed G dt (HandleInput G i g))))
    (collisionBoxHeight (physics dt (UpdatePipeSpeed G dt (HandleInput G i g))))
    (beforePipes G i dt g) (pipes (beforePipes G i dt g))))) by congruence.
  exact P.
Qed.

Lemma simulate_score_mono g :
  Int32.INT_MIN <= score g ->
  score g + Z.of_nat (length (pipes g)) < Int32.INT_MAX ->
  score g <= score (simulate G i dt g).
Proof.
  intros L U. pose proof (simulate_scores g) as S.
  pose proof (beforePipes_score g) as B.
  pose proof (beforePipes_length g) as Len.
  pose proof (pipeLoop_score_bounds G dt
    (collisionBoxWidth (physics dt (UpdatePipeSpeed G dt (HandleInput G i g))))
    (collisionBoxHeight (physics dt (UpdatePipeSpeed G dt (HandleInput G i g))))
    (pipes (beforePipes G i dt g)) (beforePipes G i dt g)) as P.
  unfold scores in S.
  replace (score (simulate G i dt g)) with (score (fst (pipeLoop G dt
    (collisionBoxWidth (physics dt (UpdatePipeSpeed G dt (HandleInput G i g))))
    (collisionBoxHeight (physics dt (UpdatePipeSpeed G dt (HandleInput G i g))))
    (beforePipes G i dt g) (pipes (beforePipes G i dt g))))) by congruence.
  rewrite B in P. lia.
Qed.
End Frames.

Section Updates.
Variable G : Globals.
Variable i : Input.
Variable dt : float.

Lemma scoreInv_scores g g' : scores g' = scores g -> scoreInv g -> scoreInv g'.
Proof.
  unfold scores, scoreInv. intros E H.
  replace (score g') with (score g) by congruence.
  replace (highScore g') with (highScore g) by congruence. exact H.
Qed.

Lemma Reset_scoreInv g : scoreInv g -> scoreInv (Reset G i g).
Proof.
  unfold scoreInv. destruct (Reset_fields G i g) as (S & _ & _ & _ & _ & _ & H & _).
  rewrite S, H. lia.
Qed.

(** The final block either leaves the scores alone or ends in [Reset]. *)
Lemma gameOverRestart_scores g :
  scores (gameOverRestart G i dt g) = scores g
  \/ exists g', scores g' = scores g /\ gameOverRestart G i dt g = Reset G i g'.
Proof.
  unfold gameOverRestart. cbv zeta.
  match goal with
  | |- context [F32.leb (gameOverDelayTimer ?t) _] =>
      set (g3 := t);
      assert (K : scores g3 = scores g) by (subst g3; break_ifs; reflexivity)
  end.
  destruct (F32.leb _ _); [|left; exact K].
  destruct (isMobile g3).
  - destruct (IsGestureDetected_TAP i); [right; exists g3; auto|left; exact K].
  - destruct (IsKeyPressed i KEY_ENTER); [right; exists g3; auto|left; exact K].
Qed.

Lemma gameOverRestart_scoreInv g :
  scoreInv g -> scoreInv (gameOverRestart G i dt g).
Proof.
  intros H. destruct (gameOverRestart_scores g) as [E|(g' & E & R)].
  - eapply scoreInv_scores; eassumption.
  - rewrite R. apply Reset_scoreInv. eapply scoreInv_scores; eassumption.
Qed.

Lemma frame_advance g :
  frame G i dt g
  = if gameOver (advance G i dt g) then gameOverRestart G i dt (advance G i dt g)
    else advance G i dt g.
Proof. reflexivity. Qed.

Lemma advance_scoreInv g : scoreInv g -> scoreInv (advance G i dt g).
Proof.
  intros H. unfold advance. cbv zeta.
  destruct (running g).
  - apply simulate_scoreInv.
    destruct (musicPlaying _);
      [eapply scoreInv_scores; [apply emit_scores|]|];
      (eapply scoreInv_scores; [apply scrollBackground_scores|exact H]).
  - destruct (musicPlaying g); [eapply scoreInv_scores; [apply emit_scores|]|]; exact H.
Qed.

Lemma scrollBackground_pipes g : pipes (scrollBackground dt g) = pipes g.
Proof. unfold scrollBackground. cbv zeta. destruct (F32.geb _ _); reflexivity. Qed.

Lemma advance_score_mono g :
  Int32.INT_MIN <= score g ->
  score g + Z.of_nat (length (pipes g)) < Int32.INT_MAX ->
  score g <= score (advance G i dt g).
Proof.
  intros L U. unfold advance. cbv zeta.
  destruct (running g).
  - set (g1 := if musicPlaying (scrollBackground dt g) then _ else _).
    assert (S1 : score g1 = score g /\ pipes g1 = pipes g).
    { subst g1. pose proof (scrollBackground_scores dt g) as S.
      pose proof (scrollBackground_pipes g) as P. unfold scores in S.
      destruct (musicPlaying _); unfold emit;
        [change (score (_ <| trace := _ |>)) with (score (scrollBackground dt g));
         change (pipes (_ <| trace := _ |>)) with (pipes (scrollBackground dt g))|];
        split; congruence. }
    destruct S1 as [S1 P1].
    rewrite <- S1 at 1. apply simulate_score_mono; rewrite S1, ?P1; assumption.
  - destruct (musicPlaying g); [change (score g <= score g)|]; lia.
Qed.

Lemma frame_scoreInv g : scoreInv g -> scoreInv (frame G i dt g).
Proof.
  intros H. rewrite frame_advance.
  pose proof (advance_scoreInv g H).
  destruct (gameOver _); auto using gameOverRestart_scoreInv.
Qed.

Lemma Update_scoreInv g : scoreInv g -> scoreInv (Update G i dt g).
Proof.
  intros H. unfold Update.
  destruct (F32.eqb dt F32.zero); [exact H|]. cbv zeta.
  pose proof (UpdateUI_kept G i (setScreenScale G i g)) as K.
  rewrite setScreenScale_kept in K. apply kept_scores in K.
  destruct (UpdateUI G i (setScreenScale G i g)) as [skip g1]. simpl in K.
  assert (H1 : scoreInv g1) by (eapply scoreInv_scores; eassumption).
  destruct skip; [exact H1|]. apply frame_scoreInv, H1.
Qed.

Lemma Update_score_mono g :
  Int32.INT_MIN <= score g ->
  score g + Z.of_nat (length (pipes g)) < Int32.INT_MAX ->
  score g <= score (Update G i dt g)
  \/ exists g', Update G i dt g = Reset G i g'.
Proof.
  intros L U. unfold Update.
  destruct (F32.eqb dt F32.zero); [left; lia|]. cbv zeta.
  pose proof (UpdateUI_kept G i (setScreenScale G i g)) as K.
  rewrite setScreenScale_kept in K.
  destruct (UpdateUI G i (setScreenScale G i g)) as [skip g1]. simpl in K.
  assert (S1 : score g1 = score g /\ pipes g1 = pipes g)
    by (unfold kept, sim in K; split; congruence).
  destruct S1 as [S1 P1].
  destruct skip; [left; lia|].
  rewrite frame_advance.
  assert (M : score g <= score (advance G i dt g1))
    by (rewrite <- S1 at 1; apply advance_score_mono; rewrite S1, ?P1; assumption).
  destruct (gameOver (advance G i dt g1)); [|left; exact M].
  destruct (gameOverRestart_scores (advance G i dt g1)) as [E|(g' & _ & R)].
  - left. unfold scores in E. replace (score (gameOverRestart G i dt (advance G i dt g1))) with (score (advance G i dt g1)) by congruence. exact M.
  - right. exists g'. exact R.
Qed.
End Updates.

(** Frames played from a state. *)
Lemma play_scoreInv G frames :
  forall g, scoreInv g -> scoreInv (play G frames g).
Proof.
  induction frames as [|[i dt] frames IH]; intros g H; [exact H|].
  simpl. apply IH, Update_scoreInv, H.
Qed.

Lemma ctor_scoreInv G this i mobile file bg w h :
  match file with Some v => 0 <= v | None => True end ->
  scoreInv (Game_ctor G this i mobile file bg w h).
Proof.
  intros H.
  assert (E : score (Game_ctor G this i mobile file bg w h) = 0
          /\ highScore (Game_ctor G this i mobile file bg w h)
             = if EMSCRIPTEN G then 0
               else match file with
                    | Some v => Int32.saturate v
                    | None => 0
                    end).
  { destruct G as [? ? ? ? ? ? ? ? ? ? ? ? ? em eb fo].
    destruct em, file; split; reflexivity. }
  destruct E as [E1 E2]. unfold scoreInv. rewrite E1, E2.
  destruct (EMSCRIPTEN G); [lia|].
  destruct file; unfold Int32.saturate, Int32.INT_MIN, Int32.INT_MAX; lia.
Qed.

(** * The constants of a game *)

Section Config.
Variable G : Globals.
Variable i : Input.
Variable dt : float.

Lemma UpdateUI_config g : config (snd (UpdateUI G i g)) = config g.
Proof.
  unfold UpdateUI.
  assert (T : forall g0, config (snd (mobileTap G i g0)) = config g0).
  { intros g0. unfold mobileTap. cbv zeta. break_ifs; reflexivity. }
  assert (P : forall g0, config (pauseToggle G i g0) = config g0).
  { intros g0. unfold pauseToggle. break_ifs; reflexivity. }
  assert (F : forall g0, config (focusCheck i g0) = config g0).
  { intros g0. unfold focusCheck. break_ifs; reflexivity. }
  assert (E : forall g0, config (exitMenu i g0) = config g0).
  { intros g0. unfold exitMenu. break_ifs; reflexivity. }
  assert (S : forall g0, config (firstStart i g0) = config g0).
  { intros g0. unfold firstStart, emit. break_ifs; reflexivity. }
  assert (L : forall g0, config (fullscreenToggle i g0) = config g0).
  { intros g0. unfold fullscreenToggle, emit. break_ifs; reflexivity. }
  destruct (EMSCRIPTEN_BUILD G).
  - cbv zeta. rewrite T, P, F, E, S. reflexivity.
  - unfold exitRequest. destruct (_ || _); [reflexivity|].
    cbv zeta. rewrite T, P, F, E, S, L. reflexivity.
Qed.

Lemma onCollision_config g : config (onCollision G g) = config g.
Proof.
  unfold onCollision, SaveHighScore, emit. cbv zeta. break_ifs; reflexivity.
Qed.

Lemma beforePipes_config g : config (beforePipes G i dt g) = config g.
Proof.
  unfold beforePipes. cbv zeta.
  assert (S : forall g0, config (spawn G i dt g0) = config g0).
  { intros g0. unfold spawn. cbv zeta. break_ifs; reflexivity. }
  assert (H : forall g0, config (HandleInput G i g0) = config g0).
  { intros g0. unfold HandleInput, emit. cbv zeta. break_ifs; reflexivity. }
  assert (U : forall g0, config (UpdatePipeSpeed G dt g0) = config g0).
  { intros g0. unfold UpdatePipeSpeed. cbv zeta. break_ifs; reflexivity. }
  rewrite S.
  match goal with |- context [if ?c then _ else _] => destruct c end;
    rewrite ?onCollision_config; change (config (physics dt ?x)) with (config x);
    rewrite U, H; reflexivity.
Qed.

Lemma pipeBody_config bw bh g pipe :
  config (fst (pipeBody G dt bw bh g pipe)) = config g.
Proof.
  rewrite pipeBody_fst.
  assert (S : config (fst (scorePipe G g (movePipe dt g pipe))) = config g).
  { unfold scorePipe, SaveHighScore, emit. cbv zeta. break_ifs; reflexivity. }
  rewrite <- S. unfold collidePipe.
  break_ifs; rewrite ?onCollision_config; reflexivity.
Qed.

Lemma pipeLoop_config bw bh ps :
  forall g, config (fst (pipeLoop G dt bw bh g ps)) = config g.
Proof.
  induction ps as [|pipe ps IH]; intros g; [reflexivity|].
  simpl. pose proof (pipeBody_config bw bh g pipe) as B.
  destruct (pipeBody G dt bw bh g pipe) as [g1 p1]. simpl in B.
  specialize (IH g1).
  destruct (pipeLoop G dt bw bh g1 ps) as [g2 ps2]. simpl in *. congruence.
Qed.

Lemma removeOffscreen_config g : config (removeOffscreen g) = config g.
Proof. reflexivity. Qed.

Lemma eyesTimer_config g : config (eyesTimer dt g) = config g.
Proof. unfold eyesTimer. cbv zeta. break_ifs; reflexivity. Qed.

Lemma movePipes_config bw bh g : config (movePipes G dt bw bh g) = config g.
Proof.
  unfold movePipes. pose proof (pipeLoop_config bw bh (pipes g) g) as L.
  destruct (pipeLoop G dt bw bh g (pipes g)) as [g' ps]. exact L.
Qed.

Lemma simulate_config g : config (simulate G i dt g) = config g.
Proof.
  rewrite <- (beforePipes_config g).
  unfold simulate, beforePipes. cbv zeta.
  rewrite eyesTimer_config, removeOffscreen_config.
  apply movePipes_config.
Qed.

Lemma Reset_config g : config (Reset G i g) = config g.
Proof. open_game g. destruct _musicManuallyDisabled; reflexivity. Qed.

Lemma advance_config g : config (advance G i dt g) = config g.
Proof.
  unfold advance. cbv zeta.
  assert (B : forall g0, config (scrollBackground dt g0) = config g0).
  { intros g0. unfold scrollBackground. cbv zeta. break_ifs; reflexivity. }
  destruct (running g).
  - rewrite simulate_config. destruct (musicPlaying _); [change (config (emit ?e ?x)) with (config x)|]; apply B.
  - destruct (musicPlaying g); reflexivity.
Qed.

Lemma gameOverRestart_config g : config (gameOverRestart G i dt g) = config g.
Proof.
  unfold gameOverRestart. cbv zeta.
  match goal with
  | |- context [F32.leb (gameOverDelayTimer ?t) _] =>
      set (g3 := t);
      assert (K : config g3 = config g) by (subst g3; break_ifs; reflexivity)
  end.
  break_ifs; rewrite ?Reset_config; exact K.
Qed.

Lemma Update_config g : config (Update G i dt g) = config g.
Proof.
  unfold Update. destruct (F32.eqb dt F32.zero); [reflexivity|]. cbv zeta.
  pose proof (UpdateUI_config (setScreenScale G i g)) as K.
  destruct (UpdateUI G i (setScreenScale G i g)) as [skip g1]. simpl in K.
  change (config (setScreenScale G i g)) with (config g) in K.
  destruct skip; [exact K|].
  unfold frame. cbv zeta.
  destruct (gameOver _); rewrite ?gameOverRestart_config, advance_config; exact K.
Qed.
End Config.

(** * Further properties: the lemmas *)

Section Settled.
Variable G : Globals.
Variable i : Input.
Variable dt : float.

Lemma physics_settled g : settled (physics dt g) = settled g.
Proof. reflexivity. Qed.

Lemma onCollision_settled g : settled (onCollision G g) = settled g.
Proof.
  unfold onCollision, SaveHighScore, emit. cbv zeta. break_ifs; reflexivity.
Qed.

Lemma spawn_settled g : settled (spawn G i dt g) = settled g.
Proof. unfold spawn. cbv zeta. break_ifs; reflexivity. Qed.

Lemma removeOffscreen_settled g : settled (removeOffscreen g) = settled g.
Proof. reflexivity. Qed.

Lemma eyesTimer_settled g : settled (eyesTimer dt g) = settled g.
Proof. unfold eyesTimer. cbv zeta. break_ifs; reflexivity. Qed.

Lemma scorePipe_settled g pipe :
  settled (fst (scorePipe G g pipe)) = settled g.
Proof.
  unfold scorePipe, SaveHighScore, emit. cbv zeta. break_ifs; reflexivity.
Qed.

Lemma collidePipe_settled bw bh g pipe :
  settled (collidePipe G bw bh g pipe) = settled g.
Proof.
  unfold collidePipe. break_ifs; rewrite ?onCollision_settled; reflexivity.
Qed.

Lemma pipeBody_settled bw bh g pipe :
  settled (fst (pipeBody G dt bw bh g pipe)) = settled g.
Proof.
  rewrite pipeBody_fst, collidePipe_settled. apply scorePipe_settled.
Qed.

Lemma pipeLoop_settled bw bh ps :
  forall g, settled (fst (pipeLoop G dt bw bh g ps)) = settled g.
Proof.
  induction ps as [|pipe ps IH]; intros g; [reflexivity|].
  simpl. pose proof (pipeBody_settled bw bh g pipe) as B.
  destruct (pipeBody G dt bw bh g pipe) as [g1 p1]. simpl in B.
  specialize (IH g1).
  destruct (pipeLoop G dt bw bh g1 ps) as [g2 ps2]. simpl in *. congruence.
Qed.

Lemma movePipes_settled bw bh g : settled (movePipes G dt bw bh g) = settled g.
Proof.
  unfold movePipes. pose proof (pipeLoop_settled bw bh (pipes g) g) as L.
  destruct (pipeLoop G dt bw bh g (pipes g)) as [g' ps]. exact L.
Qed.

(** The running frame after the difficulty controller. *)
Lemma simulate_settled g :
  settled (simulate G i dt g)
  = settled (UpdatePipeSpeed G dt (HandleInput G i g)).
Proof.
  unfold simulate. cbv zeta.
  rewrite eyesTimer_settled, removeOffscreen_settled, movePipes_settled,
    spawn_settled.
  match goal with |- context [if ?c then _ else _] => destruct c end;
    rewrite ?onCollision_settled; apply physics_settled.
Qed.

Lemma HandleInput_uiState g : uiState (HandleInput G i g) = uiState g.
Proof. unfold HandleInput, emit. cbv zeta. break_ifs; reflexivity. Qed.

Lemma HandleInput_speeds g : speeds (HandleInput G i g) = speeds g.
Proof. unfold HandleInput, emit. cbv zeta. break_ifs; reflexivity. Qed.

Lemma UpdatePipeSpeed_uiState g : uiState (UpdatePipeSpeed G dt g) = uiState g.
Proof. unfold UpdatePipeSpeed. cbv zeta. break_ifs; reflexivity. Qed.

Lemma UpdatePipeSpeed_music g : music (UpdatePipeSpeed G dt g) = music g.
Proof. unfold UpdatePipeSpeed. cbv zeta. break_ifs; reflexivity. Qed.

Lemma simulate_uiState g : uiState (simulate G i dt g) = uiState g.
Proof.
  pose proof (simulate_settled g) as S. unfold settled in S.
  transitivity (uiState (UpdatePipeSpeed G dt (HandleInput G i g)));
    [congruence|].
  rewrite UpdatePipeSpeed_uiState. apply HandleInput_uiState.
Qed.

Lemma scrollBackground_uiState g : uiState (scrollBackground dt g) = uiState g.
Proof. unfold scrollBackground. cbv zeta. break_ifs; reflexivity. Qed.

Lemma advance_uiState g : uiState (advance G i dt g) = uiState g.
Proof.
  unfold advance. cbv zeta. destruct (running g).
  - rewrite simulate_uiState.
    destruct (musicPlaying _); [unfold emit|]; apply scrollBackground_uiState.
  - destruct (musicPlaying g); reflexivity.
Qed.
End Settled.

Ltac piece :=
  cbv zeta; break_ifs; repeat split; intros;
  try reflexivity; try assumption; try discriminate;
  try match goal with
      | H : _ -> _ |- _ => solve [apply H; assumption]
      end;
  try solve [cbn in *; intuition congruence].

Section Pieces.
Variable G : Globals.
Variable i : Input.

Lemma later_refl g : later g g.
Proof. split; auto. Qed.

Lemma later_trans g1 g2 g3 : later g1 g2 -> later g2 g3 -> later g1 g3.
Proof. unfold later. intuition. Qed.

Lemma later_uiState g g' : uiState g' = uiState g -> later g g'.
Proof. unfold uiState, later. intros H. split; intros; congruence. Qed.

Lemma exitInv_uiState g g' : uiState g' = uiState g -> exitInv g -> exitInv g'.
Proof. unfold uiState, exitInv. intros H I J. 
  replace (exitWindowRequested g') with (exitWindowRequested g) by congruence.
  apply I. congruence. Qed.

Lemma exitRequest_later g g' : exitRequest i g = Some g' -> later g g' /\ exitInv g'.
Proof.
  unfold exitRequest. destruct (_ || _); [|discriminate].
  intros E. injection E as <-. unfold later, exitInv. piece.
Qed.

Lemma fullscreenToggle_later g :
  later g (fullscreenToggle i g) /\ (exitInv g -> exitInv (fullscreenToggle i g)).
Proof. unfold fullscreenToggle, emit, later, exitInv. piece. Qed.

Lemma firstStart_later g :
  later g (firstStart i g) /\ (exitInv g -> exitInv (firstStart i g)).
Proof. unfold firstStart, emit, later, exitInv. piece. Qed.

Lemma exitMenu_later g :
  later g (exitMenu i g) /\ (exitInv g -> exitInv (exitMenu i g)).
Proof. unfold exitMenu, later, exitInv. piece. Qed.

Lemma focusCheck_later g :
  later g (focusCheck i g) /\ (exitInv g -> exitInv (focusCheck i g)).
Proof. unfold focusCheck, later, exitInv. piece. Qed.

Lemma pauseToggle_later g :
  later g (pauseToggle G i g) /\ (exitInv g -> exitInv (pauseToggle G i g)).
Proof. unfold pauseToggle, later, exitInv. piece. Qed.

Lemma mobileTap_later g :
  later g (snd (mobileTap G i g)) /\ (exitInv g -> exitInv (snd (mobileTap G i g))).
Proof. unfold mobileTap, later, exitInv. piece. Qed.
End Pieces.

Section UISteps.
Variable G : Globals.
Variable i : Input.

(** [UpdateUI] is the early return of the exit request, or the chain of
    the other pieces. *)
Lemma UpdateUI_steps g :
  (EMSCRIPTEN_BUILD G = false /\ exists g', exitRequest i g = Some g'
                                            /\ UpdateUI G i g = (false, g'))
  \/ exists g0, (g0 = g \/ g0 = fullscreenToggle i g)
                /\ UpdateUI G i g
                   = mobileTap G i
                       (pauseToggle G i
                          (focusCheck i (exitMenu i (firstStart i g0)))).
Proof.
  unfold UpdateUI. destruct (EMSCRIPTEN_BUILD G).
  - right. exists g. split; [left|]; reflexivity.
  - destruct (exitRequest i g) as [g'|].
    + left. split; [reflexivity|]. exists g'. split; reflexivity.
    + right. exists (fullscreenToggle i g). split; [right|]; reflexivity.
Qed.

Lemma UpdateUI_later g :
  later g (snd (UpdateUI G i g))
  /\ (exitInv g -> exitInv (snd (UpdateUI G i g))).
Proof.
  destruct (UpdateUI_steps g) as [(_ & g' & E & U)|(g0 & H0 & U)]; rewrite U.
  - simpl. destruct (exitRequest_later i g g' E). split; auto.
  - assert (L0 : later g g0 /\ (exitInv g -> exitInv g0)).
    { destruct H0 as [-> | ->]; [split; [apply later_refl|auto]|].
      apply fullscreenToggle_later. }
    destruct L0 as [L0 I0].
    destruct (firstStart_later i g0) as [L1 I1].
    destruct (exitMenu_later i (firstStart i g0)) as [L2 I2].
    destruct (focusCheck_later i (exitMenu i (firstStart i g0))) as [L3 I3].
    destruct (pauseToggle_later G i (focusCheck i (exitMenu i (firstStart i g0)))) as [L4 I4].
    destruct (mobileTap_later G i (pauseToggle G i (focusCheck i (exitMenu i (firstStart i g0))))) as [L5 I5].
    split.
    + apply (later_trans _ _ _ L0), (later_trans _ _ _ L1),
        (later_trans _ _ _ L2), (later_trans _ _ _ L3),
        (later_trans _ _ _ L4), L5.
    + auto 10.
Qed.
End UISteps.

Lemma hits_app tr es : hits (tr ++ es) = (hits tr + hits es)%nat.
Proof. unfold hits. rewrite filter_app, length_app. reflexivity. Qed.

Lemma quiet_hits es : quiet es = true -> hits es = 0%nat.
Proof.
  unfold quiet, hits. induction es as [|e es IH]; [reflexivity|].
  simpl. intros H. apply andb_true_iff in H. destruct H as [H1 H2].
  apply andb_true_iff in H1. destruct H1 as [H1 _].
  apply andb_true_iff in H1. destruct H1 as [H1 _].
  apply negb_true_iff in H1. rewrite H1. auto.
Qed.

Lemma cues_app tr es : cues (tr ++ es) = (cues tr + cues es)%nat.
Proof. unfold cues. rewrite filter_app, length_app. reflexivity. Qed.

Lemma quiet_cues es : quiet es = true -> cues es = 0%nat.
Proof.
  unfold quiet, cues. induction es as [|e es IH]; [reflexivity|].
  simpl. intros H. apply andb_true_iff in H. destruct H as [H1 H2].
  apply andb_true_iff in H1. destruct H1 as [_ H1].
  apply negb_true_iff in H1. rewrite H1. auto.
Qed.

Lemma diskAfter_app file tr es :
  diskAfter file (tr ++ es) = diskAfter (diskAfter file tr) es.
Proof. apply fold_left_app. Qed.

Lemma quiet_diskAfter es : forall file, quiet es = true -> diskAfter file es = file.
Proof.
  unfold quiet, diskAfter. induction es as [|e es IH]; intros file H; [reflexivity|].
  simpl in *. apply andb_true_iff in H. destruct H as [H1 H2].
  apply andb_true_iff in H1. destruct H1 as [H1 _].
  apply andb_true_iff in H1. destruct H1 as [_ H1].
  apply negb_true_iff in H1.
  destruct e; try (apply IH, H2). discriminate H1.
Qed.

Lemma quiet_app a b : quiet a = true -> quiet b = true -> quiet (a ++ b) = true.
Proof. unfold quiet. rewrite forallb_app. intros -> ->. reflexivity. Qed.

Lemma quietStep_refl g : quietStep g g.
Proof. exists []. split; [symmetry; apply app_nil_r|reflexivity]. Qed.

Lemma quietStep_trans g1 g2 g3 :
  quietStep g1 g2 -> quietStep g2 g3 -> quietStep g1 g3.
Proof.
  intros (a & Ea & Qa) (b & Eb & Qb). exists (a ++ b).
  split; [rewrite Eb, Ea, app_assoc; reflexivity | apply quiet_app; assumption].
Qed.

Lemma quietStep_trace g g' : trace g' = trace g -> quietStep g g'.
Proof. intros E. exists []. rewrite app_nil_r. split; [exact E|reflexivity]. Qed.

Lemma quietStep_emit es g : quiet es = true -> quietStep g (emit es g).
Proof. intros Q. exists es. split; [reflexivity|exact Q]. Qed.

Lemma quietStep_hits g g' : quietStep g g' -> hits (trace g') = hits (trace g).
Proof.
  intros (es & E & Q). rewrite E, hits_app, (quiet_hits es Q). lia.
Qed.

Lemma quietStep_cues g g' : quietStep g g' -> cues (trace g') = cues (trace g).
Proof.
  intros (es & E & Q). rewrite E, cues_app, (quiet_cues es Q). lia.
Qed.

Lemma quietStep_disk file g g' :
  quietStep g g' -> diskAfter file (trace g') = diskAfter file (trace g).
Proof.
  intros (es & E & Q). rewrite E, diskAfter_app. apply quiet_diskAfter, Q.
Qed.

(** A step that extends the trace by nothing or by one quiet batch. *)
Ltac quiet_tac :=
  cbv zeta; break_ifs;
  first [ apply quietStep_trace; reflexivity
        | eexists; split; [reflexivity | reflexivity] ].

Section Quiet.
Variable G : Globals.
Variable i : Input.
Variable dt : float.

Lemma setScreenScale_quiet g : quietStep g (setScreenScale G i g).
Proof. apply quietStep_trace. reflexivity. Qed.

Lemma exitRequest_quiet g g' : exitRequest i g = Some g' -> quietStep g g'.
Proof.
  unfold exitRequest. destruct (_ || _); [|discriminate].
  intros E. injection E as <-. apply quietStep_trace. reflexivity.
Qed.

Lemma fullscreenToggle_quiet g : quietStep g (fullscreenToggle i g).
Proof. unfold fullscreenToggle, emit. quiet_tac. Qed.

Lemma firstStart_quiet g : quietStep g (firstStart i g).
Proof. unfold firstStart, emit. quiet_tac. Qed.

Lemma exitMenu_quiet g : quietStep g (exitMenu i g).
Proof. unfold exitMenu. quiet_tac. Qed.

Lemma focusCheck_quiet g : quietStep g (focusCheck i g).
Proof. unfold focusCheck. quiet_tac. Qed.

Lemma pauseToggle_quiet g : quietStep g (pauseToggle G i g).
Proof. unfold pauseToggle. quiet_tac. Qed.

Lemma mobileTap_quiet g : quietStep g (snd (mobileTap G i g)).
Proof. unfold mobileTap. quiet_tac. Qed.

Lemma UpdateUI_quiet g : quietStep g (snd (UpdateUI G i g)).
Proof.
  destruct (UpdateUI_steps G i g) as [(_ & g' & E & U)|(g0 & H0 & U)]; rewrite U.
  - simpl. eapply exitRequest_quiet, E.
  - assert (Q0 : quietStep g g0).
    { destruct H0 as [-> | ->]; [apply quietStep_refl|apply fullscreenToggle_quiet]. }
    apply (quietStep_trans _ _ _ Q0).
    apply (quietStep_trans _ _ _ (firstStart_quiet g0)).
    apply (quietStep_trans _ _ _ (exitMenu_quiet _)).
    apply (quietStep_trans _ _ _ (focusCheck_quiet _)).
    apply (quietStep_trans _ _ _ (pauseToggle_quiet _)).
    apply mobileTap_quiet.
Qed.

Lemma scrollBackground_quiet g : quietStep g (scrollBackground dt g).
Proof. unfold scrollBackground. quiet_tac. Qed.

Lemma HandleInput_quiet g : quietStep g (HandleInput G i g).
Proof.
  unfold HandleInput. cbv zeta.
  match goal with
  | |- context [musicPlaying ?t] =>
      assert (Q1 : quietStep g t) by (unfold emit; quiet_tac);
      apply (quietStep_trans _ _ _ Q1); generalize t; intros g1
  end.
  unfold emit. quiet_tac.
Qed.

Lemma UpdatePipeSpeed_quiet g : quietStep g (UpdatePipeSpeed G dt g).
Proof. unfold UpdatePipeSpeed. quiet_tac. Qed.

Lemma physics_quiet g : quietStep g (physics dt g).
Proof. apply quietStep_trace. reflexivity. Qed.

Lemma spawn_quiet g : quietStep g (spawn G i dt g).
Proof. unfold spawn. quiet_tac. Qed.

Lemma removeOffscreen_quiet g : quietStep g (removeOffscreen g).
Proof. apply quietStep_trace. reflexivity. Qed.

Lemma eyesTimer_quiet g : quietStep g (eyesTimer dt g).
Proof. unfold eyesTimer. quiet_tac. Qed.

Lemma Reset_quiet g : quietStep g (Reset G i g).
Proof.
  open_game g. destruct _musicManuallyDisabled.
  - apply quietStep_trace. reflexivity.
  - eexists. split; reflexivity.
Qed.

Lemma gameOverRestart_quiet g : quietStep g (gameOverRestart G i dt g).
Proof.
  unfold gameOverRestart. cbv zeta.
  match goal with
  | |- context [F32.leb (gameOverDelayTimer ?t) _] =>
      assert (Q1 : quietStep g t) by quiet_tac;
      apply (quietStep_trans _ _ _ Q1); generalize t; intros g1
  end.
  break_ifs; first [apply Reset_quiet | apply quietStep_refl].
Qed.
End Quiet.

Lemma tally_trans g1 g2 g3 : tally g1 g2 -> tally g2 g3 -> tally g1 g3.
Proof.
  unfold tally. intros [H1 K1] [H2 K2].
  destruct (gameOver g1), (gameOver g2), (gameOver g3);
    simpl in *; split; try lia; auto; try (discriminate (K1 eq_refl));
    try (discriminate (K2 eq_refl)).
Qed.

Lemma tally_quiet g g' :
  quietStep g g' -> gameOver g' = gameOver g -> tally g g'.
Proof.
  intros Q E. unfold tally. rewrite (quietStep_hits g g' Q), E.
  destruct (gameOver g); simpl; split; auto; lia.
Qed.

Section Loud.
Variable G : Globals.
Variable i : Input.
Variable dt : float.

Lemma LoadHighScore_highScore file g :
  highScore (LoadHighScore G file g)
  = if EMSCRIPTEN G then 0
    else match file with Some v => Int32.saturate v | None => 0 end.
Proof. unfold LoadHighScore. destruct (EMSCRIPTEN G); [|destruct file]; reflexivity. Qed.

Lemma saturate_in_range z : Int32.in_range z -> Int32.saturate z = z.
Proof. unfold Int32.in_range, Int32.saturate. lia. Qed.

Lemma saturate_range z : Int32.in_range (Int32.saturate z).
Proof.
  unfold Int32.in_range, Int32.saturate, Int32.INT_MIN, Int32.INT_MAX. lia.
Qed.

Lemma wrap_range z : Int32.in_range (Int32.wrap z).
Proof.
  unfold Int32.in_range, Int32.wrap, Int32.INT_MIN, Int32.INT_MAX.
  pose proof (Z.mod_pos_bound (z + 2 ^ 31) (2 ^ 32) ltac:(lia)). lia.
Qed.

Lemma quiet_nowrite es :
  quiet es = true -> forallb (fun e => negb (isWrite e)) es = true.
Proof.
  unfold quiet. induction es as [|e es IH]; [reflexivity|].
  simpl. intros H. apply andb_true_iff in H. destruct H as [H1 H2].
  apply andb_true_iff in H1. destruct H1 as [H1 _].
  apply andb_true_iff in H1. destruct H1 as [_ H1].
  rewrite H1. apply IH, H2.
Qed.

(** A step that writes no file and keeps the high score keeps the high
    score on the file. *)
Lemma persisted_step file g g' es :
  trace g' = trace g ++ es -> forallb (fun e => negb (isWrite e)) es = true ->
  highScore g' = highScore g -> Int32.in_range (score g') ->
  persisted G file g -> persisted G file g'.
Proof.
  unfold persisted. rewrite !LoadHighScore_highScore.
  intros T W E R (_ & R2 & P). split; [exact R|]. rewrite E.
  split; [exact R2|]. rewrite T, diskAfter_app.
  assert (D : forall f, diskAfter f es = f).
  { clear T. induction es as [|e es' IH]; intros f; [reflexivity|].
    simpl in W. apply andb_true_iff in W. destruct W as [W1 W2].
    unfold diskAfter in *. simpl.
    destruct e; try (apply IH, W2). discriminate W1. }
  rewrite D. exact P.
Qed.

Lemma persisted_quiet file g g' :
  quietStep g g' -> scores g' = scores g ->
  persisted G file g -> persisted G file g'.
Proof.
  intros (es & T & Q) S P. unfold scores in S.
  apply (persisted_step file g g' es T (quiet_nowrite es Q)); [congruence| |exact P].
  destruct P as (R & _). replace (score g') with (score g) by congruence. exact R.
Qed.

Lemma SaveHighScore_trace g :
  trace (SaveHighScore G g)
  = trace g ++ (if saves G then [WriteHighScoreFile (highScore g)] else []).
Proof.
  unfold SaveHighScore, saves.
  destruct (EMSCRIPTEN G), (ofstream_is_open G); simpl;
    try (symmetry; apply app_nil_r); reflexivity.
Qed.

Lemma SaveHighScore_persisted file g :
  saves G = true -> Int32.in_range (score g) -> Int32.in_range (highScore g) ->
  persisted G file (SaveHighScore G g).
Proof.
  intros E R1 R2. unfold persisted.
  assert (S : scores (SaveHighScore G g) = scores g)
    by apply SaveHighScore_scores.
  unfold scores in S.
  replace (score (SaveHighScore G g)) with (score g) by congruence.
  replace (highScore (SaveHighScore G g)) with (highScore g) by congruence.
  split; [exact R1|]. split; [exact R2|].
  rewrite LoadHighScore_highScore, SaveHighScore_trace, E, diskAfter_app.
  unfold saves in E. destruct (EMSCRIPTEN G); [discriminate|].
  simpl. apply saturate_in_range, R2.
Qed.

Lemma SaveHighScore_hits g : hits (trace (SaveHighScore G g)) = hits (trace g).
Proof.
  rewrite SaveHighScore_trace, hits_app. destruct (saves G); unfold hits; simpl; lia.
Qed.

Lemma SaveHighScore_gameOver g : gameOver (SaveHighScore G g) = gameOver g.
Proof.
  unfold SaveHighScore. destruct (EMSCRIPTEN G), (ofstream_is_open G);
    reflexivity.
Qed.

Lemma onCollision_gameOver g : gameOver (onCollision G g) = true.
Proof.
  unfold onCollision. cbv zeta.
  destruct (_ >? _); [rewrite SaveHighScore_gameOver|]; reflexivity.
Qed.

Lemma onCollision_hits g :
  hits (trace (onCollision G g)) = S (hits (trace g)).
Proof.
  unfold onCollision. cbv zeta.
  destruct (_ >? _); [rewrite SaveHighScore_hits|];
    unfold emit;
    change (hits (trace g ++ [StopMusicStream; StopSound flySound;
                              StopSound scoreSound; PlaySound hitSound])
            = S (hits (trace g)));
    rewrite hits_app; unfold hits; simpl; lia.
Qed.

Lemma onCollision_persisted file g :
  saves G = true -> persisted G file g ->
  persisted G file (onCollision G g).
Proof.
  intros E P. pose proof P as (R1 & R2 & _). unfold onCollision. cbv zeta.
  destruct (_ >? _); [apply SaveHighScore_persisted; assumption|].
  revert P.
  apply (persisted_step file g _ [StopMusicStream; StopSound flySound;
                                  StopSound scoreSound; PlaySound hitSound]);
    try reflexivity.
  exact R1.
Qed.

Lemma onCollision_tally g : gameOver g = false -> tally g (onCollision G g).
Proof.
  intros H. unfold tally.
  rewrite onCollision_hits, onCollision_gameOver, H. simpl. split; [lia|auto].
Qed.

Lemma collidePipe_tally bw bh g pipe : tally g (collidePipe G bw bh g pipe).
Proof.
  unfold collidePipe. destruct (gameOver g) eqn:E; simpl.
  - apply tally_quiet; [apply quietStep_refl|reflexivity].
  - destruct (checkObstacleCollision _ _ _ _).
    + apply onCollision_tally, E.
    + apply tally_quiet; [apply quietStep_refl|reflexivity].
Qed.

Lemma collidePipe_persisted file bw bh g pipe :
  saves G = true -> persisted G file g ->
  persisted G file (collidePipe G bw bh g pipe).
Proof.
  intros E P. unfold collidePipe.
  break_ifs; auto using onCollision_persisted.
Qed.

Lemma scorePipe_tally g pipe : tally g (fst (scorePipe G g pipe)).
Proof.
  unfold scorePipe. destruct (_ && _); [|apply tally_quiet; [apply quietStep_refl|reflexivity]].
  cbv zeta. unfold tally.
  destruct (_ >? _); simpl fst;
    [rewrite SaveHighScore_hits, SaveHighScore_gameOver|];
    unfold emit;
    change (hits (trace g ++ [PlaySound scoreSound])
            = (hits (trace g) + (if negb (gameOver g) && gameOver g then 1 else 0))%nat
            /\ (gameOver g = true -> gameOver g = true));
    rewrite hits_app; destruct (gameOver g); unfold hits; simpl; split; auto; lia.
Qed.

Lemma scorePipe_persisted file g pipe :
  saves G = true -> persisted G file g ->
  persisted G file (fst (scorePipe G g pipe)).
Proof.
  intros E P. unfold scorePipe. destruct (_ && _); [|exact P].
  cbv zeta. destruct (_ >? _); simpl fst.
  - apply SaveHighScore_persisted; [exact E|apply wrap_range..].
  - revert P.
    apply (persisted_step file g _ [PlaySound scoreSound]); try reflexivity.
    apply wrap_range.
Qed.

Lemma pipeLoop_tally bw bh ps :
  forall g, tally g (fst (pipeLoop G dt bw bh g ps)).
Proof.
  induction ps as [|pipe ps IH]; intros g.
  - apply tally_quiet; [apply quietStep_refl|reflexivity].
  - simpl. pose proof (pipeBody_fst G dt bw bh g pipe) as B.
    destruct (pipeBody G dt bw bh g pipe) as [g1 p1]. simpl in B.
    specialize (IH g1).
    destruct (pipeLoop G dt bw bh g1 ps) as [g2 ps2]. simpl in *.
    apply (tally_trans _ g1); [|exact IH].
    rewrite B. eapply tally_trans; [apply scorePipe_tally|apply collidePipe_tally].
Qed.

Lemma pipeLoop_persisted file bw bh ps :
  saves G = true ->
  forall g, persisted G file g -> persisted G file (fst (pipeLoop G dt bw bh g ps)).
Proof.
  intros E. induction ps as [|pipe ps IH]; intros g P; [exact P|].
  simpl. pose proof (pipeBody_fst G dt bw bh g pipe) as B.
  destruct (pipeBody G dt bw bh g pipe) as [g1 p1]. simpl in B.
  specialize (IH g1).
  destruct (pipeLoop G dt bw bh g1 ps) as [g2 ps2]. simpl in *.
  apply IH. rewrite B.
  apply collidePipe_persisted, scorePipe_persisted; assumption.
Qed.
End Loud.

Section Crash.
Variable G : Globals.
Variable i : Input.
Variable dt : float.

Lemma HandleInput_gameOver g : gameOver (HandleInput G i g) = gameOver g.
Proof. unfold HandleInput, emit. cbv zeta. break_ifs; reflexivity. Qed.

Lemma UpdatePipeSpeed_gameOver g : gameOver (UpdatePipeSpeed G dt g) = gameOver g.
Proof. unfold UpdatePipeSpeed. cbv zeta. break_ifs; reflexivity. Qed.

Lemma physics_gameOver g : gameOver (physics dt g) = gameOver g.
Proof. reflexivity. Qed.

Lemma removeOffscreen_scores' g : highScore (removeOffscreen g) = highScore g.
Proof. reflexivity. Qed.

Lemma spawn_gameOver g : gameOver (spawn G i dt g) = gameOver g.
Proof. unfold spawn. cbv zeta. break_ifs; reflexivity. Qed.

Lemma removeOffscreen_gameOver g : gameOver (removeOffscreen g) = gameOver g.
Proof. reflexivity. Qed.

Lemma eyesTimer_gameOver g : gameOver (eyesTimer dt g) = gameOver g.
Proof. unfold eyesTimer. cbv zeta. break_ifs; reflexivity. Qed.

Lemma scrollBackground_gameOver g : gameOver (scrollBackground dt g) = gameOver g.
Proof. unfold scrollBackground. cbv zeta. break_ifs; reflexivity. Qed.

(** The running frame, from the state on entry of the pipe loop. *)
Lemma simulate_eq g :
  simulate G i dt g
  = eyesTimer dt
      (removeOffscreen
         (movePipes G dt
            (collisionBoxWidth (physics dt (UpdatePipeSpeed G dt (HandleInput G i g))))
            (collisionBoxHeight (physics dt (UpdatePipeSpeed G dt (HandleInput G i g))))
            (beforePipes G i dt g))).
Proof. unfold simulate, beforePipes. cbv zeta. reflexivity. Qed.

Lemma movePipes_trace bw bh g :
  trace (movePipes G dt bw bh g) = trace (fst (pipeLoop G dt bw bh g (pipes g)))
  /\ gameOver (movePipes G dt bw bh g)
     = gameOver (fst (pipeLoop G dt bw bh g (pipes g)))
  /\ highScore (movePipes G dt bw bh g)
     = highScore (fst (pipeLoop G dt bw bh g (pipes g))).
Proof.
  unfold movePipes. destruct (pipeLoop G dt bw bh g (pipes g)). repeat split.
Qed.

Lemma movePipes_tally bw bh g : tally g (movePipes G dt bw bh g).
Proof.
  destruct (movePipes_trace bw bh g) as (T & O & _).
  pose proof (pipeLoop_tally G dt bw bh (pipes g) g) as L.
  unfold tally in *. rewrite T, O. exact L.
Qed.

Lemma movePipes_persisted file bw bh g :
  saves G = true -> persisted G file g ->
  persisted G file (movePipes G dt bw bh g).
Proof.
  intros E P. destruct (movePipes_trace bw bh g) as (T & _ & H).
  pose proof (movePipes_scores G dt bw bh g) as S. unfold scores in S.
  pose proof (pipeLoop_persisted G dt file bw bh (pipes g) E g P) as L.
  unfold persisted in *. rewrite LoadHighScore_highScore in *.
  rewrite T, H.
  replace (score (movePipes G dt bw bh g))
    with (score (fst (pipeLoop G dt bw bh g (pipes g)))) by congruence.
  exact L.
Qed.

Lemma beforePipes_tally g : gameOver g = false -> tally g (beforePipes G i dt g).
Proof.
  intros H. unfold beforePipes. cbv zeta.
  set (g2 := physics dt (UpdatePipeSpeed G dt (HandleInput G i g))).
  assert (O2 : gameOver g2 = gameOver g).
  { subst g2.
    rewrite physics_gameOver, UpdatePipeSpeed_gameOver.
    apply HandleInput_gameOver. }
  assert (T2 : tally g g2).
  { apply tally_quiet; [|exact O2]. subst g2.
    eapply quietStep_trans; [apply HandleInput_quiet|].
    eapply quietStep_trans; [apply UpdatePipeSpeed_quiet|apply physics_quiet]. }
  apply (tally_trans _ _ _ T2). clearbody g2.
  set (g3 := if checkBoundaryCollision g2 (collisionBoxHeight g2)
             then onCollision G g2 else g2).
  assert (T3 : tally g2 g3).
  { subst g3. destruct (checkBoundaryCollision _ _).
    - apply onCollision_tally. congruence.
    - apply tally_quiet; [apply quietStep_refl|reflexivity]. }
  apply (tally_trans _ _ _ T3).
  apply tally_quiet; [apply spawn_quiet|apply spawn_gameOver].
Qed.

Lemma beforePipes_persisted file g :
  saves G = true -> persisted G file g ->
  persisted G file (beforePipes G i dt g).
Proof.
  intros E P. unfold beforePipes. cbv zeta.
  set (g2 := physics dt (UpdatePipeSpeed G dt (HandleInput G i g))).
  assert (P2 : persisted G file g2).
  { revert P. apply persisted_quiet.
    - subst g2. eapply quietStep_trans; [apply HandleInput_quiet|].
      eapply quietStep_trans; [apply UpdatePipeSpeed_quiet|apply physics_quiet].
    - subst g2. pose proof (physics_scores dt (UpdatePipeSpeed G dt (HandleInput G i g))) as S1.
      pose proof (UpdatePipeSpeed_scores G dt (HandleInput G i g)) as S2.
      pose proof (HandleInput_scores G i g) as S3.
      unfold scores in *. congruence. }
  clearbody g2.
  set (g3 := if checkBoundaryCollision g2 (collisionBoxHeight g2)
             then onCollision G g2 else g2).
  assert (P3 : persisted G file g3).
  { subst g3. destruct (checkBoundaryCollision _ _); auto using onCollision_persisted. }
  clearbody g3. revert P3. apply persisted_quiet; [apply spawn_quiet|].
  apply spawn_scores.
Qed.

Lemma simulate_tally g : gameOver g = false -> tally g (simulate G i dt g).
Proof.
  intros H. rewrite simulate_eq.
  apply (tally_trans _ _ _ (beforePipes_tally g H)).
  eapply tally_trans; [apply movePipes_tally|].
  apply tally_quiet.
  - eapply quietStep_trans; [apply removeOffscreen_quiet|apply eyesTimer_quiet].
  - rewrite eyesTimer_gameOver. apply removeOffscreen_gameOver.
Qed.

Lemma simulate_persisted file g :
  saves G = true -> persisted G file g ->
  persisted G file (simulate G i dt g).
Proof.
  intros E P. rewrite simulate_eq.
  assert (Step : forall m, persisted G file m ->
                           persisted G file (eyesTimer dt (removeOffscreen m))).
  { intros m. apply persisted_quiet.
    - eapply quietStep_trans; [apply removeOffscreen_quiet|apply eyesTimer_quiet].
    - rewrite eyesTimer_scores. apply removeOffscreen_scores. }
  apply Step, movePipes_persisted, beforePipes_persisted; assumption.
Qed.

Lemma advance_tally g : tally g (advance G i dt g).
Proof.
  unfold advance. cbv zeta. destruct (running g) eqn:R.
  - assert (O : gameOver g = false).
    { unfold running in R. destruct (gameOver g); [|reflexivity].
      rewrite !andb_false_r in R. discriminate. }
    set (g1 := if musicPlaying (scrollBackground dt g)
               then emit [UpdateMusicStream] (scrollBackground dt g)
               else scrollBackground dt g).
    assert (Q1 : quietStep g g1 /\ gameOver g1 = gameOver g).
    { subst g1. destruct (musicPlaying _); split;
        rewrite ?scrollBackground_gameOver;
        try (unfold emit; apply scrollBackground_gameOver);
        try apply scrollBackground_quiet; try reflexivity.
      eapply quietStep_trans; [apply scrollBackground_quiet|].
      apply quietStep_emit. reflexivity. }
    destruct Q1 as [Q1 O1]. clearbody g1.
    apply (tally_trans _ g1); [apply tally_quiet; assumption|].
    apply simulate_tally. congruence.
  - apply tally_quiet.
    + destruct (musicPlaying g); [apply quietStep_emit; reflexivity|apply quietStep_refl].
    + destruct (musicPlaying g); reflexivity.
Qed.

Lemma advance_persisted file g :
  saves G = true -> persisted G file g ->
  persisted G file (advance G i dt g).
Proof.
  intros E P. unfold advance. cbv zeta.
  set (g0 := if running g then scrollBackground dt g else g).
  assert (P0 : persisted G file g0).
  { subst g0. destruct (running g); [|exact P]. revert P.
    apply persisted_quiet; [apply scrollBackground_quiet|].
    apply scrollBackground_scores. }
  clearbody g0.
  set (g1 := if musicPlaying g0 then emit [UpdateMusicStream] g0 else g0).
  assert (P1 : persisted G file g1).
  { subst g1. destruct (musicPlaying g0); [|exact P0]. revert P0.
    apply persisted_quiet; [apply quietStep_emit|]; reflexivity. }
  clearbody g1.
  destruct (running g); [apply simulate_persisted; assumption|exact P1].
Qed.
End Crash.

Section Music.
Variable G : Globals.
Variable i : Input.
Variable dt : float.

Lemma musicInv_same g g' :
  music g' = music g -> firstTimeGameStart g' = firstTimeGameStart g ->
  musicInv g -> musicInv g'.
Proof.
  unfold music, musicInv. intros M F [H1 H2].
  assert (musicPlaying g' = musicPlaying g) by congruence.
  assert (musicManuallyDisabled g' = musicManuallyDisabled g) by congruence.
  split; intros; [rewrite H; apply H1|rewrite H0; apply H2]; congruence.
Qed.

Lemma exitRequest_musicInv g g' :
  exitRequest i g = Some g' -> musicInv g -> musicInv g'.
Proof.
  unfold exitRequest. destruct (_ || _); [|discriminate].
  intros E. injection E as <-. apply musicInv_same; reflexivity.
Qed.

Lemma fullscreenToggle_musicInv g : musicInv g -> musicInv (fullscreenToggle i g).
Proof.
  apply musicInv_same; unfold fullscreenToggle, emit; break_ifs; reflexivity.
Qed.

Lemma firstStart_musicInv g : musicInv g -> musicInv (firstStart i g).
Proof.
  intros H. unfold firstStart.
  destruct (firstTimeGameStart g) eqn:F; [|exact H].
  destruct H as [H1 H2]. specialize (H2 F).
  assert (K : forall g', musicManuallyDisabled g' = musicManuallyDisabled g ->
                         musicPlaying g' = true ->
                         firstTimeGameStart g' = false -> musicInv g').
  { intros g' D P F'. split; intros; congruence. }
  break_ifs; try (apply K; reflexivity); split; auto.
Qed.

Lemma exitMenu_musicInv g : musicInv g -> musicInv (exitMenu i g).
Proof. apply musicInv_same; unfold exitMenu; break_ifs; reflexivity. Qed.

Lemma focusCheck_musicInv g : musicInv g -> musicInv (focusCheck i g).
Proof. apply musicInv_same; unfold focusCheck; break_ifs; reflexivity. Qed.

Lemma pauseToggle_musicInv g : musicInv g -> musicInv (pauseToggle G i g).
Proof. apply musicInv_same; unfold pauseToggle; break_ifs; reflexivity. Qed.

Lemma mobileTap_musicInv g : musicInv g -> musicInv (snd (mobileTap G i g)).
Proof.
  apply musicInv_same; unfold mobileTap; cbv zeta; break_ifs; reflexivity.
Qed.

Lemma UpdateUI_musicInv g : musicInv g -> musicInv (snd (UpdateUI G i g)).
Proof.
  intros H.
  destruct (UpdateUI_steps G i g) as [(_ & g' & E & U)|(g0 & H0 & U)]; rewrite U.
  - simpl. eapply exitRequest_musicInv; eassumption.
  - assert (I0 : musicInv g0).
    { destruct H0 as [-> | ->]; [exact H|apply fullscreenToggle_musicInv, H]. }
    apply mobileTap_musicInv, pauseToggle_musicInv, focusCheck_musicInv,
      exitMenu_musicInv, firstStart_musicInv, I0.
Qed.

(** The toggle of [HandleInput]: music on becomes off and marked as
    switched off, music off becomes on and unmarked. *)
Lemma HandleInput_music g :
  music (HandleInput G i g)
  = if IsKeyPressed i KEY_M
    then (negb (musicPlaying g), musicPlaying g)
    else music g.
Proof.
  unfold HandleInput. cbv zeta.
  match goal with
  | |- context [musicPlaying ?t] =>
      assert (M : music t = music g) by (unfold emit; break_ifs; reflexivity);
      generalize dependent t; intros g1 M
  end.
  unfold music in *.
  replace (musicPlaying g) with (musicPlaying g1) by congruence.
  replace (musicManuallyDisabled g) with (musicManuallyDisabled g1) by congruence.
  unfold emit. destruct (IsKeyPressed i KEY_M); [|reflexivity].
  destruct (musicPlaying g1); reflexivity.
Qed.

Lemma HandleInput_musicInv g :
  firstTimeGameStart g = false -> musicInv g -> musicInv (HandleInput G i g).
Proof.
  intros F [H1 H2]. pose proof (HandleInput_music g) as M.
  pose proof (HandleInput_uiState G i g) as U.
  assert (F' : firstTimeGameStart (HandleInput G i g) = false)
    by (unfold uiState in U; congruence).
  unfold music in M. split; [|congruence].
  destruct (IsKeyPressed i KEY_M).
  - assert (musicPlaying (HandleInput G i g) = negb (musicPlaying g)) by congruence.
    assert (musicManuallyDisabled (HandleInput G i g) = musicPlaying g) by congruence.
    intros D. rewrite H, <- H0, D. reflexivity.
  - assert (musicPlaying (HandleInput G i g) = musicPlaying g) by congruence.
    assert (musicManuallyDisabled (HandleInput G i g) = musicManuallyDisabled g) by congruence.
    intros D. rewrite H. apply H1. congruence.
Qed.

Lemma simulate_musicInv g :
  firstTimeGameStart g = false -> musicInv g -> musicInv (simulate G i dt g).
Proof.
  intros F H.
  pose proof (simulate_settled G i dt g) as S.
  pose proof (UpdatePipeSpeed_music G dt (HandleInput G i g)) as M.
  pose proof (UpdatePipeSpeed_uiState G dt (HandleInput G i g)) as U.
  apply (musicInv_same (HandleInput G i g)).
  - unfold settled in S. congruence.
  - unfold settled, uiState in *. congruence.
  - apply HandleInput_musicInv; assumption.
Qed.

Lemma scrollBackground_music g : music (scrollBackground dt g) = music g.
Proof. unfold scrollBackground. cbv zeta. break_ifs; reflexivity. Qed.

Lemma advance_musicInv g : musicInv g -> musicInv (advance G i dt g).
Proof.
  intros H. unfold advance. cbv zeta. destruct (running g) eqn:R.
  - assert (F : firstTimeGameStart g = false).
    { unfold running in R. destruct (firstTimeGameStart g); [discriminate|reflexivity]. }
    set (g1 := if musicPlaying (scrollBackground dt g)
               then emit [UpdateMusicStream] (scrollBackground dt g)
               else scrollBackground dt g).
    assert (M1 : music g1 = music g /\ firstTimeGameStart g1 = firstTimeGameStart g).
    { pose proof (scrollBackground_music g) as M.
      pose proof (scrollBackground_uiState dt g) as U.
      assert (E : forall es x, music (emit es x) = music x
                               /\ firstTimeGameStart (emit es x) = firstTimeGameStart x)
        by (intros; split; reflexivity).
      subst g1. destruct (musicPlaying (scrollBackground dt g));
        [destruct (E [UpdateMusicStream] (scrollBackground dt g)) as [E1 E2];
         rewrite E1, E2|];
        (split; [exact M|unfold uiState in U; congruence]). }
    destruct M1 as [M1 F1]. clearbody g1.
    apply simulate_musicInv; [congruence|].
    revert H. apply musicInv_same; assumption.
  - destruct (musicPlaying g); [|exact H]. revert H. apply musicInv_same; reflexivity.
Qed.

Lemma Reset_musicInv g : musicInv g -> musicInv (Reset G i g).
Proof.
  unfold musicInv. open_game g. destruct _musicManuallyDisabled; intros [H1 H2];
    split; intros; try reflexivity; try discriminate; auto.
Qed.

Lemma gameOverRestart_musicInv g :
  musicInv g -> musicInv (gameOverRestart G i dt g).
Proof.
  intros H. unfold gameOverRestart. cbv zeta.
  match goal with
  | |- context [F32.leb (gameOverDelayTimer ?t) _] =>
      assert (I1 : musicInv t)
        by (revert H; apply musicInv_same; break_ifs; reflexivity);
      generalize dependent t; intros g1 I1
  end.
  break_ifs; auto using Reset_musicInv.
Qed.

Lemma Update_musicInv g : musicInv g -> musicInv (Update G i dt g).
Proof.
  intros H. unfold Update. destruct (F32.eqb dt F32.zero); [exact H|]. cbv zeta.
  assert (H0 : musicInv (setScreenScale G i g))
    by (revert H; apply musicInv_same; reflexivity).
  pose proof (UpdateUI_musicInv _ H0) as H1.
  destruct (UpdateUI G i (setScreenScale G i g)) as [skip g1]. simpl in H1.
  destruct skip; [exact H1|]. unfold frame. cbv zeta.
  pose proof (advance_musicInv g1 H1).
  destruct (gameOver _); auto using gameOverRestart_musicInv.
Qed.
End Music.

Lemma play_musicInv G frames :
  forall g, musicInv g -> musicInv (play G frames g).
Proof.
  induction frames as [|[i dt] frames IH]; intros g H; [exact H|].
  simpl. apply IH, Update_musicInv, H.
Qed.

Lemma ctor_musicInv G this i mobile file bg w h :
  musicInv (Game_ctor G this i mobile file bg w h).
Proof.
  unfold musicInv. destruct G as [? ? ? ? ? ? ? ? ? ? ? ? ? em eb fo].
  destruct em, file; split; intros; reflexivity.
Qed.

Section Whole.
Variable G : Globals.
Variable i : Input.
Variable dt : float.

Lemma gameOverRestart_highScore g :
  highScore (gameOverRestart G i dt g) = highScore g.
Proof.
  destruct (gameOverRestart_scores G i dt g) as [E|(g' & E & R)].
  - unfold scores in E. congruence.
  - rewrite R. destruct (Reset_fields G i g') as (_ & _ & _ & _ & _ & _ & H & _).
    unfold scores in E. congruence.
Qed.

Lemma gameOverRestart_persisted file g :
  persisted G file g -> persisted G file (gameOverRestart G i dt g).
Proof.
  intros P. destruct (gameOverRestart_quiet G i dt g) as (es & T & Q).
  apply (persisted_step G file g _ es T (quiet_nowrite es Q));
    [apply gameOverRestart_highScore| |exact P].
  destruct P as (R & _).
  destruct (gameOverRestart_scores G i dt g) as [E|(g' & E & S)].
  - unfold scores in E. replace (score (gameOverRestart G i dt g)) with (score g)
      by congruence. exact R.
  - rewrite S. destruct (Reset_fields G i g') as (Z0 & _). rewrite Z0.
    unfold Int32.in_range, Int32.INT_MIN, Int32.INT_MAX. lia.
Qed.

Lemma Update_persisted file g :
  saves G = true -> persisted G file g ->
  persisted G file (Update G i dt g).
Proof.
  intros E P. unfold Update. destruct (F32.eqb dt F32.zero); [exact P|]. cbv zeta.
  pose proof (UpdateUI_quiet G i (setScreenScale G i g)) as Q.
  pose proof (UpdateUI_kept G i (setScreenScale G i g)) as K.
  rewrite setScreenScale_kept in K.
  destruct (UpdateUI G i (setScreenScale G i g)) as [skip g1]. simpl in Q, K.
  assert (P1 : persisted G file g1).
  { revert P. apply persisted_quiet.
    - eapply quietStep_trans; [apply setScreenScale_quiet|exact Q].
    - apply kept_scores, K. }
  destruct skip; [exact P1|]. unfold frame. cbv zeta.
  pose proof (advance_persisted G i dt file g1 E P1) as P2.
  destruct (gameOver _); [|exact P2].
  apply gameOverRestart_persisted, P2.
Qed.

Lemma Reset_later g : later g (Reset G i g) /\ exitInv (Reset G i g).
Proof.
  destruct (Reset_flags G i g) as (_ & _ & M & _ & F).
  split; [split|].
  - congruence.
  - open_game g. destruct _musicManuallyDisabled; intros H; exact H.
  - unfold exitInv. rewrite M. discriminate.
Qed.

Lemma gameOverRestart_later g :
  later g (gameOverRestart G i dt g)
  /\ (exitInv g -> exitInv (gameOverRestart G i dt g)).
Proof.
  unfold gameOverRestart. cbv zeta.
  match goal with
  | |- context [F32.leb (gameOverDelayTimer ?t) _] =>
      assert (U : uiState t = uiState g) by (break_ifs; reflexivity);
      generalize dependent t; intros g1 U
  end.
  pose proof (later_uiState _ _ U) as L.
  destruct (Reset_later g1) as [LR IR].
  assert (I : exitInv g -> exitInv g1) by (apply exitInv_uiState, U).
  break_ifs; split; auto;
    solve [exact L | exact (later_trans _ _ _ L LR)].
Qed.

Lemma Update_later g :
  later g (Update G i dt g) /\ (exitInv g -> exitInv (Update G i dt g)).
Proof.
  unfold Update. destruct (F32.eqb dt F32.zero); [split; [apply later_refl|auto]|].
  cbv zeta.
  assert (L0 : later g (setScreenScale G i g)
               /\ (exitInv g -> exitInv (setScreenScale G i g)))
    by (split; [split; intros H; exact H|intros H; exact H]).
  destruct L0 as [L0 I0].
  destruct (UpdateUI_later G i (setScreenScale G i g)) as [L1 I1].
  destruct (UpdateUI G i (setScreenScale G i g)) as [skip g1].
  change (later (setScreenScale G i g) g1) in L1.
  change (exitInv (setScreenScale G i g) -> exitInv g1) in I1.
  pose proof (later_trans _ _ _ L0 L1) as L01.
  destruct skip; [split; [exact L01|auto]|].
  unfold frame. cbv zeta.
  pose proof (advance_uiState G i dt g1) as U.
  pose proof (later_uiState _ _ U) as L2.
  assert (I2 : exitInv g1 -> exitInv (advance G i dt g1))
    by (apply exitInv_uiState, U).
  destruct (gameOverRestart_later (advance G i dt g1)) as [L3 I3].
  pose proof (later_trans _ _ _ L01 L2) as L02.
  destruct (gameOver _); split; auto.
  exact (later_trans _ _ _ L02 L3).
Qed.
End Whole.

Lemma play_persisted G file frames :
  saves G = true ->
  forall g, persisted G file g -> persisted G file (play G frames g).
Proof.
  intros E. induction frames as [|[i dt] frames IH]; intros g H; [exact H|].
  simpl. apply IH, Update_persisted; assumption.
Qed.

Lemma play_later G frames :
  forall g, later g (play G frames g)
            /\ (exitInv g -> exitInv (play G frames g)).
Proof.
  induction frames as [|[i dt] frames IH]; intros g; [split; [apply later_refl|auto]|].
  simpl. destruct (Update_later G i dt g) as [L1 I1].
  destruct (IH (Update G i dt g)) as [L2 I2].
  split; [eapply later_trans; eassumption|auto].
Qed.

Lemma ctor_facts G this i mobile file bg w h :
  trace (Game_ctor G this i mobile file bg w h) = trace this
  /\ highScore (Game_ctor G this i mobile file bg w h)
     = (if EMSCRIPTEN G then 0
        else match file with Some v => Int32.saturate v | None => 0 end)
  /\ score (Game_ctor G this i mobile file bg w h) = 0
  /\ isInExitMenu (Game_ctor G this i mobile file bg w h) = false
  /\ firstTimeGameStart (Game_ctor G this i mobile file bg w h) = true
  /\ gameOver (Game_ctor G this i mobile file bg w h) = false.
Proof.
  destruct G as [? ? ? ? ? ? ? ? ? ? ? ? ? em eb fo].
  destruct em, file; repeat split; reflexivity.
Qed.

Section Speed.
Variable G : Globals.
Variable i : Input.
Variable dt : float.

Lemma UpdatePipeSpeed_pipeSpeed g :
  pipeSpeed (UpdatePipeSpeed G dt g)
  = if F32.gtb (F32.add (pipeSpeed g) (F32.mul (pipeSpeedIncrease G) dt))
               (maxSpeed G)
    then maxSpeed G
    else F32.add (pipeSpeed g) (F32.mul (pipeSpeedIncrease G) dt).
Proof.
  unfold UpdatePipeSpeed. cbv zeta.
  change (pipeSpeed (g <| pipeSpeed := F32.add (pipeSpeed g)
                                         (F32.mul (pipeSpeedIncrease G) dt) |>))
    with (F32.add (pipeSpeed g) (F32.mul (pipeSpeedIncrease G) dt)).
  destruct (F32.gtb _ _); reflexivity.
Qed.

Lemma UpdatePipeSpeed_clamped g :
  F32.gtb (pipeSpeed (UpdatePipeSpeed G dt g)) (maxSpeed G) = false.
Proof.
  rewrite UpdatePipeSpeed_pipeSpeed.
  destruct (F32.gtb (F32.add _ _) _) eqn:E; [apply ltb_irrefl|exact E].
Qed.

Lemma simulate_pipeSpeed g :
  pipeSpeed (simulate G i dt g)
  = pipeSpeed (UpdatePipeSpeed G dt (HandleInput G i g)).
Proof.
  pose proof (simulate_settled G i dt g) as S. unfold settled, speeds in S.
  congruence.
Qed.

Lemma simulate_clamped g :
  F32.gtb (pipeSpeed (simulate G i dt g)) (maxSpeed G) = false.
Proof. rewrite simulate_pipeSpeed. apply UpdatePipeSpeed_clamped. Qed.

Lemma advance_speedInv g : speedInv G g -> speedInv G (advance G i dt g).
Proof.
  intros [H1 H2]. pose proof (advance_config G i dt g) as C.
  assert (B : basePipeSpeed (advance G i dt g) = basePipeSpeed g)
    by (unfold config in C; congruence).
  unfold speedInv. rewrite B. split; [|exact H2].
  unfold advance. cbv zeta. destruct (running g); [apply simulate_clamped|].
  destruct (musicPlaying g); exact H1.
Qed.

Lemma gameOverRestart_speedInv g :
  speedInv G g -> speedInv G (gameOverRestart G i dt g).
Proof.
  intros H. unfold gameOverRestart. cbv zeta.
  match goal with
  | |- context [F32.leb (gameOverDelayTimer ?t) _] =>
      assert (I1 : speedInv G t) by (break_ifs; exact H);
      generalize dependent t; intros g1 I1
  end.
  assert (R : speedInv G (Reset G i g1)).
  { destruct I1 as [_ I2]. destruct (Reset_fields G i g1) as (_ & P & _).
    pose proof (Reset_config G i g1) as C. unfold speedInv.
    replace (basePipeSpeed (Reset G i g1)) with (basePipeSpeed g1)
      by (unfold config in C; congruence).
    rewrite P. split; exact I2. }
  break_ifs; assumption.
Qed.

Lemma Update_speedInv g : speedInv G g -> speedInv G (Update G i dt g).
Proof.
  intros H. unfold Update. destruct (F32.eqb dt F32.zero); [exact H|]. cbv zeta.
  pose proof (UpdateUI_kept G i (setScreenScale G i g)) as K.
  rewrite setScreenScale_kept in K.
  destruct (UpdateUI G i (setScreenScale G i g)) as [skip g1]. simpl in K.
  assert (H1 : speedInv G g1).
  { unfold speedInv, kept, sim in *.
    replace (pipeSpeed g1) with (pipeSpeed g) by congruence.
    replace (basePipeSpeed g1) with (basePipeSpeed g) by congruence. exact H. }
  destruct skip; [exact H1|]. unfold frame. cbv zeta.
  pose proof (advance_speedInv g1 H1).
  destruct (gameOver _); auto using gameOverRestart_speedInv.
Qed.
End Speed.

Lemma play_speedInv G frames :
  forall g, speedInv G g -> speedInv G (play G frames g).
Proof.
  induction frames as [|[i dt] frames IH]; intros g H; [exact H|].
  simpl. apply IH, Update_speedInv, H.
Qed.

Section Restart.
Variable G : Globals.
Variable i : Input.
Variable dt : float.

Lemma ltb_leb a b : F32.ltb a b = true -> F32.leb a b = true.
Proof.
  unfold F32.ltb, F32.leb, SFltb, SFleb.
  destruct (SFcompare a b) as [[| |]|]; congruence.
Qed.

(** While the game is over the user-interface step never asks to skip
    the frame. *)
Lemma UpdateUI_gameOver_noskip g :
  gameOver g = true -> fst (UpdateUI G i g) = false.
Proof.
  intros H.
  destruct (UpdateUI_steps G i g) as [(_ & g' & E & U)|(g0 & H0 & U)];
    rewrite U; [reflexivity|].
  assert (M : forall x, gameOver x = true -> fst (mobileTap G i x) = false).
  { intros x O. unfold mobileTap. rewrite O. rewrite !andb_false_r, ?andb_false_l.
    destruct (isMobile x && negb (firstTimeGameStart x)); reflexivity. }
  apply M.
  pose proof (pauseToggle_kept G i (focusCheck i (exitMenu i (firstStart i g0)))) as K1.
  pose proof (focusCheck_kept i (exitMenu i (firstStart i g0))) as K2.
  pose proof (exitMenu_kept i (firstStart i g0)) as K3.
  pose proof (firstStart_kept i g0) as K4.
  assert (K5 : kept g0 = kept g)
    by (destruct H0 as [-> | ->]; [reflexivity|apply fullscreenToggle_kept]).
  unfold kept in *. congruence.
Qed.

Lemma UpdateUI_timer g :
  gameOverDelayTimer (snd (UpdateUI G i g)) = gameOverDelayTimer g.
Proof.
  destruct (UpdateUI_steps G i g) as [(_ & g' & E & U)|(g0 & H0 & U)]; rewrite U.
  - simpl. unfold exitRequest in E. destruct (_ || _); [|discriminate].
    injection E as <-. reflexivity.
  - assert (T0 : gameOverDelayTimer g0 = gameOverDelayTimer g).
    { destruct H0 as [-> | ->]; [reflexivity|].
      unfold fullscreenToggle, emit. break_ifs; reflexivity. }
    assert (T1 : forall x, gameOverDelayTimer (firstStart i x) = gameOverDelayTimer x)
      by (intros; unfold firstStart, emit; break_ifs; reflexivity).
    assert (T2 : forall x, gameOverDelayTimer (exitMenu i x) = gameOverDelayTimer x)
      by (intros; unfold exitMenu; break_ifs; reflexivity).
    assert (T3 : forall x, gameOverDelayTimer (focusCheck i x) = gameOverDelayTimer x)
      by (intros; unfold focusCheck; break_ifs; reflexivity).
    assert (T4 : forall x, gameOverDelayTimer (pauseToggle G i x) = gameOverDelayTimer x)
      by (intros; unfold pauseToggle; break_ifs; reflexivity).
    assert (T5 : forall x, gameOverDelayTimer (snd (mobileTap G i x)) = gameOverDelayTimer x)
      by (intros; unfold mobileTap; cbv zeta; break_ifs; reflexivity).
    rewrite T5, T4, T3, T2, T1. exact T0.
Qed.

(** The frame of a game that is over, up to the final block. *)
Lemma Update_gameOver g :
  gameOver g = true -> F32.eqb dt F32.zero = false ->
  exists g2, Update G i dt g = gameOverRestart G i dt g2
             /\ kept g2 = kept g
             /\ gameOverDelayTimer g2 = gameOverDelayTimer g.
Proof.
  intros O Z. unfold Update. rewrite Z. cbv zeta.
  pose proof (UpdateUI_kept G i (setScreenScale G i g)) as K.
  rewrite setScreenScale_kept in K.
  pose proof (UpdateUI_timer (setScreenScale G i g)) as T.
  pose proof (UpdateUI_gameOver_noskip (setScreenScale G i g) O) as N.
  destruct (UpdateUI G i (setScreenScale G i g)) as [skip g1].
  simpl in K, T, N. subst skip.
  assert (O1 : gameOver g1 = true) by (unfold kept in K; congruence).
  assert (R : running g1 = false)
    by (unfold running; rewrite O1, !andb_false_r; reflexivity).
  unfold frame, advance. rewrite R. cbv zeta.
  exists (if musicPlaying g1 then emit [UpdateMusicStream] g1 else g1).
  assert (E : forall es x, kept (emit es x) = kept x
                           /\ gameOverDelayTimer (emit es x) = gameOverDelayTimer x
                           /\ gameOver (emit es x) = gameOver x)
    by (intros; repeat split).
  destruct (musicPlaying g1).
  - destruct (E [UpdateMusicStream] g1) as (E1 & E2 & E3).
    rewrite E3, O1, E1, E2. repeat split; assumption.
  - rewrite O1. repeat split; assumption.
Qed.

Lemma gameOverRestart_waits g :
  F32.gtb (gameOverDelayTimer g) F32.zero = true ->
  F32.leb (F32.sub (gameOverDelayTimer g) dt) F32.zero = false ->
  gameOverRestart G i dt g
  = g <| gameOverDelayTimer := F32.sub (gameOverDelayTimer g) dt |>.
Proof.
  intros P N. unfold gameOverRestart. rewrite P. cbv zeta.
  change (gameOverDelayTimer (g <| gameOverDelayTimer :=
                                     F32.sub (gameOverDelayTimer g) dt |>))
    with (F32.sub (gameOverDelayTimer g) dt).
  destruct (F32.ltb (F32.sub (gameOverDelayTimer g) dt) F32.zero) eqn:L.
  - apply ltb_leb in L. congruence.
  - change (gameOverDelayTimer (g <| gameOverDelayTimer :=
                                       F32.sub (gameOverDelayTimer g) dt |>))
      with (F32.sub (gameOverDelayTimer g) dt).
    rewrite N. reflexivity.
Qed.

Lemma gameOverRestart_restarts g :
  F32.gtb (gameOverDelayTimer g) F32.zero = false ->
  F32.leb (gameOverDelayTimer g) F32.zero = true ->
  restartPressed i g = true ->
  gameOverRestart G i dt g = Reset G i g.
Proof.
  intros P N R. unfold gameOverRestart. rewrite P. cbv zeta. rewrite N.
  unfold restartPressed in R. destruct (isMobile g); rewrite R; reflexivity.
Qed.
End Restart.

Section Pipes.
Variable G : Globals.
Variable i : Input.
Variable dt : float.

Lemma loopView_settled g g' :
  settled g' = settled g -> config g' = config g -> loopView g' = loopView g.
Proof. unfold settled, speeds, config, loopView. intros S C. congruence. Qed.

Lemma stepPipe_view g g' pipe :
  loopView g' = loopView g -> stepPipe dt g' pipe = stepPipe dt g pipe.
Proof.
  unfold loopView, stepPipe. intros V.
  replace (pipeSpeed g') with (pipeSpeed g) by congruence.
  replace (playerX g') with (playerX g) by congruence.
  replace (pipeWidth g') with (pipeWidth g) by congruence. reflexivity.
Qed.

Lemma pipeBody_snd bw bh g pipe :
  snd (pipeBody G dt bw bh g pipe) = stepPipe dt g pipe.
Proof.
  unfold pipeBody. cbv zeta.
  assert (S : snd (scorePipe G g (movePipe dt g pipe)) = stepPipe dt g pipe).
  { unfold scorePipe, stepPipe, movePipe. cbv zeta. destruct pipe as [x c s].
    cbn [Pipe.x Pipe.gapCenter Pipe.scored].
    destruct (F32.gtb (playerX g) _); destruct s; reflexivity. }
  destruct (scorePipe G g (movePipe dt g pipe)). exact S.
Qed.

Lemma pipeBody_view bw bh g pipe :
  loopView (fst (pipeBody G dt bw bh g pipe)) = loopView g.
Proof.
  apply loopView_settled; [apply pipeBody_settled|apply pipeBody_config].
Qed.

Lemma pipeLoop_snd bw bh ps :
  forall g, snd (pipeLoop G dt bw bh g ps) = map (stepPipe dt g) ps.
Proof.
  induction ps as [|pipe ps IH]; intros g; [reflexivity|].
  simpl. pose proof (pipeBody_snd bw bh g pipe) as B.
  pose proof (pipeBody_view bw bh g pipe) as V.
  destruct (pipeBody G dt bw bh g pipe) as [g1 p1]. simpl in B, V.
  specialize (IH g1).
  destruct (pipeLoop G dt bw bh g1 ps) as [g2 ps2]. simpl in *.
  rewrite B, IH. f_equal. apply map_ext. intros p. apply stepPipe_view, V.
Qed.

Lemma movePipes_pipes bw bh g :
  pipes (movePipes G dt bw bh g) = map (stepPipe dt g) (pipes g).
Proof.
  unfold movePipes. pose proof (pipeLoop_snd bw bh (pipes g) g) as L.
  destruct (pipeLoop G dt bw bh g (pipes g)) as [g' ps]. exact L.
Qed.

Lemma eyesTimer_pipes g : pipes (eyesTimer dt g) = pipes g.
Proof. unfold eyesTimer. cbv zeta. break_ifs; reflexivity. Qed.

Lemma removeOffscreen_pipes g :
  pipes (removeOffscreen g)
  = filter (fun pipe => negb (F32.ltb (Pipe.x pipe) (F32.neg (pipeWidth g))))
           (pipes g).
Proof. reflexivity. Qed.

Lemma beforePipes_view g :
  loopView (beforePipes G i dt g)
  = loopView (UpdatePipeSpeed G dt g).
Proof.
  unfold beforePipes. cbv zeta.
  assert (V : forall x, loopView (spawn G i dt x) = loopView x)
    by (intros; unfold spawn; cbv zeta; break_ifs; reflexivity).
  assert (O : forall x, loopView (onCollision G x) = loopView x)
    by (intros; unfold onCollision, SaveHighScore, emit; cbv zeta;
        break_ifs; reflexivity).
  assert (P : forall x, loopView (physics dt x) = loopView x) by reflexivity.
  assert (U : forall x y, loopView x = loopView y ->
                          loopView (UpdatePipeSpeed G dt x)
                          = loopView (UpdatePipeSpeed G dt y)).
  { intros x y E. unfold loopView in *.
    rewrite !UpdatePipeSpeed_pipeSpeed.
    assert (C : forall z, playerX (UpdatePipeSpeed G dt z) = playerX z
                          /\ pipeWidth (UpdatePipeSpeed G dt z) = pipeWidth z).
    { intros z. unfold UpdatePipeSpeed. cbv zeta. break_ifs; split; reflexivity. }
    destruct (C x) as [-> ->]. destruct (C y) as [-> ->].
    replace (pipeSpeed x) with (pipeSpeed y) by congruence.
    replace (playerX x) with (playerX y) by congruence.
    replace (pipeWidth x) with (pipeWidth y) by congruence. reflexivity. }
  assert (H : loopView (HandleInput G i g) = loopView g)
    by (unfold HandleInput, emit; cbv zeta; break_ifs; reflexivity).
  rewrite V.
  match goal with |- context [if ?c then _ else _] => destruct c end;
    rewrite ?O, P; apply U, H.
Qed.

(** The pipes after a running frame: the pipes on entry of the loop, each
    stepped, without those that left the screen. *)
Lemma simulate_pipes g :
  pipes (simulate G i dt g)
  = filter (fun pipe => negb (F32.ltb (Pipe.x pipe) (F32.neg (pipeWidth g))))
      (map (stepPipe dt (UpdatePipeSpeed G dt g))
           (pipes (beforePipes G i dt g))).
Proof.
  rewrite simulate_eq, eyesTimer_pipes, removeOffscreen_pipes, movePipes_pipes.
  match goal with
  | |- filter (fun p => negb (F32.ltb _ (F32.neg (pipeWidth ?m)))) _ = _ =>
      assert (W : pipeWidth m = pipeWidth g)
  end.
  { match goal with |- pipeWidth (movePipes G dt ?bw ?bh ?b) = _ =>
      pose proof (movePipes_config G dt bw bh b) as C1 end.
    pose proof (beforePipes_config G i dt g) as C2.
    unfold config in *. congruence. }
  rewrite W. f_equal. apply map_ext. intros p.
  apply stepPipe_view, beforePipes_view.
Qed.
End Pipes.

Lemma GetRandomValue_range rnd a b :
  0 <= rnd -> Z.min a b <= GetRandomValue rnd a b <= Z.max a b.
Proof.
  intros R. unfold GetRandomValue.
  destruct (Z.gtb_spec a b) as [H|H];
    match goal with
    | |- context [Z.rem rnd ?d] =>
        pose proof (Z.rem_bound_pos rnd d R ltac:(lia))
    end; lia.
Qed.

Lemma to_int_in_range a : Int32.in_range (F32.to_int a).
Proof.
  unfold F32.to_int, Int32.in_range.
  assert (M : Int32.INT_MIN <= Int32.INT_MIN <= Int32.INT_MAX)
    by (unfold Int32.INT_MIN, Int32.INT_MAX; lia).
  destruct a as [s|s| |s m e]; try exact M.
  - unfold Int32.INT_MIN, Int32.INT_MAX; lia.
  - cbv zeta.
    match goal with |- context [if ?c then _ else _] => destruct c eqn:C end;
      [|exact M].
    apply andb_true_iff in C. destruct C as [C1 C2].
    apply Z.leb_le in C1. apply Z.leb_le in C2. split; assumption.
Qed.

Lemma back_app l p : back (l ++ [p]) = Some p.
Proof.
  induction l as [|q l IH]; [reflexivity|].
  simpl. destruct (l ++ [p]) eqn:E; [destruct l; discriminate|]. exact IH.
Qed.

Lemma back_nil l : back l = None -> l = [].
Proof.
  induction l as [|q l IH]; [reflexivity|].
  simpl. destruct l; [discriminate|]. intros H. specialize (IH H). discriminate.
Qed.

Section Spawn.
Variable G : Globals.
Variable i : Input.
Variable dt : float.

Lemma targetGapCenter_first g :
  pipes g = [] -> targetGapCenter G i g = F32.of_int (Z.quot (height g) 2).
Proof. intros E. unfold targetGapCenter. rewrite E. reflexivity. Qed.

Lemma targetGapCenter_next g prev :
  back (pipes g) = Some prev -> 0 <= rand i ->
  exists v,
    targetGapCenter G i g = F32.of_int v
    /\ Z.min (F32.to_int (minGapCenter G g prev))
             (F32.to_int (maxGapCenter G g prev)) <= v
    /\ v <= Z.max (F32.to_int (minGapCenter G g prev))
                  (F32.to_int (maxGapCenter G g prev))
    /\ Int32.in_range v.
Proof.
  intros B R. unfold targetGapCenter. rewrite B. cbv zeta.
  fold (minGapCenter G g prev). fold (maxGapCenter G g prev).
  eexists. split; [reflexivity|].
  pose proof (GetRandomValue_range (rand i)
                (F32.to_int (minGapCenter G g prev))
                (F32.to_int (maxGapCenter G g prev)) R) as H.
  pose proof (to_int_in_range (minGapCenter G g prev)) as I1.
  pose proof (to_int_in_range (maxGapCenter G g prev)) as I2.
  unfold Int32.in_range in *. lia.
Qed.

(** The two outcomes of [spawn]. *)
Lemma spawn_cases g :
  (F32.geb (F32.add (pipeSpawnTimer g) dt) (pipeSpawnInterval g) = true
   /\ pipeSpawnTimer (spawn G i dt g) = F32.zero
   /\ pipes (spawn G i dt g)
      = pipes g ++ [ {| Pipe.x := F32.of_int (width g);
                        Pipe.gapCenter := targetGapCenter G i g;
                        Pipe.scored := false |} ])
  \/ (F32.geb (F32.add (pipeSpawnTimer g) dt) (pipeSpawnInterval g) = false
      /\ pipeSpawnTimer (spawn G i dt g) = F32.add (pipeSpawnTimer g) dt
      /\ pipes (spawn G i dt g) = pipes g).
Proof.
  unfold spawn. cbv zeta.
  change (pipeSpawnTimer (g <| pipeSpawnTimer := F32.add (pipeSpawnTimer g) dt |>))
    with (F32.add (pipeSpawnTimer g) dt).
  change (pipeSpawnInterval (g <| pipeSpawnTimer := F32.add (pipeSpawnTimer g) dt |>))
    with (pipeSpawnInterval g).
  destruct (F32.geb _ _); [left|right]; repeat split; reflexivity.
Qed.
End Spawn.

Section Body.
Variable G : Globals.
Variable i : Input.
Variable dt : float.

Lemma onCollision_body g : body (onCollision G g) = body g.
Proof.
  unfold onCollision, SaveHighScore, emit. cbv zeta. break_ifs; reflexivity.
Qed.

Lemma spawn_body g : body (spawn G i dt g) = body g.
Proof. unfold spawn. cbv zeta. break_ifs; reflexivity. Qed.

Lemma eyesTimer_body g : body (eyesTimer dt g) = body g.
Proof. unfold eyesTimer. cbv zeta. break_ifs; reflexivity. Qed.

Lemma removeOffscreen_body g : body (removeOffscreen g) = body g.
Proof. reflexivity. Qed.

Lemma pipeBody_body bw bh g pipe :
  body (fst (pipeBody G dt bw bh g pipe)) = body g.
Proof.
  rewrite pipeBody_fst.
  assert (S : body (fst (scorePipe G g (movePipe dt g pipe))) = body g).
  { unfold scorePipe, SaveHighScore, emit. cbv zeta. break_ifs; reflexivity. }
  rewrite <- S. unfold collidePipe.
  break_ifs; rewrite ?onCollision_body; reflexivity.
Qed.

Lemma pipeLoop_body bw bh ps :
  forall g, body (fst (pipeLoop G dt bw bh g ps)) = body g.
Proof.
  induction ps as [|pipe ps IH]; intros g; [reflexivity|].
  simpl. pose proof (pipeBody_body bw bh g pipe) as B.
  destruct (pipeBody G dt bw bh g pipe) as [g1 p1]. simpl in B.
  specialize (IH g1).
  destruct (pipeLoop G dt bw bh g1 ps) as [g2 ps2]. simpl in *. congruence.
Qed.

Lemma movePipes_body bw bh g : body (movePipes G dt bw bh g) = body g.
Proof.
  unfold movePipes. pose proof (pipeLoop_body bw bh (pipes g) g) as L.
  destruct (pipeLoop G dt bw bh g (pipes g)) as [g' ps]. exact L.
Qed.

Lemma simulate_body g :
  body (simulate G i dt g)
  = body (physics dt (UpdatePipeSpeed G dt (HandleInput G i g))).
Proof.
  unfold simulate. cbv zeta.
  rewrite eyesTimer_body, removeOffscreen_body, movePipes_body, spawn_body.
  match goal with |- context [if ?c then _ else _] => destruct c end;
    rewrite ?onCollision_body; reflexivity.
Qed.

Lemma physics_body g :
  body (physics dt g)
  = (F32.add (playerY g)
             (F32.mul (F32.add (playerVelocity g) (F32.mul (gravity g) dt)) dt),
     F32.add (playerVelocity g) (F32.mul (gravity g) dt)).
Proof. reflexivity. Qed.

Lemma UpdatePipeSpeed_body g :
  body (UpdatePipeSpeed G dt g) = body g
  /\ gravity (UpdatePipeSpeed G dt g) = gravity g.
Proof. unfold UpdatePipeSpeed. cbv zeta. break_ifs; split; reflexivity. Qed.

(** The flap of [HandleInput], in a running game. *)
Lemma HandleInput_body g :
  running g = true ->
  body (HandleInput G i g)
  = (playerY g, if flapPressed i g then jumpForce g else playerVelocity g)
  /\ gravity (HandleInput G i g) = gravity g.
Proof.
  intros R. unfold running in R.
  destruct (firstTimeGameStart g) eqn:F; [discriminate|].
  destruct (paused g) eqn:P; [discriminate|].
  destruct (lostWindowFocus g) eqn:L; [discriminate|].
  destruct (isInExitMenu g) eqn:E; [discriminate|].
  destruct (gameOver g) eqn:O; [discriminate|].
  unfold HandleInput, flapPressed. rewrite F, P, L, E, O. cbv zeta.
  cbn [negb andb].
  destruct (IsKeyPressed i KEY_SPACE || IsKeyPressed i KEY_UP
            || IsKeyPressed i KEY_W || isMobile g && IsGestureDetected_TAP i);
    unfold emit; break_ifs; split; reflexivity.
Qed.

Lemma scrollBackground_body g :
  body (scrollBackground dt g) = body g
  /\ gravity (scrollBackground dt g) = gravity g
  /\ jumpForce (scrollBackground dt g) = jumpForce g
  /\ isMobile (scrollBackground dt g) = isMobile g
  /\ running (scrollBackground dt g) = running g.
Proof. unfold scrollBackground. cbv zeta. break_ifs; repeat split; reflexivity. Qed.
End Body.

Section DrawUIFacts.
Import String Ascii.
Variable G : Globals.
Variable MeasureText : string -> Z -> Z.
Variable yellow : Color.

Lemma boxes_app a b : boxes (a ++ b) = (boxes a + boxes b)%nat.
Proof. unfold boxes. rewrite filter_app, length_app. reflexivity. Qed.

Lemma boxes_hud g : boxes (hud G MeasureText g) = 0%nat.
Proof.
  unfold hud. cbv zeta. rewrite !boxes_app.
  destruct (isMobile g); reflexivity.
Qed.

Lemma boxes_overlay g :
  boxes (overlay G MeasureText yellow g)
  = if exitWindowRequested g || firstTimeGameStart g || paused g
       || lostWindowFocus g || gameOver g
    then 1%nat else 0%nat.
Proof.
  unfold overlay. cbv zeta.
  destruct (exitWindowRequested g); [reflexivity|].
  destruct (firstTimeGameStart g).
  { unfold welcome. cbv zeta. rewrite boxes_app.
    destruct (isMobile g), (EMSCRIPTEN_BUILD G); reflexivity. }
  destruct (paused g).
  { destruct (EMSCRIPTEN_BUILD G), (isMobile g); reflexivity. }
  destruct (lostWindowFocus g); [reflexivity|].
  destruct (gameOver g); [|reflexivity].
  unfold gameOverOverlay. cbv zeta. destruct (isMobile g); reflexivity.
Qed.
End DrawUIFacts.

Section DrawUIOverlay.
Import String Ascii.
Variable G : Globals.
Variable MeasureText : string -> Z -> Z.
Variable yellow : Color.

Lemma boxes_DrawUI g :
  boxes (DrawUI G MeasureText yellow g)
  = if exitWindowRequested g || firstTimeGameStart g || paused g
       || lostWindowFocus g || gameOver g
    then 1%nat else 0%nat.
Proof.
  unfold DrawUI. rewrite boxes_app, boxes_hud, boxes_overlay. reflexivity.
Qed.

End DrawUIOverlay.

Section Running.
Variable G : Globals.
Variable i : Input.
Variable dt : float.

(** A running frame is the simulation of the game with its background
    scrolled and the music stream fed. *)
Lemma advance_running g :
  running g = true ->
  exists g1, advance G i dt g = simulate G i dt g1 /\ scene g1 = scene g
             /\ running g1 = true.
Proof.
  intros R. unfold advance. rewrite R. cbv zeta.
  eexists. split; [reflexivity|].
  assert (S : scene (scrollBackground dt g) = scene g
              /\ running (scrollBackground dt g) = true).
  { rewrite <- R. unfold scrollBackground. cbv zeta. break_ifs; split; reflexivity. }
  destruct S as [S R1].
  destruct (musicPlaying (scrollBackground dt g)); split; try exact S; exact R1.
Qed.

Lemma scene_eq {A} (f : Game -> A) g1 g :
  (forall x, f (scene x) = f x) -> scene g1 = scene g -> f g1 = f g.
Proof. intros H E. rewrite <- (H g1), <- (H g), E. reflexivity. Qed.

Lemma loopView_UpdatePipeSpeed x y :
  loopView x = loopView y ->
  loopView (UpdatePipeSpeed G dt x) = loopView (UpdatePipeSpeed G dt y).
Proof.
  intros E. unfold loopView in *.
  rewrite !UpdatePipeSpeed_pipeSpeed.
  assert (C : forall z, playerX (UpdatePipeSpeed G dt z) = playerX z
                        /\ pipeWidth (UpdatePipeSpeed G dt z) = pipeWidth z).
  { intros z. unfold UpdatePipeSpeed. cbv zeta. break_ifs; split; reflexivity. }
  destruct (C x) as [-> ->]. destruct (C y) as [-> ->].
  replace (pipeSpeed x) with (pipeSpeed y) by congruence.
  replace (playerX x) with (playerX y) by congruence.
  replace (pipeWidth x) with (pipeWidth y) by congruence. reflexivity.
Qed.

Lemma UpdatePipeSpeed_interval g :
  pipeSpawnInterval (UpdatePipeSpeed G dt g)
  = F32.div (initialPipeDistance g) (pipeSpeed (UpdatePipeSpeed G dt g)).
Proof. unfold UpdatePipeSpeed. cbv zeta. break_ifs; reflexivity. Qed.

Lemma UpdatePipeSpeed_spawnView_eq z :
  spawnView (UpdatePipeSpeed G dt z)
  = (pipes z, pipeSpawnTimer z,
     F32.div (initialPipeDistance z) (pipeSpeed (UpdatePipeSpeed G dt z)),
     (width z, height z, pipeGap z)).
Proof. unfold UpdatePipeSpeed. cbv zeta. break_ifs; reflexivity. Qed.

Lemma UpdatePipeSpeed_spawnView x y :
  spawnView x = spawnView y -> pipeSpeed x = pipeSpeed y ->
  initialPipeDistance x = initialPipeDistance y ->
  spawnView (UpdatePipeSpeed G dt x) = spawnView (UpdatePipeSpeed G dt y).
Proof.
  intros E S D. rewrite !UpdatePipeSpeed_spawnView_eq.
  rewrite !UpdatePipeSpeed_pipeSpeed, S, D.
  unfold spawnView in E. congruence.
Qed.

Lemma targetGapCenter_view x y :
  spawnView x = spawnView y -> targetGapCenter G i x = targetGapCenter G i y.
Proof.
  unfold spawnView. intros E. unfold targetGapCenter.
  replace (pipes x) with (pipes y) by congruence.
  replace (height x) with (height y) by congruence.
  replace (pipeGap x) with (pipeGap y) by congruence. reflexivity.
Qed.

Lemma spawn_pipes_eq x :
  pipes (spawn G i dt x)
  = pipes x ++ (if F32.geb (F32.add (pipeSpawnTimer x) dt) (pipeSpawnInterval x)
                then [ {| Pipe.x := F32.of_int (width x);
                          Pipe.gapCenter := targetGapCenter G i x;
                          Pipe.scored := false |} ]
                else []).
Proof.
  destruct (spawn_cases G i dt x) as [(C & _ & P)|(C & _ & P)];
    rewrite C, P; [reflexivity|]. rewrite app_nil_r. reflexivity.
Qed.

Lemma spawn_pipes_view x g :
  spawnView x = spawnView (UpdatePipeSpeed G dt g) ->
  pipes (spawn G i dt x) = pipes g ++ spawned G i dt g.
Proof.
  intros V.
  rewrite spawn_pipes_eq, (targetGapCenter_view x (UpdatePipeSpeed G dt g) V).
  pose proof (UpdatePipeSpeed_spawnView_eq g) as Q.
  assert (T : targetGapCenter G i (UpdatePipeSpeed G dt g) = targetGapCenter G i g).
  { unfold spawnView in Q. unfold targetGapCenter.
    replace (pipes (UpdatePipeSpeed G dt g)) with (pipes g) by congruence.
    replace (height (UpdatePipeSpeed G dt g)) with (height g) by congruence.
    replace (pipeGap (UpdatePipeSpeed G dt g)) with (pipeGap g) by congruence.
    reflexivity. }
  rewrite T. unfold spawned.
  unfold spawnView in V, Q.
  replace (pipes x) with (pipes g) by congruence.
  replace (pipeSpawnTimer x) with (pipeSpawnTimer g) by congruence.
  replace (pipeSpawnInterval x)
    with (pipeSpawnInterval (UpdatePipeSpeed G dt g)) by congruence.
  replace (width x) with (width g) by congruence.
  reflexivity.
Qed.

Lemma beforePipes_pipes g :
  pipes (beforePipes G i dt g) = pipes g ++ spawned G i dt g.
Proof.
  unfold beforePipes. cbv zeta.
  assert (O : forall x, spawnView (onCollision G x) = spawnView x)
    by (intros; unfold onCollision, SaveHighScore, emit; cbv zeta;
        break_ifs; reflexivity).
  assert (P : forall x, spawnView (physics dt x) = spawnView x) by reflexivity.
  assert (H : spawnView (HandleInput G i g) = spawnView g
              /\ pipeSpeed (HandleInput G i g) = pipeSpeed g
              /\ initialPipeDistance (HandleInput G i g) = initialPipeDistance g)
    by (unfold HandleInput, emit; cbv zeta; break_ifs; repeat split; reflexivity).
  destruct H as (H1 & H2 & H3).
  pose proof (UpdatePipeSpeed_spawnView _ _ H1 H2 H3) as U.
  apply spawn_pipes_view.
  break_ifs; rewrite ?O, P; exact U.
Qed.

(** The pipes after the simulation of a frame. *)
Lemma simulate_pipes_of g :
  pipes (simulate G i dt g)
  = filter (onScreen g)
      (map (stepPipe dt (UpdatePipeSpeed G dt g)) (pipes g ++ spawned G i dt g)).
Proof. rewrite simulate_pipes, beforePipes_pipes. reflexivity. Qed.

Lemma scene_spawnView g1 g :
  scene g1 = scene g ->
  spawnView g1 = spawnView g /\ loopView g1 = loopView g
  /\ pipeSpeed g1 = pipeSpeed g
  /\ initialPipeDistance g1 = initialPipeDistance g.
Proof.
  intros E. repeat split.
  - apply (scene_eq spawnView); [reflexivity|exact E].
  - apply (scene_eq loopView); [reflexivity|exact E].
  - apply (scene_eq pipeSpeed); [reflexivity|exact E].
  - apply (scene_eq initialPipeDistance); [reflexivity|exact E].
Qed.

Lemma spawned_view g1 g :
  spawnView g1 = spawnView g -> pipeSpeed g1 = pipeSpeed g ->
  initialPipeDistance g1 = initialPipeDistance g ->
  spawned G i dt g1 = spawned G i dt g.
Proof.
  intros V S D. unfold spawned.
  rewrite (targetGapCenter_view g1 g V).
  pose proof (UpdatePipeSpeed_spawnView _ _ V S D) as U.
  unfold spawnView in V, U.
  replace (pipeSpawnTimer g1) with (pipeSpawnTimer g) by congruence.
  replace (pipeSpawnInterval (UpdatePipeSpeed G dt g1))
    with (pipeSpawnInterval (UpdatePipeSpeed G dt g)) by congruence.
  replace (width g1) with (width g) by congruence.
  reflexivity.
Qed.
End Running.

Lemma existsb_same {A} (f h : A -> bool) l :
  (forall a, f a = h a) -> existsb f l = existsb h l.
Proof. intros E. induction l; simpl; [reflexivity|]. rewrite E, IHl. reflexivity. Qed.
Section Crashes.
Variable G : Globals.
Variable i : Input.
Variable dt : float.

Lemma hitView_of g g' :
  settled g' = settled g -> config g' = config g -> body g' = body g ->
  hitView g' = hitView g.
Proof. unfold settled, config, body, hitView. intros S C B. congruence. Qed.

Lemma checkObstacleCollision_view x y bw bh p :
  hitView x = hitView y ->
  checkObstacleCollision x bw bh p = checkObstacleCollision y bw bh p.
Proof.
  unfold hitView. intros E. unfold checkObstacleCollision.
  replace (playerX x) with (playerX y) by congruence.
  replace (playerY x) with (playerY y) by congruence.
  replace (pipeWidth x) with (pipeWidth y) by congruence.
  replace (pipeGap x) with (pipeGap y) by congruence. reflexivity.
Qed.

Lemma checkBoundaryCollision_view x y bh :
  hitView x = hitView y ->
  checkBoundaryCollision x bh = checkBoundaryCollision y bh.
Proof.
  unfold hitView. intros E. unfold checkBoundaryCollision.
  replace (playerY x) with (playerY y) by congruence.
  replace (height x) with (height y) by congruence. reflexivity.
Qed.

Lemma collidePipe_gameOver bw bh y p :
  gameOver (collidePipe G bw bh y p)
  = gameOver y || checkObstacleCollision y bw bh p.
Proof.
  unfold collidePipe. destruct (gameOver y) eqn:O; simpl; [exact O|].
  destruct (checkObstacleCollision y bw bh p);
    [apply onCollision_gameOver|exact O].
Qed.

Lemma scorePipe_snd g pipe :
  snd (scorePipe G g (movePipe dt g pipe)) = stepPipe dt g pipe.
Proof.
  unfold scorePipe, stepPipe, movePipe. cbv zeta. destruct pipe as [x c s].
  cbn [Pipe.x Pipe.gapCenter Pipe.scored].
  destruct (F32.gtb (playerX g) _); destruct s; reflexivity.
Qed.

Lemma scorePipe_hitView g pipe :
  hitView (fst (scorePipe G g pipe)) = hitView g
  /\ gameOver (fst (scorePipe G g pipe)) = gameOver g.
Proof.
  unfold scorePipe, SaveHighScore, emit. cbv zeta. break_ifs; split; reflexivity.
Qed.

Lemma pipeBody_gameOver bw bh g pipe :
  gameOver (fst (pipeBody G dt bw bh g pipe))
  = gameOver g || checkObstacleCollision g bw bh (stepPipe dt g pipe).
Proof.
  rewrite pipeBody_fst, collidePipe_gameOver, scorePipe_snd.
  destruct (scorePipe_hitView g (movePipe dt g pipe)) as [V O].
  rewrite O, (checkObstacleCollision_view _ g bw bh _ V). reflexivity.
Qed.

Lemma pipeBody_hitView bw bh g pipe :
  hitView (fst (pipeBody G dt bw bh g pipe)) = hitView g.
Proof.
  apply hitView_of;
    [apply pipeBody_settled|apply pipeBody_config|apply pipeBody_body].
Qed.

Lemma pipeLoop_gameOver bw bh ps :
  forall g,
    gameOver (fst (pipeLoop G dt bw bh g ps))
    = gameOver g
      || existsb (checkObstacleCollision g bw bh) (map (stepPipe dt g) ps).
Proof.
  induction ps as [|pipe ps IH]; intros g; [simpl; rewrite orb_false_r; reflexivity|].
  simpl.
  pose proof (pipeBody_gameOver bw bh g pipe) as O.
  pose proof (pipeBody_hitView bw bh g pipe) as V.
  pose proof (pipeBody_view G dt bw bh g pipe) as L.
  destruct (pipeBody G dt bw bh g pipe) as [g1 p1]. simpl in O, V, L.
  specialize (IH g1).
  destruct (pipeLoop G dt bw bh g1 ps) as [g2 ps2]. simpl in *.
  rewrite IH, O, orb_assoc. f_equal.
  rewrite (map_ext _ _ (fun p => stepPipe_view dt g g1 p L)).
  apply existsb_same. intros p. apply checkObstacleCollision_view, V.
Qed.

Lemma movePipes_gameOver bw bh g :
  gameOver (movePipes G dt bw bh g)
  = gameOver g
    || existsb (checkObstacleCollision g bw bh) (map (stepPipe dt g) (pipes g)).
Proof.
  destruct (movePipes_trace G dt bw bh g) as (_ & O & _).
  rewrite O. apply pipeLoop_gameOver.
Qed.

Lemma beforePipes_hitView g :
  hitView (beforePipes G i dt g)
  = hitView (physics dt (UpdatePipeSpeed G dt (HandleInput G i g)))
  /\ gameOver (beforePipes G i dt g)
     = gameOver g
       || checkBoundaryCollision
            (physics dt (UpdatePipeSpeed G dt (HandleInput G i g)))
            (collisionBoxHeight
               (physics dt (UpdatePipeSpeed G dt (HandleInput G i g)))).
Proof.
  unfold beforePipes. cbv zeta.
  assert (V : forall x, hitView (spawn G i dt x) = hitView x
                        /\ gameOver (spawn G i dt x) = gameOver x)
    by (intros; unfold spawn; cbv zeta; break_ifs; split; reflexivity).
  assert (O : forall x, hitView (onCollision G x) = hitView x)
    by (intros; unfold onCollision, SaveHighScore, emit; cbv zeta;
        break_ifs; reflexivity).
  assert (P : gameOver (physics dt (UpdatePipeSpeed G dt (HandleInput G i g)))
              = gameOver g).
  { rewrite physics_gameOver, UpdatePipeSpeed_gameOver, HandleInput_gameOver.
    reflexivity. }
  match goal with |- hitView (spawn G i dt ?x) = _ /\ _ =>
    destruct (V x) as [-> ->] end.
  destruct (checkBoundaryCollision _ _).
  - rewrite O, onCollision_gameOver, orb_true_r. split; reflexivity.
  - rewrite P, orb_false_r. split; reflexivity.
Qed.

Lemma simulate_gameOver g :
  gameOver (simulate G i dt g)
  = gameOver g
    || checkBoundaryCollision
         (physics dt (UpdatePipeSpeed G dt (HandleInput G i g)))
         (collisionBoxHeight g)
    || existsb (checkObstacleCollision
                  (physics dt (UpdatePipeSpeed G dt (HandleInput G i g)))
                  (collisionBoxWidth g) (collisionBoxHeight g))
         (map (stepPipe dt (UpdatePipeSpeed G dt g))
              (pipes g ++ spawned G i dt g)).
Proof.
  rewrite simulate_eq, eyesTimer_gameOver, removeOffscreen_gameOver,
    movePipes_gameOver.
  destruct (beforePipes_hitView g) as [V O].
  rewrite O, beforePipes_pipes.
  assert (C : collisionBoxWidth
                (physics dt (UpdatePipeSpeed G dt (HandleInput G i g)))
              = collisionBoxWidth g
              /\ collisionBoxHeight
                   (physics dt (UpdatePipeSpeed G dt (HandleInput G i g)))
                 = collisionBoxHeight g).
  { unfold collisionBoxWidth, collisionBoxHeight.
    assert (K : config (physics dt (UpdatePipeSpeed G dt (HandleInput G i g)))
                = config g).
    { assert (H : config (HandleInput G i g) = config g)
        by (unfold HandleInput, emit; cbv zeta; break_ifs; reflexivity).
      assert (U : forall x, config (UpdatePipeSpeed G dt x) = config x)
        by (intros; unfold UpdatePipeSpeed; cbv zeta; break_ifs; reflexivity).
      change (config (UpdatePipeSpeed G dt (HandleInput G i g)) = config g).
      rewrite U. exact H. }
    unfold config in K.
    replace (playerSize (physics dt (UpdatePipeSpeed G dt (HandleInput G i g))))
      with (playerSize g) by congruence.
    replace (playerCollisionWidthRatio
               (physics dt (UpdatePipeSpeed G dt (HandleInput G i g))))
      with (playerCollisionWidthRatio g) by congruence.
    replace (playerCollisionHeightRatio
               (physics dt (UpdatePipeSpeed G dt (HandleInput G i g))))
      with (playerCollisionHeightRatio g) by congruence.
    split; reflexivity. }
  destruct C as [-> ->]. f_equal.
  rewrite (map_ext _ _ (fun p => stepPipe_view dt _ _ p (beforePipes_view G i dt g))).
  apply existsb_same. intros p. apply checkObstacleCollision_view, V.
Qed.
Lemma afterPhysics_hitView g :
  running g = true ->
  hitView (physics dt (UpdatePipeSpeed G dt (HandleInput G i g)))
  = hitView (moved i dt g).
Proof.
  intros R.
  assert (B : body (physics dt (UpdatePipeSpeed G dt (HandleInput G i g)))
              = (nextY i dt g, nextVelocity i dt g)).
  { rewrite physics_body.
    destruct (UpdatePipeSpeed_body G dt (HandleInput G i g)) as [B Gr].
    destruct (HandleInput_body G i g R) as [B1 Gr1].
    unfold body in B, B1.
    replace (playerY (UpdatePipeSpeed G dt (HandleInput G i g)))
      with (playerY g) by congruence.
    replace (playerVelocity (UpdatePipeSpeed G dt (HandleInput G i g)))
      with (if flapPressed i g then jumpForce g else playerVelocity g)
      by congruence.
    rewrite Gr, Gr1. reflexivity. }
  assert (K : (playerX (physics dt (UpdatePipeSpeed G dt (HandleInput G i g))),
               pipeWidth (physics dt (UpdatePipeSpeed G dt (HandleInput G i g))),
               pipeGap (physics dt (UpdatePipeSpeed G dt (HandleInput G i g))),
               height (physics dt (UpdatePipeSpeed G dt (HandleInput G i g))))
              = (playerX g, pipeWidth g, pipeGap g, height g)).
  { assert (H : (playerX (HandleInput G i g), pipeWidth (HandleInput G i g),
                 pipeGap (HandleInput G i g), height (HandleInput G i g))
                = (playerX g, pipeWidth g, pipeGap g, height g))
      by (unfold HandleInput, emit; cbv zeta; break_ifs; reflexivity).
    assert (U : forall x,
               (playerX (UpdatePipeSpeed G dt x), pipeWidth (UpdatePipeSpeed G dt x),
                pipeGap (UpdatePipeSpeed G dt x), height (UpdatePipeSpeed G dt x))
               = (playerX x, pipeWidth x, pipeGap x, height x))
      by (intros; unfold UpdatePipeSpeed; cbv zeta; break_ifs; reflexivity).
    rewrite <- H, <- (U (HandleInput G i g)). reflexivity. }
  unfold body in B. unfold hitView.
  change (playerY (moved i dt g)) with (nextY i dt g).
  change (playerX (moved i dt g)) with (playerX g).
  change (pipeWidth (moved i dt g)) with (pipeWidth g).
  change (pipeGap (moved i dt g)) with (pipeGap g).
  change (height (moved i dt g)) with (height g).
  congruence.
Qed.
End Crashes.

Lemma wrap_wrap_add a b : Int32.wrap (Int32.wrap a + b) = Int32.wrap (a + b).
Proof.
  unfold Int32.wrap. f_equal.
  replace ((a + 2 ^ 31) mod 2 ^ 32 - 2 ^ 31 + b + 2 ^ 31)
    with ((a + 2 ^ 31) mod 2 ^ 32 + b) by lia.
  rewrite Z.add_mod_idemp_l by lia. f_equal. lia.
Qed.

Section Points.
Variable G : Globals.
Variable i : Input.
Variable dt : float.

Lemma crossing_view g g' pipe :
  loopView g' = loopView g -> crossing dt g' pipe = crossing dt g pipe.
Proof. intros V. unfold crossing. rewrite (stepPipe_view dt g g' pipe V). reflexivity. Qed.

Lemma crossings_view g g' ps :
  loopView g' = loopView g -> crossings dt g' ps = crossings dt g ps.
Proof.
  intros V. unfold crossings.
  rewrite (filter_ext _ _ (fun p => crossing_view g g' p V)). reflexivity.
Qed.

Lemma pipeBody_score bw bh g pipe :
  score (fst (pipeBody G dt bw bh g pipe))
  = if crossing dt g pipe then Int32.wrap (score g + 1) else score g.
Proof.
  rewrite pipeBody_fst, collidePipe_score.
  unfold crossing, stepPipe. cbv zeta. cbn [Pipe.scored].
  destruct (scorePipe_cases G g (movePipe dt g pipe)) as [(C & S & E & _)|[C E]].
  - rewrite E.
    change (Pipe.scored (movePipe dt g pipe)) with (Pipe.scored pipe) in S.
    change (Pipe.x (movePipe dt g pipe))
      with (F32.sub (Pipe.x pipe) (F32.mul (pipeSpeed g) dt)) in C.
    rewrite S, C. reflexivity.
  - rewrite E. simpl fst.
    change (Pipe.scored (movePipe dt g pipe)) with (Pipe.scored pipe) in C.
    change (Pipe.x (movePipe dt g pipe))
      with (F32.sub (Pipe.x pipe) (F32.mul (pipeSpeed g) dt)) in C.
    destruct (Pipe.scored pipe); [reflexivity|].
    simpl in *. rewrite andb_true_r in C. rewrite C. reflexivity.
Qed.

Lemma pipeLoop_score bw bh ps :
  forall g, Int32.in_range (score g) ->
            score (fst (pipeLoop G dt bw bh g ps))
            = Int32.wrap (score g + Z.of_nat (crossings dt g ps)).
Proof.
  induction ps as [|pipe ps IH]; intros g R.
  - simpl. rewrite Z.add_0_r, wrap_in_range; [reflexivity|exact R].
  - simpl.
    pose proof (pipeBody_score bw bh g pipe) as S.
    pose proof (pipeBody_view G dt bw bh g pipe) as V.
    destruct (pipeBody G dt bw bh g pipe) as [g1 p1]. simpl in S, V.
    assert (R1 : Int32.in_range (score g1))
      by (rewrite S; destruct (crossing dt g pipe); [apply wrap_range|exact R]).
    specialize (IH g1 R1).
    destruct (pipeLoop G dt bw bh g1 ps) as [g2 ps2]. simpl in *.
    rewrite IH, (crossings_view g g1 ps V), S.
    unfold crossings. simpl filter.
    destruct (crossing dt g pipe).
    + rewrite wrap_wrap_add. simpl length. f_equal. lia.
    + reflexivity.
Qed.

Lemma simulate_score g :
  Int32.in_range (score g) ->
  score (simulate G i dt g)
  = Int32.wrap (score g
                + Z.of_nat (crossings dt (UpdatePipeSpeed G dt g)
                              (pipes g ++ spawned G i dt g))).
Proof.
  intros R. pose proof (simulate_scores G i dt g) as S.
  unfold scores in S.
  replace (score (simulate G i dt g))
    with (score (fst (pipeLoop G dt
                        (collisionBoxWidth (physics dt (UpdatePipeSpeed G dt (HandleInput G i g))))
                        (collisionBoxHeight (physics dt (UpdatePipeSpeed G dt (HandleInput G i g))))
                        (beforePipes G i dt g) (pipes (beforePipes G i dt g)))))
    by congruence.
  rewrite pipeLoop_score by (rewrite beforePipes_score; exact R).
  rewrite beforePipes_score, beforePipes_pipes.
  rewrite (crossings_view _ _ _ (beforePipes_view G i dt g)). reflexivity.
Qed.
End Points.

Section Exit.
Variable G : Globals.
Variable i : Input.
Variable dt : float.

Lemma exitView_uiState g g' : uiState g' = uiState g -> exitView g' = exitView g.
Proof. unfold uiState, exitView. intros E. congruence. Qed.

Lemma Reset_exitView g : exitView (Reset G i g) = exitView g.
Proof. open_game g. destruct _musicManuallyDisabled; reflexivity. Qed.

Lemma gameOverRestart_exitView g :
  exitView (gameOverRestart G i dt g) = exitView g.
Proof.
  unfold gameOverRestart. cbv zeta.
  assert (T : forall x, exitView (if F32.leb (gameOverDelayTimer x) F32.zero
                                  then if isMobile x
                                       then if IsGestureDetected_TAP i
                                            then Reset G i x else x
                                       else if IsKeyPressed i KEY_ENTER
                                            then Reset G i x else x
                                  else x) = exitView x)
    by (intros x; break_ifs; rewrite ?Reset_exitView; reflexivity).
  rewrite T. break_ifs; reflexivity.
Qed.

Lemma frame_exitView g : exitView (frame G i dt g) = exitView g.
Proof.
  unfold frame. cbv zeta.
  pose proof (exitView_uiState _ _ (advance_uiState G i dt g)) as A.
  destruct (gameOver _); [rewrite gameOverRestart_exitView|]; exact A.
Qed.

(** What the user-interface step does to the exit flags. *)
Lemma UpdateUI_exitView g :
  exitView (snd (UpdateUI G i g))
  = if negb (EMSCRIPTEN_BUILD G)
       && (WindowShouldClose i
           || (IsKeyPressed i KEY_ESCAPE && negb (exitWindowRequested g)))
    then (true, exitWindow g)
    else if exitWindowRequested g
         then if IsKeyPressed i KEY_Y then (true, true)
              else if IsKeyPressed i KEY_N || IsKeyPressed i KEY_ESCAPE
                   then (false, exitWindow g)
                   else exitView g
         else exitView g.
Proof.
  assert (M : forall x, exitView (snd (mobileTap G i x)) = exitView x)
    by (intros x; unfold mobileTap; cbv zeta; break_ifs; reflexivity).
  assert (P : forall x, exitView (pauseToggle G i x) = exitView x)
    by (intros x; unfold pauseToggle; break_ifs; reflexivity).
  assert (F : forall x, exitView (focusCheck i x) = exitView x)
    by (intros x; unfold focusCheck; break_ifs; reflexivity).
  assert (S : forall x, exitView (firstStart i x) = exitView x)
    by (intros x; unfold firstStart, emit; cbv zeta; break_ifs; reflexivity).
  assert (T : forall x, exitView (fullscreenToggle i x) = exitView x)
    by (intros x; unfold fullscreenToggle, emit; break_ifs; reflexivity).
  assert (E : forall x y, exitView x = exitView y ->
                exitView (exitMenu i x)
                = if exitWindowRequested y
                  then if IsKeyPressed i KEY_Y then (true, true)
                       else if IsKeyPressed i KEY_N || IsKeyPressed i KEY_ESCAPE
                            then (false, exitWindow y)
                            else exitView y
                  else exitView y).
  { intros x y V.
    assert (Rq : exitWindowRequested y = exitWindowRequested x)
      by (unfold exitView in V; congruence).
    assert (Ex : exitWindow y = exitWindow x)
      by (unfold exitView in V; congruence).
    rewrite <- V, Rq, Ex. unfold exitMenu.
    destruct (exitWindowRequested x) eqn:Q; [|reflexivity].
    destruct (IsKeyPressed i KEY_Y).
    - change (exitView (x <| exitWindow := true |>))
        with (exitWindowRequested x, true).
      rewrite Q. reflexivity.
    - destruct (IsKeyPressed i KEY_N || IsKeyPressed i KEY_ESCAPE); reflexivity. }
  unfold UpdateUI, exitRequest.
  destruct (EMSCRIPTEN_BUILD G); simpl negb; cbv zeta.
  - simpl andb. rewrite M, P, F. apply E, S.
  - simpl andb.
    destruct (WindowShouldClose i
              || IsKeyPressed i KEY_ESCAPE && negb (exitWindowRequested g)).
    + reflexivity.
    + rewrite M, P, F. apply E. rewrite S. apply T.
Qed.

Lemma Update_exitView g :
  exitView (Update G i dt g)
  = if F32.eqb dt F32.zero then exitView g
    else exitView (snd (UpdateUI G i (setScreenScale G i g))).
Proof.
  unfold Update. destruct (F32.eqb dt F32.zero); [reflexivity|]. cbv zeta.
  destruct (UpdateUI G i (setScreenScale G i g)) as [skip g1]. simpl snd.
  destruct skip; [reflexivity|]. apply frame_exitView.
Qed.
Lemma spawned_length g : (length (spawned G i dt g) <= 1)%nat.
Proof. unfold spawned. destruct (F32.geb _ _); simpl; lia. Qed.

Lemma advance_pipes_length g :
  (length (pipes (advance G i dt g)) <= S (length (pipes g)))%nat.
Proof.
  destruct (running g) eqn:R.
  - destruct (advance_running G i dt g R) as (g1 & E & S1 & _).
    rewrite E, simulate_pipes_of.
    pose proof (filter_length_le (onScreen g1)
                  (map (stepPipe dt (UpdatePipeSpeed G dt g1))
                       (pipes g1 ++ spawned G i dt g1))) as L.
    rewrite length_map, length_app in L.
    pose proof (spawned_length g1).
    pose proof (scene_eq pipes g1 g (fun _ => eq_refl) S1) as P.
    rewrite <- P. lia.
  - unfold advance. rewrite R. cbv zeta.
    destruct (musicPlaying g);
      [change (pipes (emit [UpdateMusicStream] g)) with (pipes g)|]; lia.
Qed.

Lemma frame_pipes_length g :
  (length (pipes (frame G i dt g)) <= S (length (pipes g)))%nat.
Proof.
  unfold frame. cbv zeta. pose proof (advance_pipes_length g) as A.
  destruct (gameOver _); [|exact A].
  destruct (gameOverRestart_cases G i dt (advance G i dt g)) as [E|[_ E]].
  - unfold sim in E.
    replace (pipes (gameOverRestart G i dt (advance G i dt g)))
      with (pipes (advance G i dt g)) by congruence.
    exact A.
  - rewrite sim_Reset in E. unfold sim in E.
    replace (pipes (gameOverRestart G i dt (advance G i dt g)))
      with (@nil Pipe.t) by congruence.
    simpl. lia.
Qed.

Lemma setScreenScale_exitView g : exitView (setScreenScale G i g) = exitView g.
Proof. reflexivity. Qed.

Lemma UpdateUI_screenScale g :
  screenScale (snd (UpdateUI G i g)) = screenScale g.
Proof.
  assert (M : forall x, screenScale (snd (mobileTap G i x)) = screenScale x)
    by (intros x; unfold mobileTap; cbv zeta; break_ifs; reflexivity).
  assert (P : forall x, screenScale (pauseToggle G i x) = screenScale x)
    by (intros x; unfold pauseToggle; break_ifs; reflexivity).
  assert (F : forall x, screenScale (focusCheck i x) = screenScale x)
    by (intros x; unfold focusCheck; break_ifs; reflexivity).
  assert (E : forall x, screenScale (exitMenu i x) = screenScale x)
    by (intros x; unfold exitMenu; break_ifs; reflexivity).
  assert (S : forall x, screenScale (firstStart i x) = screenScale x)
    by (intros x; unfold firstStart, emit; cbv zeta; break_ifs; reflexivity).
  assert (T : forall x, screenScale (fullscreenToggle i x) = screenScale x)
    by (intros x; unfold fullscreenToggle, emit; break_ifs; reflexivity).
  unfold UpdateUI.
  destruct (EMSCRIPTEN_BUILD G); cbv zeta.
  - rewrite M, P, F, E, S. reflexivity.
  - destruct (exitRequest i g) as [g'|] eqn:X.
    + unfold exitRequest in X. destruct (_ || _); [|discriminate].
      injection X as <-. reflexivity.
    + rewrite M, P, F, E, S, T. reflexivity.
Qed.

Lemma Reset_screenScale g : screenScale (Reset G i g) = fitScale G i.
Proof. open_game g. destruct _musicManuallyDisabled; reflexivity. Qed.

Lemma gameOverRestart_screenScale g :
  screenScale g = fitScale G i ->
  screenScale (gameOverRestart G i dt g) = fitScale G i.
Proof.
  intros H. unfold gameOverRestart. cbv zeta.
  break_ifs; rewrite ?Reset_screenScale; try reflexivity; exact H.
Qed.

Lemma frame_screenScale g :
  screenScale g = fitScale G i -> screenScale (frame G i dt g) = fitScale G i.
Proof.
  intros H. unfold frame. cbv zeta.
  assert (A : screenScale (advance G i dt g) = fitScale G i).
  { pose proof (advance_uiState G i dt g) as U. unfold uiState in U.
    rewrite <- H. congruence. }
  destruct (gameOver _); [apply gameOverRestart_screenScale|]; exact A.
Qed.
End Exit.

(** * The rounding of binary32 *)

(** ** Shifts and rounding of a located fraction *)

Lemma located_shr_1 mrs a b :
  located mrs a b -> located (shr_1 mrs) a (2 * b).
Proof.
  destruct mrs as [m r s]. unfold located. cbn [shr_m shr_r shr_s].
  intros (M & B & A & R & S). subst r s.
  assert (T : forall m' bit,
             m = 2 * m' + Z.b2z bit -> 0 <= m' ->
             0 <= m' /\ 0 < 2 * b
             /\ m' * (2 * b) <= a < m' * (2 * b) + 2 * b
             /\ bit = (2 * b <=? 2 * (a - m' * (2 * b)))
             /\ (b <=? 2 * (a - m * b))
                || (0 <? a - m * b) && negb (2 * (a - m * b) =? b)
                = (0 <? a - m' * (2 * b))
                  && negb (2 * (a - m' * (2 * b)) =? 2 * b)).
  { intros m' bit E M'. remember (m' * b) as X.
    replace (m * b) with (2 * X + Z.b2z bit * b) in * by (subst; ring).
    replace (m' * (2 * b)) with (2 * X) by (subst; ring).
    destruct bit; cbn [Z.b2z] in *; repeat split; lia. }
  destruct m as [|[p|p|]|p]; cbn [shr_1 shr_m shr_r shr_s]; [| | | |lia].
  - apply (T 0 false); cbn [Z.b2z]; lia.
  - apply (T (Z.pos p) true); cbn [Z.b2z]; lia.
  - apply (T (Z.pos p) false); cbn [Z.b2z]; lia.
  - apply (T 0 true); cbn [Z.b2z]; lia.
Qed.

Lemma pow2_xI p : 2 ^ Z.pos p~1 = 2 * (2 ^ Z.pos p * 2 ^ Z.pos p).
Proof.
  replace (Z.pos p~1) with (Z.succ (2 * Z.pos p)) by lia.
  rewrite Z.pow_succ_r, Z.pow_twice_r by lia. reflexivity.
Qed.

Lemma pow2_xO p : 2 ^ Z.pos p~0 = 2 ^ Z.pos p * 2 ^ Z.pos p.
Proof.
  replace (Z.pos p~0) with (2 * Z.pos p) by lia.
  apply Z.pow_twice_r.
Qed.

Lemma located_iter_pos p :
  forall mrs a b,
    located mrs a b -> located (iter_pos shr_1 p mrs) a (b * 2 ^ Z.pos p).
Proof.
  induction p as [p IH|p IH|]; intros mrs a b L.
  - simpl iter_pos. apply located_shr_1 in L.
    apply IH in L. apply IH in L.
    replace (b * 2 ^ Z.pos p~1) with (2 * b * 2 ^ Z.pos p * 2 ^ Z.pos p);
      [exact L|rewrite pow2_xI; ring].
  - simpl iter_pos. apply IH in L. apply IH in L.
    replace (b * 2 ^ Z.pos p~0) with (b * 2 ^ Z.pos p * 2 ^ Z.pos p);
      [exact L|rewrite pow2_xO; ring].
  - simpl iter_pos. apply located_shr_1 in L.
    replace (b * 2 ^ 1) with (2 * b) by (rewrite Z.pow_1_r; ring). exact L.
Qed.

Lemma located_shr mrs e n a b :
  located mrs a b ->
  exists k, 0 <= k /\ snd (shr mrs e n) = e + k
            /\ located (fst (shr mrs e n)) a (b * 2 ^ k).
Proof.
  intros L. destruct n as [|p|p]; cbn [shr fst snd].
  - exists 0. split; [lia|]. split; [lia|].
    rewrite Z.pow_0_r, Z.mul_1_r. exact L.
  - exists (Z.pos p). split; [lia|]. split; [reflexivity|].
    apply located_iter_pos, L.
  - exists 0. split; [lia|]. split; [lia|].
    rewrite Z.pow_0_r, Z.mul_1_r. exact L.
Qed.

Lemma located_exact m : 0 <= m -> located (shr_record_of_loc m loc_Exact) m 1.
Proof.
  intros M. unfold located. simpl. rewrite Z.mul_1_r, Z.sub_diag. simpl.
  repeat split; lia.
Qed.

(** The location that the division computes from the remainder. *)
Lemma located_div a b :
  0 <= a -> 0 < b ->
  located (shr_record_of_loc (fst (Z.div_eucl a b))
                             (new_location b (snd (Z.div_eucl a b)))) a b.
Proof.
  intros A B. pose proof (Z.div_eucl_eq a b ltac:(lia)) as E.
  pose proof (Z.mod_pos_bound a b B) as R.
  unfold Z.modulo in R. 
  assert (Q : 0 <= fst (Z.div_eucl a b)).
  { pose proof (Z.div_pos a b A B) as D. unfold Z.div in D. exact D. }
  destruct (Z.div_eucl a b) as [q r]. simpl in *.
  assert (F : a - q * b = r) by lia.
  unfold located.
  assert (H : forall l,
             (match l with
              | loc_Exact => r = 0
              | loc_Inexact Lt => 0 < r /\ 2 * r < b
              | loc_Inexact Eq => 2 * r = b
              | loc_Inexact Gt => b < 2 * r
              end) ->
             0 <= shr_m (shr_record_of_loc q l) /\ 0 < b
             /\ shr_m (shr_record_of_loc q l) * b <= a
                < shr_m (shr_record_of_loc q l) * b + b
             /\ shr_r (shr_record_of_loc q l)
                = (b <=? 2 * (a - shr_m (shr_record_of_loc q l) * b))
             /\ shr_s (shr_record_of_loc q l)
                = (0 <? a - shr_m (shr_record_of_loc q l) * b)
                  && negb (2 * (a - shr_m (shr_record_of_loc q l) * b) =? b)).
  { intros l Hl.
    assert (M : shr_m (shr_record_of_loc q l) = q)
      by (destruct l as [|[]]; reflexivity).
    rewrite M, F. split; [lia|]. split; [lia|]. split; [lia|].
    split; destruct l as [|[]]; cbn [shr_record_of_loc shr_r shr_s]; lia. }
  apply H. unfold new_location, new_location_even, new_location_odd.
  destruct (Z.even b) eqn:Ev.
  - destruct (Z.eqb_spec r 0); [assumption|].
    destruct (Z.compare_spec (2 * r) b); lia.
  - destruct (Z.eqb_spec r 0); [assumption|].
    assert (O : Z.odd b = true) by (rewrite <- Z.negb_even, Ev; reflexivity).
    apply Z.odd_spec in O. destruct O as [c O].
    destruct (Z.compare_spec (2 * r + 1) b); lia.
Qed.

(** Rounding to nearest moves a located fraction by at most one half. *)
Lemma located_round mrs a b :
  located mrs a b ->
  0 <= round_nearest_even (shr_m mrs) (loc_of_shr_record mrs)
  /\ Z.abs (2 * (round_nearest_even (shr_m mrs) (loc_of_shr_record mrs) * b
                 - a)) <= b.
Proof.
  destruct mrs as [m r s]. unfold located. cbn [shr_m shr_r shr_s].
  intros (M & B & A & R & S).
  remember (m * b) as X.
  assert (N : (m + 1) * b = X + b) by (subst; ring).
  destruct r, s; cbn [loc_of_shr_record round_nearest_even];
    try (destruct (Z.even m)); rewrite ?N, <- ?HeqX; split; lia.
Qed.

(** ** The number of binary digits, and the sum *)

Lemma digits2_pos_bounds m :
  2 ^ (Z.pos (digits2_pos m) - 1) <= Z.pos m < 2 ^ Z.pos (digits2_pos m).
Proof.
  induction m as [m IH|m IH|]; cbn [digits2_pos].
  - rewrite Pos2Z.inj_succ.
    replace (Z.succ (Z.pos (digits2_pos m)) - 1)
      with (Z.succ (Z.pos (digits2_pos m) - 1)) by lia.
    rewrite !Z.pow_succ_r by lia. lia.
  - rewrite Pos2Z.inj_succ.
    replace (Z.succ (Z.pos (digits2_pos m)) - 1)
      with (Z.succ (Z.pos (digits2_pos m) - 1)) by lia.
    rewrite !Z.pow_succ_r by lia. lia.
  - split; [reflexivity|reflexivity].
Qed.

Lemma Zdigits2_unique m d :
  2 ^ (d - 1) <= m < 2 ^ d -> 1 <= d -> Zdigits2 m = d.
Proof.
  intros [Lo Hi] D.
  assert (P : 0 < 2 ^ (d - 1)) by (apply Z.pow_pos_nonneg; lia).
  destruct m as [|p|p]; try lia. cbn [Zdigits2].
  destruct (digits2_pos_bounds p) as [Lo' Hi'].
  set (d' := Z.pos (digits2_pos p)) in *.
  assert (d - 1 < d').
  { apply (Z.pow_lt_mono_r_iff 2); lia. }
  assert (d' - 1 < d).
  { apply (Z.pow_lt_mono_r_iff 2); lia. }
  lia.
Qed.

(** Of two scaled mantissas the smaller has the smaller magnitude. *)
Lemma digits_scaled_le m1 k1 m2 k2 :
  0 <= k1 -> 0 <= k2 ->
  Z.pos m1 * 2 ^ k1 <= Z.pos m2 * 2 ^ k2 ->
  Z.pos (digits2_pos m1) + k1 <= Z.pos (digits2_pos m2) + k2.
Proof.
  intros K1 K2 H.
  destruct (digits2_pos_bounds m1) as [Lo1 _].
  destruct (digits2_pos_bounds m2) as [_ Hi2].
  set (d1 := Z.pos (digits2_pos m1)) in *.
  set (d2 := Z.pos (digits2_pos m2)) in *.
  assert (D1 : 1 <= d1) by (subst d1; lia).
  assert (A : 2 ^ (d1 - 1 + k1) <= Z.pos m1 * 2 ^ k1).
  { rewrite Z.pow_add_r by lia. apply Z.mul_le_mono_nonneg_r; [|exact Lo1].
    apply Z.pow_nonneg. lia. }
  assert (B : Z.pos m2 * 2 ^ k2 < 2 ^ (d2 + k2)).
  { rewrite Z.pow_add_r by (subst d2; lia).
    apply Z.mul_lt_mono_pos_r; [apply Z.pow_pos_nonneg; lia|exact Hi2]. }
  assert (d1 - 1 + k1 < d2 + k2).
  { apply (Z.pow_lt_mono_r_iff 2); [lia|subst d2; lia|lia]. }
  lia.
Qed.

Lemma snd_shr mrs e n : snd (shr mrs e n) = e + Z.max 0 n.
Proof. destruct n; cbn [shr snd]; lia. Qed.

Lemma located_shr_max mrs e n a b :
  located mrs a b -> located (fst (shr mrs e n)) a (b * 2 ^ Z.max 0 n).
Proof.
  intros L. destruct (located_shr mrs e n a b L) as (k & K & E & L').
  rewrite snd_shr in E. replace (Z.max 0 n) with k by lia. exact L'.
Qed.

Section Exact.
Variable prec emax : Z.
Hypothesis prec_pos : 0 < prec.

Lemma fexp_mono a b : a <= b -> fexp prec emax a <= fexp prec emax b.
Proof. unfold fexp. lia. Qed.

Lemma fexp_succ a : fexp prec emax (a + 1) <= fexp prec emax a + 1.
Proof. unfold fexp. lia. Qed.

Lemma fexp_emin a : emin prec emax <= fexp prec emax a.
Proof. unfold fexp. lia. Qed.

Lemma fexp_below a : emin prec emax < a -> fexp prec emax a < a.
Proof. unfold fexp. lia. Qed.

(** [binary_round_aux] on an exact positive mantissa whose exponent is
    not above the canonical one and whose magnitude is above the
    smallest exponent: the result is an infinity or a canonical float of
    the same sign, whose exponent is at least the canonical exponent of
    the input and whose mantissa, plus one, is above the input. *)
Lemma binary_round_aux_exact sx m e :
  e <= fexp prec emax (Z.pos (digits2_pos m) + e) ->
  emin prec emax < Z.pos (digits2_pos m) + e ->
  binary_round_aux prec emax sx (Z.pos m) e loc_Exact = S754_infinity sx
  \/ exists m2 e2,
       binary_round_aux prec emax sx (Z.pos m) e loc_Exact
       = S754_finite sx m2 e2
       /\ bounded prec emax m2 e2 = true
       /\ fexp prec emax (Z.pos (digits2_pos m) + e) <= e2
       /\ e <= e2
       /\ Z.pos m < (Z.pos m2 + 1) * 2 ^ (e2 - e).
Proof.
  intros A U.
  set (d := Z.pos (digits2_pos m)) in *.
  set (t := fexp prec emax (d + e)) in *.
  destruct (digits2_pos_bounds m) as [Lo Hi]. fold d in Lo, Hi.
  assert (D1 : 1 <= d) by (subst d; lia).
  pose proof (fexp_below (d + e) U) as T. fold t in T.
  unfold binary_round_aux, shr_fexp. cbn [Zdigits2]. fold d. fold t.
  (* the first shift *)
  pose proof (located_shr_max (shr_record_of_loc (Z.pos m) loc_Exact) e (t - e)
                (Z.pos m) 1 (located_exact (Z.pos m) ltac:(lia))) as L1.
  pose proof (snd_shr (shr_record_of_loc (Z.pos m) loc_Exact) e (t - e)) as E1.
  destruct (shr (shr_record_of_loc (Z.pos m) loc_Exact) e (t - e)) as [mrs1 e1].
  cbn [fst snd] in L1, E1.
  replace (Z.max 0 (t - e)) with (t - e) in * by lia.
  assert (E1' : e1 = t) by lia. clear E1. subst e1.
  set (k1 := t - e) in *.
  assert (K1 : 0 <= k1 <= d - 1) by (subst k1; lia).
  assert (P1 : 0 < 2 ^ k1) by (apply Z.pow_pos_nonneg; lia).
  pose proof L1 as (M1 & _ & B1 & _).
  rewrite Z.mul_1_l in B1.
  set (m1 := shr_m mrs1) in *.
  set (d1 := d - k1).
  assert (S1 : 2 ^ (d1 - 1) <= m1 < 2 ^ d1).
  { assert (X : 2 ^ (d - 1) = 2 ^ (d1 - 1) * 2 ^ k1).
    { rewrite <- Z.pow_add_r by (subst d1; lia). f_equal. subst d1. lia. }
    assert (Y : 2 ^ d = 2 ^ d1 * 2 ^ k1).
    { rewrite <- Z.pow_add_r by (subst d1; lia). f_equal. subst d1. lia. }
    split.
    - assert (2 ^ (d1 - 1) * 2 ^ k1 < (m1 + 1) * 2 ^ k1) by lia.
      apply Z.mul_lt_mono_pos_r in H; lia.
    - assert (m1 * 2 ^ k1 < 2 ^ d1 * 2 ^ k1) by lia.
      apply Z.mul_lt_mono_pos_r in H; lia. }
  assert (Q1 : 0 < 2 ^ (d1 - 1)) by (apply Z.pow_pos_nonneg; subst d1; lia).
  (* the rounding *)
  destruct (located_round mrs1 _ _ L1) as [R0 _].
  fold m1 in R0.
  assert (R1 : round_nearest_even m1 (loc_of_shr_record mrs1) = m1
               \/ round_nearest_even m1 (loc_of_shr_record mrs1) = m1 + 1).
  { destruct (loc_of_shr_record mrs1) as [|[]]; cbn [round_nearest_even];
      try destruct (Z.even m1); auto. }
  assert (R2 : forall mrs, shr_m mrs = m1 ->
           round_nearest_even (shr_m mrs) (loc_of_shr_record mrs)
           = round_nearest_even m1 (loc_of_shr_record mrs))
    by (intros ? ->; reflexivity).
  fold m1.
  set (mr := round_nearest_even m1 (loc_of_shr_record mrs1)) in *.
  assert (Rr : m1 <= mr <= m1 + 1) by lia.
  (* the second shift *)
  pose proof (located_shr_max (shr_record_of_loc mr loc_Exact) t
                (fexp prec emax (Zdigits2 mr + t) - t) mr 1
                (located_exact mr R0)) as L2.
  pose proof (snd_shr (shr_record_of_loc mr loc_Exact) t
                (fexp prec emax (Zdigits2 mr + t) - t)) as E2.
  destruct (shr (shr_record_of_loc mr loc_Exact) t
              (fexp prec emax (Zdigits2 mr + t) - t)) as [mrs2 e2].
  cbn [fst snd] in L2, E2.
  destruct L2 as (M2 & _ & B2 & _). rewrite Z.mul_1_l in B2.
  assert (Dt : d1 + t = d + e) by (subst d1 k1; lia).
  assert (Fin : forall m2 : positive, forall k2,
             0 <= k2 -> e2 = t + k2 -> shr_m mrs2 = Z.pos m2 ->
             Z.pos m2 * 2 ^ k2 <= mr < Z.pos m2 * 2 ^ k2 + 2 ^ k2 ->
             fexp prec emax (Z.pos (digits2_pos m2) + e2) = e2 ->
             (if e2 <=? emax - prec
              then S754_finite sx m2 e2 else S754_infinity sx)
             = S754_infinity sx
             \/ exists m3 e3,
                 (if e2 <=? emax - prec
                  then S754_finite sx m2 e2 else S754_infinity sx)
                 = S754_finite sx m3 e3
                 /\ bounded prec emax m3 e3 = true
                 /\ t <= e3 /\ e <= e3
                 /\ Z.pos m < (Z.pos m3 + 1) * 2 ^ (e3 - e)).
  { intros m2 k2 K2 Ee Em Bm C.
    destruct (Z.leb_spec e2 (emax - prec)); [right|left; reflexivity].
    exists m2, e2. split; [reflexivity|]. split.
    - unfold bounded, canonical_mantissa. rewrite C, Z.eqb_refl.
      apply Z.leb_le. assumption.
    - split; [lia|]. split; [lia|].
      replace (e2 - e) with (k1 + k2) by (subst k1; lia).
      rewrite Z.pow_add_r by lia.
      assert (P2 : 0 < 2 ^ k2) by (apply Z.pow_pos_nonneg; lia).
      assert (X : mr + 1 <= (Z.pos m2 + 1) * 2 ^ k2) by lia.
      assert (Y : (mr + 1) * 2 ^ k1 <= (Z.pos m2 + 1) * 2 ^ k2 * 2 ^ k1)
        by (apply Z.mul_le_mono_nonneg_r; lia).
      assert (W : (m1 + 1) * 2 ^ k1 <= (mr + 1) * 2 ^ k1)
        by (apply Z.mul_le_mono_nonneg_r; lia).
      replace ((Z.pos m2 + 1) * (2 ^ k1 * 2 ^ k2))
        with ((Z.pos m2 + 1) * 2 ^ k2 * 2 ^ k1) by ring.
      lia. }
  destruct (Z.lt_ge_cases mr (2 ^ d1)) as [Small|Big].
  - (* the mantissa keeps its digits *)
    assert (Dr : Zdigits2 mr = d1)
      by (apply Zdigits2_unique; [lia|subst d1; lia]).
    rewrite Dr, Dt in E2, B2. fold t in E2, B2.
    replace (Z.max 0 (t - t)) with 0 in * by lia.
    rewrite Z.pow_0_r in B2.
    destruct (shr_m mrs2) as [|m2|m2] eqn:Em; try lia.
    apply (Fin m2 0); try lia.
    replace e2 with t by lia. replace (Z.pos m2) with mr in Dr by lia.
    cbn [Zdigits2] in Dr.
    assert (Dm : Z.pos (digits2_pos m2) = d1).
    { assert (Z.pos m2 = mr) by lia.
      pose proof (Zdigits2_unique (Z.pos m2) d1) as U2. cbn [Zdigits2] in U2.
      apply U2; [lia|subst d1; lia]. }
    rewrite Dm, Dt. reflexivity.
  - (* the rounding carried into a new digit *)
    assert (Er : mr = 2 ^ d1) by lia.
    assert (Dr : Zdigits2 mr = d1 + 1).
    { apply Zdigits2_unique; [|subst d1; lia].
      replace (d1 + 1 - 1) with d1 by lia.
      rewrite Z.pow_add_r, Z.pow_1_r by (subst d1; lia). lia. }
    rewrite Dr in E2, B2.
    replace (d1 + 1 + t) with (d + e + 1) in * by lia.
    pose proof (fexp_succ (d + e)) as F1.
    pose proof (fexp_mono (d + e) (d + e + 1) ltac:(lia)) as F2.
    fold t in F1, F2.
    set (t' := fexp prec emax (d + e + 1)) in *.
    assert (C : t' = t \/ t' = t + 1) by lia.
    destruct C as [C|C]; rewrite C in *.
    + replace (Z.max 0 (t - t)) with 0 in * by lia.
      rewrite Z.pow_0_r in B2.
      destruct (shr_m mrs2) as [|m2|m2] eqn:Em; try lia.
      apply (Fin m2 0); try lia.
      replace e2 with t by lia.
      assert (Dm : Z.pos (digits2_pos m2) = d1 + 1).
      { pose proof (Zdigits2_unique (Z.pos m2) (d1 + 1)) as U2.
        cbn [Zdigits2] in U2. apply U2; [|subst d1; lia].
        replace (d1 + 1 - 1) with d1 by lia.
        rewrite Z.pow_add_r, Z.pow_1_r by (subst d1; lia). lia. }
      rewrite Dm. replace (d1 + 1 + t) with (d + e + 1) by lia.
      fold t'. exact C.
    + replace (Z.max 0 (t + 1 - t)) with 1 in * by lia.
      rewrite Z.pow_1_r in B2.
      assert (X : 2 ^ d1 = 2 * 2 ^ (d1 - 1)).
      { rewrite <- Z.pow_succ_r by (subst d1; lia). f_equal. lia. }
      destruct (shr_m mrs2) as [|m2|m2] eqn:Em; try lia.
      apply (Fin m2 1); try lia.
      assert (Dm : Z.pos (digits2_pos m2) = d1).
      { pose proof (Zdigits2_unique (Z.pos m2) d1) as U2.
        cbn [Zdigits2] in U2. apply U2; [lia|subst d1; lia]. }
      rewrite Dm. replace e2 with (t + 1) by lia.
      replace (d1 + (t + 1)) with (d + e + 1) by lia.
      fold t'. exact C.
Qed.
End Exact.

Lemma iter_xO m d : Z.pos (Pos.iter xO m d) = Z.pos m * 2 ^ Z.pos d.
Proof.
  induction d as [|d IH] using Pos.peano_ind.
  - cbn [Pos.iter]. rewrite Z.pow_1_r. lia.
  - rewrite Pos.iter_succ, Pos2Z.inj_xO, IH, Pos2Z.inj_succ.
    rewrite Z.pow_succ_r by lia. ring.
Qed.

Lemma shl_align_fst m e e' :
  e' <= e -> Z.pos (fst (shl_align m e e')) = Z.pos m * 2 ^ (e - e').
Proof.
  intros H. unfold shl_align.
  destruct (e' - e) as [|p|p] eqn:E; cbn [fst].
  - replace (e - e') with 0 by lia. rewrite Z.pow_0_r. lia.
  - lia.
  - rewrite iter_xO. f_equal. f_equal. lia.
Qed.

Lemma shl_align_same m e e' : e <= e' -> shl_align m e e' = (m, e).
Proof.
  intros H. unfold shl_align. destruct (e' - e) as [|p|p] eqn:E; try reflexivity.
  lia.
Qed.

Section Sum.
Variable prec emax : Z.
Hypothesis prec_pos : 0 < prec.

(** The sum of a canonical positive float and a positive float is an
    infinity or a canonical positive float that is not below the
    first. *)
Lemma SFadd_positive ms es mp ep :
  bounded prec emax ms es = true ->
  SFadd prec emax (S754_finite false ms es) (S754_finite false mp ep)
  = S754_infinity false
  \/ exists m e,
       SFadd prec emax (S754_finite false ms es) (S754_finite false mp ep)
       = S754_finite false m e
       /\ bounded prec emax m e = true
       /\ SFleb (S754_finite false ms es) (S754_finite false m e) = true.
Proof.
  intros V. unfold bounded, canonical_mantissa in V.
  apply andb_true_iff in V. destruct V as [C _]. apply Z.eqb_eq in C.
  cbn [SFadd cond_Zopp]. set (ez := Z.min es ep).
  rewrite (shl_align_fst ms es ez), (shl_align_fst mp ep ez) by (subst ez; lia).
  assert (Ps : 0 < 2 ^ (es - ez)) by (apply Z.pow_pos_nonneg; subst ez; lia).
  assert (Pp : 0 < 2 ^ (ep - ez)) by (apply Z.pow_pos_nonneg; subst ez; lia).
  assert (Q : 0 < Z.pos mp * 2 ^ (ep - ez)) by lia.
  assert (Q' : Z.pos ms * 2 ^ (es - ez)
               < Z.pos ms * 2 ^ (es - ez) + Z.pos mp * 2 ^ (ep - ez)) by lia.
  assert (Q0 : 0 < Z.pos ms * 2 ^ (es - ez)) by lia.
  destruct (Z.pos ms * 2 ^ (es - ez) + Z.pos mp * 2 ^ (ep - ez))
    as [|M|M] eqn:EM; try lia.
  cbn [binary_normalize]. unfold binary_round.
  (* the magnitude of the sum is at least the one of the first float *)
  assert (G : Z.pos (digits2_pos ms) + es <= Z.pos (digits2_pos M) + ez).
  { pose proof (digits_scaled_le ms (es - ez) M 0 ltac:(subst ez; lia)
                  ltac:(lia)) as H.
    rewrite Z.pow_0_r, Z.mul_1_r in H. specialize (H ltac:(lia)). lia. }
  pose proof (fexp_mono prec emax _ _ G) as F. rewrite C in F.
  pose proof (fexp_emin prec emax (Z.pos (digits2_pos ms) + es)) as Em.
  rewrite C in Em.
  rewrite shl_align_same by (subst ez; lia).
  destruct (binary_round_aux_exact prec emax prec_pos false M ez)
    as [I|(m2 & e2 & E & B & T & Ee & U)].
  - subst ez. lia.
  - pose proof (Pos2Z.is_pos (digits2_pos ms)). lia.
  - left. exact I.
  - right. exists m2, e2. split; [exact E|]. split; [exact B|].
    unfold SFleb. cbn [SFcompare].
    destruct (Z.compare_spec es e2) as [Eq|Lt|Gt]; [|reflexivity|lia].
    subst e2.
    assert (L : Z.pos ms <= Z.pos m2).
    { assert (H : Z.pos ms * 2 ^ (es - ez) < (Z.pos m2 + 1) * 2 ^ (es - ez))
        by lia.
      apply Z.mul_lt_mono_pos_r in H; lia. }
    rewrite Pos.compare_cont_spec. cbn [Pos.switch_Eq].
    destruct (Pos.compare_spec ms m2); try reflexivity. lia.
Qed.

(** A product of two floats that are not negative is not negative, and
    not a NaN unless one is zero and the other an infinity. *)
Lemma binary_round_aux_sign sx m e :
  match binary_round_aux prec emax sx (Z.pos m) e loc_Exact with
  | S754_zero s | S754_infinity s | S754_finite s _ _ => s = sx
  | S754_nan => False
  end.
Proof.
  unfold binary_round_aux, shr_fexp.
  pose proof (located_shr_max (shr_record_of_loc (Z.pos m) loc_Exact) e
                (fexp prec emax (Zdigits2 (Z.pos m) + e) - e)
                (Z.pos m) 1 (located_exact (Z.pos m) ltac:(lia))) as L1.
  destruct (shr (shr_record_of_loc (Z.pos m) loc_Exact) e
              (fexp prec emax (Zdigits2 (Z.pos m) + e) - e)) as [mrs1 e1].
  cbn [fst] in L1.
  destruct (located_round mrs1 _ _ L1) as [R0 _].
  set (mr := round_nearest_even (shr_m mrs1) (loc_of_shr_record mrs1)) in *.
  pose proof (located_shr_max (shr_record_of_loc mr loc_Exact) e1
                (fexp prec emax (Zdigits2 mr + e1) - e1) mr 1
                (located_exact mr R0)) as L2.
  destruct (shr (shr_record_of_loc mr loc_Exact) e1
              (fexp prec emax (Zdigits2 mr + e1) - e1)) as [mrs2 e2].
  cbn [fst] in L2. destruct L2 as (M2 & _).
  destruct (shr_m mrs2); [reflexivity| |lia].
  destruct (e2 <=? emax - prec); reflexivity.
Qed.
End Sum.

(** ** The quotient *)

Section Aux.
Variable prec emax : Z.

(** The float that [binary_round_aux] makes of a located fraction is
    within one unit in the last place of the fraction. *)
Lemma binary_round_aux_located sx mx ex lx a b s mz ez :
  located (shr_record_of_loc mx lx) a b ->
  binary_round_aux prec emax sx mx ex lx = S754_finite s mz ez ->
  s = sx
  /\ exists k, 0 <= k /\ ez = ex + k
               /\ Z.abs (Z.pos mz * (b * 2 ^ k) - a) < b * 2 ^ k.
Proof.
  intros L. unfold binary_round_aux, shr_fexp.
  destruct (located_shr _ ex (fexp prec emax (Zdigits2 mx + ex) - ex) a b L)
    as (k1 & K1 & E1 & L1).
  destruct (shr (shr_record_of_loc mx lx) ex
              (fexp prec emax (Zdigits2 mx + ex) - ex)) as [mrs1 e1].
  cbn [fst snd] in E1, L1.
  destruct (located_round mrs1 a _ L1) as [R0 RB].
  set (mr := round_nearest_even (shr_m mrs1) (loc_of_shr_record mrs1)) in *.
  destruct (located_shr _ e1 (fexp prec emax (Zdigits2 mr + e1) - e1) mr 1
              (located_exact mr R0)) as (k2 & K2 & E2 & L2).
  destruct (shr (shr_record_of_loc mr loc_Exact) e1
              (fexp prec emax (Zdigits2 mr + e1) - e1)) as [mrs2 e2].
  cbn [fst snd] in E2, L2.
  destruct L2 as (_ & _ & M2 & _).
  destruct (shr_m mrs2) as [|m2|m2] eqn:Em; try discriminate.
  destruct (e2 <=? emax - prec); [|discriminate].
  intros H. injection H as <- <- <-. split; [reflexivity|].
  exists (k1 + k2). split; [lia|]. split; [lia|].
  rewrite Z.pow_add_r by lia.
  assert (P1 : 0 < 2 ^ k1) by (apply Z.pow_pos_nonneg; lia).
  assert (P2 : 0 < 2 ^ k2) by (apply Z.pow_pos_nonneg; lia).
  destruct L1 as (_ & B1 & _).
  remember (b * 2 ^ k1) as B. remember (2 ^ k2) as N.
  replace (1 * N) with N in M2 by ring.
  replace (b * (2 ^ k1 * N)) with (N * B) by (subst; ring).
  replace (Z.pos m2 * (N * B)) with (Z.pos m2 * N * B) by ring.
  remember (Z.pos m2 * N) as Y.
  assert (H1 : Y * B <= mr * B) by (apply Z.mul_le_mono_nonneg_r; lia).
  assert (H2 : mr * B <= (Y + N - 1) * B)
    by (apply Z.mul_le_mono_nonneg_r; lia).
  replace ((Y + N - 1) * B) with (Y * B + N * B - B) in H2 by ring.
  lia.
Qed.

(** The quotient that [SFdiv] makes of two positive floats, times the
    divisor, is the dividend to within one unit in the last place of
    the quotient times the divisor: with every mantissa brought to the
    exponent [ex - sh], the three numbers are [mz * my * 2 ^ k], [mx * 2
    ^ sh] and [my * 2 ^ k]. *)
Lemma SFdiv_located mx ex my ey s mz ez :
  SFdiv prec emax (S754_finite false mx ex) (S754_finite false my ey)
  = S754_finite s mz ez ->
  s = false
  /\ exists sh k, 0 <= sh /\ 0 <= k /\ ez + ey = ex - sh + k
                  /\ Z.abs (Z.pos mz * Z.pos my * 2 ^ k - Z.pos mx * 2 ^ sh)
                     < Z.pos my * 2 ^ k.
Proof.
  unfold SFdiv, SFdiv_core_binary. cbv zeta.
  set (e' := Z.min (fexp prec emax
                      (Zdigits2 (Z.pos mx) + ex - (Zdigits2 (Z.pos my) + ey)))
                   (ex - ey)).
  set (sh := ex - ey - e').
  assert (S0 : 0 <= sh) by (subst sh e'; lia).
  set (m' := match sh with
             | 0 => Z.pos mx
             | Z.pos _ => Z.shiftl (Z.pos mx) sh
             | Z.neg _ => 0
             end).
  assert (M : m' = Z.pos mx * 2 ^ sh).
  { subst m'. destruct sh as [|p|p]; [rewrite Z.pow_0_r; ring| |lia].
    apply Z.shiftl_mul_pow2. lia. }
  assert (M0 : 0 <= m').
  { rewrite M. apply Z.mul_nonneg_nonneg; [lia|].
    apply Z.pow_nonneg. lia. }
  pose proof (located_div m' (Z.pos my) M0 ltac:(lia)) as L.
  destruct (Z.div_eucl m' (Z.pos my)) as [q r]. cbn [fst snd] in L.
  intros H.
  destruct (binary_round_aux_located _ _ _ _ _ _ _ _ _ L H)
    as (-> & k & K & E & A).
  split; [reflexivity|]. exists sh, k. split; [exact S0|]. split; [exact K|].
  split; [subst sh; lia|].
  rewrite M in A.
  replace (Z.pos mz * Z.pos my * 2 ^ k) with (Z.pos mz * (Z.pos my * 2 ^ k))
    by ring.
  exact A.
Qed.
End Aux.

Section Quotient.
Import Reals Lra.
Local Open Scope R_scope.
Lemma IZR_pow2 k : (0 <= k)%Z -> IZR (2 ^ k) = powerRZ 2 k.
Proof.
  intros K. rewrite <- (Z2Nat.id k K) at 1. rewrite <- pow_IZR.
  rewrite <- (Z2Nat.id k K) at 2. rewrite <- pow_powerRZ. reflexivity.
Qed.

Lemma powerRZ_2_pos e : 0 < powerRZ 2 e.
Proof. apply powerRZ_lt. lra. Qed.

(** The quotient of two positive floats, when its mantissa has all its
    [prec] bits, gives the dividend back, once multiplied by the
    divisor, up to the fraction [2 ^ (1 - prec)] of the product. *)
Lemma SFdiv_product prec emax x y :
  F32.is_positive x = true -> F32.is_positive y = true ->
  match SFdiv prec emax x y with
  | S754_finite _ m _ => (Z.pos (digits2_pos m) =? prec)%Z
  | _ => false
  end = true ->
  Rabs (F32.value (SFdiv prec emax x y) * F32.value y - F32.value x)
  < F32.value (SFdiv prec emax x y) * F32.value y * powerRZ 2 (1 - prec).
Proof.
  destruct x as [| | |[] mx ex]; try discriminate.
  destruct y as [| | |[] my ey]; try discriminate. intros _ _.
  destruct (SFdiv prec emax (S754_finite false mx ex) (S754_finite false my ey))
    as [| | |s mz ez] eqn:E; try discriminate.
  intros N. apply Z.eqb_eq in N.
  destruct (SFdiv_located prec emax mx ex my ey s mz ez E)
    as (-> & sh & k & S0 & K0 & X & A).
  cbn [F32.value cond_Zopp].
  destruct (digits2_pos_bounds mz) as [D _]. rewrite N in D.
  assert (Ez : powerRZ 2 ez * powerRZ 2 ey
               = powerRZ 2 (ex - sh) * powerRZ 2 k).
  { rewrite <- !powerRZ_add by lra. f_equal. lia. }
  assert (Ex : powerRZ 2 ex = powerRZ 2 (ex - sh) * powerRZ 2 sh).
  { rewrite <- powerRZ_add by lra. f_equal. lia. }
  pose proof (powerRZ_2_pos (ex - sh)) as P0.
  pose proof (powerRZ_2_pos k) as Pk.
  set (Mz := IZR (Z.pos mz)). set (My := IZR (Z.pos my)).
  set (Mx := IZR (Z.pos mx)).
  assert (Q : 1 <= Mz * powerRZ 2 (1 - prec)).
  { apply IZR_le in D. fold Mz in D.
    assert (I : powerRZ 2 (prec - 1) * powerRZ 2 (1 - prec) = 1).
    { rewrite <- powerRZ_add by lra.
      replace (prec - 1 + (1 - prec))%Z with 0%Z by lia. reflexivity. }
    pose proof (powerRZ_2_pos (1 - prec)) as Pp.
    pose proof (powerRZ_2_pos (prec - 1)) as Pq.
    assert (J : IZR (2 ^ (prec - 1)) = powerRZ 2 (prec - 1)).
    { destruct (Z.le_gt_cases 0 (prec - 1)) as [H|H]; [apply IZR_pow2, H|].
      exfalso. rewrite Z.pow_neg_r in D by lia.
      pose proof (Pos2Z.is_pos (digits2_pos mz)). lia. }
    rewrite J in D. rewrite <- I. apply Rmult_le_compat_r; lra. }
  assert (Y : 0 < My * powerRZ 2 k).
  { apply Rmult_lt_0_compat; [apply IZR_lt; lia|exact Pk]. }
  assert (A' : Rabs (Mz * My * powerRZ 2 k - Mx * powerRZ 2 sh)
               < My * powerRZ 2 k).
  { apply IZR_lt in A. rewrite abs_IZR, minus_IZR, !mult_IZR in A.
    rewrite !IZR_pow2 in A by assumption. exact A. }
  replace (Mz * powerRZ 2 ez * (My * powerRZ 2 ey) - Mx * powerRZ 2 ex)
    with (powerRZ 2 (ex - sh)
          * (Mz * My * powerRZ 2 k - Mx * powerRZ 2 sh))
    by (rewrite Ex;
        replace (Mz * powerRZ 2 ez * (My * powerRZ 2 ey))
          with (Mz * My * (powerRZ 2 ez * powerRZ 2 ey)) by ring;
        rewrite Ez; ring).
  replace (Mz * powerRZ 2 ez * (My * powerRZ 2 ey) * powerRZ 2 (1 - prec))
    with (powerRZ 2 (ex - sh)
          * (My * powerRZ 2 k * (Mz * powerRZ 2 (1 - prec))))
    by (replace (Mz * powerRZ 2 ez * (My * powerRZ 2 ey))
          with (Mz * My * (powerRZ 2 ez * powerRZ 2 ey)) by ring;
        rewrite Ez; ring).
  rewrite Rabs_mult, (Rabs_pos_eq (powerRZ 2 (ex - sh))) by lra.
  apply Rmult_lt_compat_l; [exact P0|].
  eapply Rlt_le_trans; [exact A'|].
  rewrite <- (Rmult_1_r (My * powerRZ 2 k)) at 1.
  apply Rmult_le_compat_l; lra.
Qed.

(** The same for binary32: the product is within the fraction [2 ^ -23]
    of itself from the dividend. *)
Lemma div_product x y :
  F32.is_positive x = true -> F32.is_positive y = true ->
  F32.is_normal (F32.div x y) = true ->
  Rabs (F32.value (F32.div x y) * F32.value y - F32.value x)
  < F32.value (F32.div x y) * F32.value y * powerRZ 2 (-23).
Proof. apply (SFdiv_product F32.prec F32.emax). Qed.
End Quotient.

(** * A frame from its entry to its end *)

Section FrameOfUpdate.
Variable G : Globals.
Variable i : Input.
Variable dt : float.

Lemma setScreenScale_scene g : scene (setScreenScale G i g) = scene g.
Proof. reflexivity. Qed.

Lemma UpdateUI_scene g : scene (snd (UpdateUI G i g)) = scene g.
Proof.
  assert (X : forall x x', exitRequest i x = Some x' -> scene x' = scene x).
  { intros x x'. unfold exitRequest. destruct (_ || _); [|discriminate].
    intros E. injection E as <-. reflexivity. }
  assert (F : forall x, scene (fullscreenToggle i x) = scene x)
    by (intros x; unfold fullscreenToggle, emit; break_ifs; reflexivity).
  assert (S : forall x, scene (firstStart i x) = scene x)
    by (intros x; unfold firstStart, emit; break_ifs; reflexivity).
  assert (M : forall x, scene (exitMenu i x) = scene x)
    by (intros x; unfold exitMenu; break_ifs; reflexivity).
  assert (C : forall x, scene (focusCheck i x) = scene x)
    by (intros x; unfold focusCheck; break_ifs; reflexivity).
  assert (P : forall x, scene (pauseToggle G i x) = scene x)
    by (intros x; unfold pauseToggle; destruct (_ && _); reflexivity).
  assert (T : forall x, scene (snd (mobileTap G i x)) = scene x).
  { intros x. unfold mobileTap. destruct (_ && _); [|reflexivity].
    destruct (_ && _).
    - cbv zeta. destruct (CheckCollisionPointRec _ _); reflexivity.
    - destruct (_ && _); reflexivity. }
  unfold UpdateUI.
  destruct (EMSCRIPTEN_BUILD G).
  - cbv zeta. rewrite T, P, C, M, S. reflexivity.
  - destruct (exitRequest i g) as [g'|] eqn:E.
    + simpl. eapply X; eassumption.
    + cbv zeta. rewrite T, P, C, M, S, F. reflexivity.
Qed.

Lemma gameOverRestart_scene g :
  scene (gameOverRestart G i dt g) = scene g
  \/ (restartPressed i g = true
      /\ exists g', gameOverRestart G i dt g = Reset G i g').
Proof.
  unfold gameOverRestart, restartPressed.
  cbv zeta.
  match goal with
  | |- context [F32.leb (gameOverDelayTimer ?t) _] =>
      set (g3 := t);
      assert (K : scene g3 = scene g) by (subst g3; break_ifs; reflexivity)
  end.
  replace (isMobile g) with (isMobile g3)
    by (apply (scene_eq isMobile); [reflexivity|exact K]).
  destruct (F32.leb _ _); [|left; exact K].
  destruct (isMobile g3).
  - destruct (IsGestureDetected_TAP i); [right|left; exact K].
    split; [reflexivity|]. exists g3. reflexivity.
  - destruct (IsKeyPressed i KEY_ENTER); [right|left; exact K].
    split; [reflexivity|]. exists g3. reflexivity.
Qed.

Lemma simulate_scene_gameOver g1 g :
  scene g1 = scene g -> running g1 = true ->
  gameOver (simulate G i dt g1) = crashes G i dt g.
Proof.
  intros S R1. rewrite simulate_gameOver.
  assert (O : gameOver g1 = false).
  { unfold running in R1. destruct (gameOver g1); [|reflexivity].
    rewrite !andb_false_r in R1. discriminate. }
  rewrite O. simpl orb.
  pose proof (afterPhysics_hitView G i dt g1 R1) as V.
  assert (M : hitView (moved i dt g1) = hitView (moved i dt g)).
  { apply (scene_eq (fun x => hitView (moved i dt x))); [reflexivity|exact S]. }
  rewrite M in V.
  rewrite (checkBoundaryCollision_view _ _ _ V).
  rewrite (existsb_same _ _ _ (fun p => checkObstacleCollision_view _ _ _ _ p V)).
  destruct (scene_spawnView g1 g S) as (SV & L & P & D).
  rewrite (spawned_view G i dt g1 g SV P D).
  replace (pipes g1) with (pipes g) by (unfold spawnView in SV; congruence).
  rewrite (map_ext _ _ (fun p => stepPipe_view dt _ _ p
                                   (loopView_UpdatePipeSpeed G dt g1 g L))).
  rewrite (scene_eq collisionBoxWidth g1 g (fun _ => eq_refl) S).
  rewrite (scene_eq collisionBoxHeight g1 g (fun _ => eq_refl) S).
  reflexivity.
Qed.
Lemma simulate_scene_score g1 g :
  scene g1 = scene g -> Int32.in_range (score g) ->
  score (simulate G i dt g1)
  = Int32.wrap (score g
                + Z.of_nat (crossings dt (UpdatePipeSpeed G dt g)
                              (pipes g ++ spawned G i dt g))).
Proof.
  intros S I.
  assert (S1 : score g1 = score g)
    by (apply (scene_eq score); [reflexivity|exact S]).
  rewrite simulate_score by (rewrite S1; exact I).
  destruct (scene_spawnView g1 g S) as (SV & L & P & D).
  rewrite (spawned_view G i dt g1 g SV P D), S1.
  replace (pipes g1) with (pipes g) by (unfold spawnView in SV; congruence).
  rewrite (crossings_view dt _ _ _ (loopView_UpdatePipeSpeed G dt g1 g L)).
  reflexivity.
Qed.

Lemma simulate_scene_pipes g1 g :
  scene g1 = scene g ->
  pipes (simulate G i dt g1)
  = filter (onScreen g)
      (map (stepPipe dt (UpdatePipeSpeed G dt g)) (pipes g ++ spawned G i dt g)).
Proof.
  intros S. rewrite simulate_pipes_of.
  destruct (scene_spawnView g1 g S) as (V & L & P & D).
  rewrite (spawned_view G i dt g1 g V P D).
  replace (pipes g1) with (pipes g) by (unfold spawnView in V; congruence).
  assert (W : forall p, onScreen g1 p = onScreen g p).
  { intros p. unfold onScreen. unfold loopView in L.
    replace (pipeWidth g1) with (pipeWidth g) by congruence. reflexivity. }
  rewrite (filter_ext _ _ W). f_equal. apply map_ext. intros p.
  apply stepPipe_view, loopView_UpdatePipeSpeed, L.
Qed.

(** A frame that [UpdateUI] does not skip and leaves running is the
    simulation of the game as it entered the frame, but for what the
    user interface, the scrolling and the music stream wrote, followed,
    when the simulation ends the game, by the final block: this one
    writes its countdown only, unless the restart input is given and
    the frame ends in [Reset]. *)
Lemma Update_running_frame g :
  F32.eqb dt F32.zero = false ->
  fst (UpdateUI G i (setScreenScale G i g)) = false ->
  running (snd (UpdateUI G i (setScreenScale G i g))) = true ->
  exists g1,
    scene g1 = scene g /\ running g1 = true
    /\ (scene (Update G i dt g) = scene (simulate G i dt g1)
        \/ (crashes G i dt g = true
            /\ restartPressed i g = true
            /\ exists g', Update G i dt g = Reset G i g')).
Proof.
  intros Z K R. unfold Update. rewrite Z. cbv zeta.
  pose proof (UpdateUI_scene (setScreenScale G i g)) as S.
  rewrite setScreenScale_scene in S.
  destruct (UpdateUI G i (setScreenScale G i g)) as [skip g0].
  simpl in K, R, S. subst skip.
  destruct (advance_running G i dt g0 R) as (g1 & E & S1 & R1).
  exists g1. split; [congruence|]. split; [exact R1|].
  unfold frame. rewrite E.
  destruct (gameOver (simulate G i dt g1)) eqn:O; [|left; reflexivity].
  destruct (gameOverRestart_scene (simulate G i dt g1)) as [H|[P H]].
  - left. exact H.
  - right. split; [rewrite <- O; symmetry;
                    apply simulate_scene_gameOver; [congruence|exact R1]|].
    split; [|exact H].
    rewrite <- P. unfold restartPressed.
    replace (isMobile (simulate G i dt g1)) with (isMobile g); [reflexivity|].
    pose proof (simulate_config G i dt g1) as C. unfold config in C.
    transitivity (isMobile g1).
    + symmetry. apply (scene_eq isMobile); [reflexivity|congruence].
    + congruence.
Qed.
(** The score and the pipes at the end of a frame that [UpdateUI] does
    not skip and leaves running. *)
Lemma Update_running_points g :
  F32.eqb dt F32.zero = false ->
  fst (UpdateUI G i (setScreenScale G i g)) = false ->
  running (snd (UpdateUI G i (setScreenScale G i g))) = true ->
  Int32.in_range (score g) ->
  (score (Update G i dt g)
   = Int32.wrap (score g
                 + Z.of_nat (crossings dt (UpdatePipeSpeed G dt g)
                               (pipes g ++ spawned G i dt g)))
   /\ pipes (Update G i dt g)
      = filter (onScreen g)
          (map (stepPipe dt (UpdatePipeSpeed G dt g))
               (pipes g ++ spawned G i dt g)))
  \/ (restartPressed i g = true
      /\ exists g', Update G i dt g = Reset G i g').
Proof.
  intros Z K R I.
  destruct (Update_running_frame g Z K R) as (g1 & S & _ & [E|(_ & P & H)]).
  - left. split.
    + rewrite <- (simulate_scene_score g1 g S I).
      apply (scene_eq score); [reflexivity|exact E].
    + rewrite <- (simulate_scene_pipes g1 g S).
      apply (scene_eq pipes); [reflexivity|exact E].
  - right. split; assumption.
Qed.

Lemma movePipes_score bw bh g :
  Int32.in_range (score g) ->
  score (movePipes G dt bw bh g)
  = Int32.wrap (score g + Z.of_nat (crossings dt g (pipes g))).
Proof.
  intros I. rewrite <- (pipeLoop_score G dt bw bh (pipes g) g I).
  unfold movePipes. destruct (pipeLoop G dt bw bh g (pipes g)). reflexivity.
Qed.

Lemma simulate_scene_body g1 g :
  scene g1 = scene g -> running g1 = true ->
  body (simulate G i dt g1) = (nextY i dt g, nextVelocity i dt g).
Proof.
  intros S R1. rewrite simulate_body, physics_body.
  destruct (UpdatePipeSpeed_body G dt (HandleInput G i g1)) as [B Gr].
  destruct (HandleInput_body G i g1 R1) as [B1 Gr1].
  unfold body in B, B1.
  replace (playerY (UpdatePipeSpeed G dt (HandleInput G i g1)))
    with (playerY g1) by congruence.
  replace (playerVelocity (UpdatePipeSpeed G dt (HandleInput G i g1)))
    with (if flapPressed i g1 then jumpForce g1 else playerVelocity g1)
    by congruence.
  rewrite Gr, Gr1. unfold nextY, nextVelocity.
  rewrite (scene_eq playerY g1 g (fun _ => eq_refl) S).
  rewrite (scene_eq gravity g1 g (fun _ => eq_refl) S).
  rewrite (scene_eq (flapPressed i) g1 g (fun _ => eq_refl) S).
  rewrite (scene_eq jumpForce g1 g (fun _ => eq_refl) S).
  rewrite (scene_eq playerVelocity g1 g (fun _ => eq_refl) S).
  reflexivity.
Qed.
End FrameOfUpdate.


(** * The ramp of the pipe speed *)

Lemma leb_finite_refl m e :
  F32.leb (S754_finite false m e) (S754_finite false m e) = true.
Proof.
  unfold F32.leb, SFleb. cbn [SFcompare]. rewrite Z.compare_refl.
  rewrite Pos.compare_cont_spec, Pos.compare_refl. reflexivity.
Qed.

Lemma gtb_false_leb a b :
  F32.is_positive a = true -> F32.is_positive b = true ->
  F32.gtb a b = false -> F32.leb a b = true.
Proof.
  destruct a as [| | |[] ma ea]; try discriminate.
  destruct b as [| | |[] mb eb]; try discriminate. intros _ _.
  unfold F32.gtb, F32.ltb, F32.leb, SFltb, SFleb.
  rewrite (SFcompare_antisym (S754_finite false ma ea) (S754_finite false mb eb)).
  cbn [SFcompare]. destruct (ea ?= eb); cbn; try reflexivity; try discriminate.
  destruct (Pos.compare_cont Eq ma mb); cbn; try reflexivity; discriminate.
Qed.

Lemma leb_finite_trans a b c :
  F32.is_positive a = true -> F32.is_positive b = true ->
  F32.is_positive c = true ->
  F32.leb a b = true -> F32.leb b c = true -> F32.leb a c = true.
Proof.
  destruct a as [| | |[] ma ea]; try discriminate.
  destruct b as [| | |[] mb eb]; try discriminate.
  destruct c as [| | |[] mc ec]; try discriminate. intros _ _ _.
  unfold F32.leb, SFleb. cbn [SFcompare].
  rewrite !Pos.compare_cont_spec. cbn [Pos.switch_Eq].
  destruct (Z.compare_spec ea eb), (Z.compare_spec eb ec),
    (Z.compare_spec ea ec); try discriminate; try reflexivity; try lia.
  destruct (Pos.compare_spec ma mb), (Pos.compare_spec mb mc),
    (Pos.compare_spec ma mc); try discriminate; try reflexivity; lia.
Qed.

Section Ramp.
Variable G : Globals.
Hypothesis ramp : rampOK G = true.

(** The increment of a tick is zero, a positive float or the positive
    infinity. *)
Lemma increment_cases dt :
  F32.leb F32.zero dt = true ->
  (exists s, F32.mul (pipeSpeedIncrease G) dt = S754_zero s)
  \/ F32.mul (pipeSpeedIncrease G) dt = S754_infinity false
  \/ exists m e, F32.mul (pipeSpeedIncrease G) dt = S754_finite false m e.
Proof.
  unfold rampOK in ramp. apply andb_true_iff in ramp. destruct ramp as [R _].
  apply andb_true_iff in R. destruct R as [R _].
  destruct (pipeSpeedIncrease G) as [| | |[] mi ei]; try discriminate.
  destruct dt as [s|[]| |[] md ed]; try discriminate; intros _.
  - left. eexists. reflexivity.
  - right. left. reflexivity.
  - unfold F32.mul. cbn [SFmul xorb].
    pose proof (binary_round_aux_sign F32.prec F32.emax false (mi * md) (ei + ed))
      as S.
    destruct (binary_round_aux F32.prec F32.emax false (Z.pos (mi * md))
                (ei + ed) loc_Exact) as [s|s| |s m e]; try contradiction;
      subst s.
    + left. eexists. reflexivity.
    + right. left. reflexivity.
    + right. right. eexists. eexists. reflexivity.
Qed.

(** One tick: the speed does not go down and stays on the ramp. *)
Lemma UpdatePipeSpeed_ramp dt g :
  rampSpeed G (pipeSpeed g) = true -> F32.leb F32.zero dt = true ->
  F32.leb (pipeSpeed g) (pipeSpeed (UpdatePipeSpeed G dt g)) = true
  /\ rampSpeed G (pipeSpeed (UpdatePipeSpeed G dt g)) = true.
Proof.
  intros S D. rewrite UpdatePipeSpeed_pipeSpeed.
  pose proof ramp as R. unfold rampOK in R.
  apply andb_true_iff in R. destruct R as [R Vm].
  apply andb_true_iff in R. destruct R as [_ Pm].
  unfold rampSpeed in S. apply andb_true_iff in S. destruct S as [S Cs].
  apply andb_true_iff in S. destruct S as [Ps Vs].
  apply negb_true_iff in Cs.
  assert (Max : F32.leb (pipeSpeed g) (maxSpeed G) = true
                /\ rampSpeed G (maxSpeed G) = true).
  { split; [apply gtb_false_leb; assumption|].
    unfold rampSpeed. rewrite Pm, Vm. unfold F32.gtb. rewrite ltb_irrefl.
    reflexivity. }
  assert (Same : F32.leb (pipeSpeed g) (pipeSpeed g) = true
                 /\ rampSpeed G (pipeSpeed g) = true).
  { split.
    - destruct (pipeSpeed g) as [| | |[] ms es]; try discriminate.
      apply leb_finite_refl.
    - unfold rampSpeed. rewrite Ps, Vs, Cs. reflexivity. }
  destruct (increment_cases dt D) as [[s E]|[E|(mp & ep & E)]]; rewrite E.
  - (* nothing is added *)
    assert (A : F32.add (pipeSpeed g) (S754_zero s) = pipeSpeed g).
    { destruct (pipeSpeed g) as [| | |[] ms es]; try discriminate.
      reflexivity. }
    rewrite A, Cs. exact Same.
  - (* the sum is infinite *)
    assert (A : F32.add (pipeSpeed g) (S754_infinity false)
                = S754_infinity false).
    { destruct (pipeSpeed g) as [| | |[] ms es]; try discriminate.
      reflexivity. }
    rewrite A.
    assert (I : F32.gtb (S754_infinity false) (maxSpeed G) = true).
    { destruct (maxSpeed G) as [| | |[] mm em]; try discriminate.
      reflexivity. }
    rewrite I. exact Max.
  - destruct (pipeSpeed g) as [| | |[] ms es] eqn:Es; try discriminate.
    unfold F32.valid in Vs. cbn [valid_binary] in Vs.
    destruct (SFadd_positive F32.prec F32.emax ltac:(reflexivity) ms es mp ep Vs)
      as [I|(m & e & A & B & L)]; unfold F32.add.
    + rewrite I.
      assert (J : F32.gtb (S754_infinity false) (maxSpeed G) = true).
      { destruct (maxSpeed G) as [| | |[] mm em]; try discriminate.
        reflexivity. }
      rewrite J. rewrite <- Es. rewrite Es. exact Max.
    + rewrite A.
      destruct (F32.gtb (S754_finite false m e) (maxSpeed G)) eqn:C;
        [exact Max|].
      split; [exact L|].
      unfold rampSpeed, F32.valid. cbn [F32.is_positive valid_binary].
      rewrite B, C. reflexivity.
Qed.
End Ramp.

Section RampOfUpdate.
Variable G : Globals.
Variable i : Input.
Variable dt : float.

Lemma UpdatePipeSpeed_same_speed g1 g :
  pipeSpeed g1 = pipeSpeed g ->
  pipeSpeed (UpdatePipeSpeed G dt g1) = pipeSpeed (UpdatePipeSpeed G dt g).
Proof. intros E. rewrite !UpdatePipeSpeed_pipeSpeed, E. reflexivity. Qed.

Lemma advance_ramp g :
  pipeSpeed (advance G i dt g)
  = if running g then pipeSpeed (UpdatePipeSpeed G dt g) else pipeSpeed g.
Proof.
  destruct (running g) eqn:R.
  - destruct (advance_running G i dt g R) as (g1 & E & S & _).
    rewrite E, simulate_pipeSpeed. apply UpdatePipeSpeed_same_speed.
    pose proof (HandleInput_speeds G i g1) as H. unfold speeds in H.
    transitivity (pipeSpeed g1); [congruence|].
    apply (scene_eq pipeSpeed); [reflexivity|exact S].
  - unfold advance. rewrite R. cbv zeta. destruct (musicPlaying g); reflexivity.
Qed.

(** What a frame does to the pipe speed: nothing, a tick of the
    difficulty controller, or the return to the base speed of a
    restart. *)
Lemma Update_ramp_cases g :
  pipeSpeed (Update G i dt g) = pipeSpeed g
  \/ pipeSpeed (Update G i dt g) = pipeSpeed (UpdatePipeSpeed G dt g)
  \/ (pipeSpeed (Update G i dt g) = basePipeSpeed g
      /\ exists g', Update G i dt g = Reset G i g').
Proof.
  pose proof (Update_config G i dt g) as C.
  unfold Update in *. destruct (F32.eqb dt F32.zero); [left; reflexivity|].
  cbv zeta in *.
  pose proof (UpdateUI_kept G i (setScreenScale G i g)) as K.
  rewrite setScreenScale_kept in K.
  destruct (UpdateUI G i (setScreenScale G i g)) as [skip g1]. simpl in K.
  assert (P1 : pipeSpeed g1 = pipeSpeed g) by (unfold kept, sim in K; congruence).
  destruct skip; [left; exact P1|]. unfold frame in *. cbv zeta in *.
  pose proof (advance_ramp g1) as A.
  rewrite (UpdatePipeSpeed_same_speed g1 g P1), P1 in A.
  destruct (gameOver (advance G i dt g1)).
  - destruct (gameOverRestart_scene G i dt (advance G i dt g1)) as [S|[_ [g' R]]].
    + rewrite (scene_eq pipeSpeed _ _ (fun _ => eq_refl) S), A.
      destruct (running g1); [right; left|left]; reflexivity.
    + right. right. split; [|exists g'; exact R].
      rewrite R in *. destruct (Reset_fields G i g') as (_ & P & _).
      rewrite P. pose proof (Reset_config G i g') as C'.
      unfold config in C, C'. congruence.
  - rewrite A. destruct (running g1); [right; left|left]; reflexivity.
Qed.

Hypothesis ramp : rampOK G = true.

Lemma Update_onRamp g :
  onRamp G g = true -> F32.leb F32.zero dt = true ->
  onRamp G (Update G i dt g) = true
  /\ (F32.leb (pipeSpeed g) (pipeSpeed (Update G i dt g)) = true
      \/ exists g', Update G i dt g = Reset G i g').
Proof.
  intros O D. unfold onRamp in *. apply andb_true_iff in O. destruct O as [S B].
  pose proof (Update_config G i dt g) as C.
  assert (Eb : basePipeSpeed (Update G i dt g) = basePipeSpeed g)
    by (unfold config in C; congruence).
  rewrite Eb, B, andb_true_r.
  destruct (UpdatePipeSpeed_ramp G ramp dt g S D) as [L R].
  assert (Same : F32.leb (pipeSpeed g) (pipeSpeed g) = true).
  { unfold rampSpeed in S. apply andb_true_iff in S. destruct S as [S _].
    apply andb_true_iff in S. destruct S as [S _].
    destruct (pipeSpeed g) as [| | |[] ms es]; try discriminate.
    apply leb_finite_refl. }
  destruct (Update_ramp_cases g) as [E|[E|[E X]]]; rewrite E.
  - split; [exact S|left; exact Same].
  - split; [exact R|left; exact L].
  - split; [exact B|right; exact X].
Qed.
End RampOfUpdate.

Section RampOfRun.
Variable G : Globals.
Hypothesis ramp : rampOK G = true.

Lemma rampSpeed_positive a : rampSpeed G a = true -> F32.is_positive a = true.
Proof.
  unfold rampSpeed. intros H. apply andb_true_iff in H. destruct H as [H _].
  apply andb_true_iff in H. destruct H as [H _]. exact H.
Qed.

Lemma ticks_ramp dts :
  forall g,
    rampSpeed G (pipeSpeed g) = true ->
    forallb (F32.leb F32.zero) dts = true ->
    F32.leb (pipeSpeed g) (pipeSpeed (ticks G dts g)) = true
    /\ rampSpeed G (pipeSpeed (ticks G dts g)) = true.
Proof.
  induction dts as [|dt dts IH]; intros g S D.
  - split; [|exact S]. pose proof (rampSpeed_positive _ S) as P. simpl.
    destruct (pipeSpeed g) as [| | |[] ms es]; try discriminate.
    apply leb_finite_refl.
  - simpl in D. apply andb_true_iff in D. destruct D as [D1 D2].
    destruct (UpdatePipeSpeed_ramp G ramp dt g S D1) as [L R].
    destruct (IH (UpdatePipeSpeed G dt g) R D2) as [L' R'].
    split; [|exact R'].
    apply (leb_finite_trans _ (pipeSpeed (UpdatePipeSpeed G dt g)));
      auto using rampSpeed_positive.
Qed.

Lemma play_onRamp frames :
  forall g,
    onRamp G g = true ->
    forallb (fun f => F32.leb F32.zero (snd f)) frames = true ->
    onRamp G (play G frames g) = true.
Proof.
  induction frames as [|[i dt] frames IH]; intros g O D; [exact O|].
  simpl in D. apply andb_true_iff in D. destruct D as [D1 D2].
  simpl. apply IH; [|exact D2]. apply Update_onRamp; assumption.
Qed.

Lemma ctor_onRamp this i mobile file bg w h :
  rampSpeed G (defaultPipeSpeed G) = true ->
  onRamp G (Game_ctor G this i mobile file bg w h) = true.
Proof.
  intros H. unfold onRamp.
  destruct (ctor_player G this i mobile file bg w h)
    as (_ & _ & _ & _ & _ & P & B).
  rewrite P, B, H. reflexivity.
Qed.
End RampOfRun.

(** * The claims *)

(** C2: the scoring test, on one pipe and in a frame.  When the player
    is strictly beyond the right edge of the pipe and the pipe is not
    yet scored, the score grows by exactly one and the pipe is flagged;
    a flagged pipe, or a pipe not yet passed, leaves the game and the
    pipe as they are, so that a repeated test changes nothing; and a
    frame never lowers the score unless it ends in [Reset], which starts
    the next run.  (The increment of a score of [INT_MAX] is undefined
    in C++ and excluded.)  The pipe loop applies the test to every pipe
    of the game, once it has moved it, and stores the flag in the pipe:
    the pipes come out moved and flagged, and the score grows by the
    number of pipes that the loop flags; a pipe is flagged by the loop
    when it was not flagged and the player is beyond its new right edge,
    and a flagged pipe stays flagged, so that no later frame counts it
    again.  A frame that the user interface does not hold does this
    to the pipes of the game and to the pipe that it spawns, unless it
    ends in [Reset]. *)
Theorem score_once_per_pipe G g pipe :
  (passed g pipe -> Pipe.scored pipe = false ->
   Int32.INT_MIN <= score g < Int32.INT_MAX ->
   score (fst (scorePipe G g pipe)) = score g + 1
   /\ Pipe.scored (snd (scorePipe G g pipe)) = true)
  /\ (Pipe.scored pipe = true -> scorePipe G g pipe = (g, pipe))
  /\ (~ passed g pipe -> scorePipe G g pipe = (g, pipe))
  /\ scorePipe G (fst (scorePipe G g pipe)) (snd (scorePipe G g pipe))
     = scorePipe G g pipe
  /\ (forall i dt,
        Int32.INT_MIN <= score g ->
        score g + Z.of_nat (length (pipes g)) < Int32.INT_MAX ->
        score g <= score (Update G i dt g)
        \/ exists g', Update G i dt g = Reset G i g')
  /\ (forall dt boxWidth boxHeight,
        pipes (movePipes G dt boxWidth boxHeight g)
        = map (stepPipe dt g) (pipes g)
        /\ (Int32.in_range (score g) ->
            score (movePipes G dt boxWidth boxHeight g)
            = Int32.wrap (score g + Z.of_nat (crossings dt g (pipes g)))))
  /\ (forall dt g',
        crossing dt g' pipe
        = negb (Pipe.scored pipe)
          && F32.gtb (playerX g')
               (F32.add (F32.sub (Pipe.x pipe) (F32.mul (pipeSpeed g') dt))
                        (pipeWidth g'))
        /\ (Pipe.scored pipe = true ->
            Pipe.scored (stepPipe dt g' pipe) = true))
  /\ (forall i dt,
        F32.eqb dt F32.zero = false ->
        fst (UpdateUI G i (setScreenScale G i g)) = false ->
        running (snd (UpdateUI G i (setScreenScale G i g))) = true ->
        Int32.in_range (score g) ->
        (score (Update G i dt g)
         = Int32.wrap (score g
                       + Z.of_nat (crossings dt (UpdatePipeSpeed G dt g)
                                     (pipes g ++ spawned G i dt g)))
         /\ pipes (Update G i dt g)
            = filter (onScreen g)
                (map (stepPipe dt (UpdatePipeSpeed G dt g))
                     (pipes g ++ spawned G i dt g)))
        \/ (restartPressed i g = true
            /\ exists g', Update G i dt g = Reset G i g')).
Proof.
  assert (Flagged : forall g0 p0, Pipe.scored p0 = true ->
                                  scorePipe G g0 p0 = (g0, p0)).
  { intros g0 p0 H. unfold scorePipe. rewrite H, andb_false_r. reflexivity. }
  split; [|split; [|split; [|split; [|split; [|split; [|split]]]]]].
  - intros P S [L U].
    destruct (scorePipe_cases G g pipe) as [(_ & _ & E & _ & F)|[C _]].
    + rewrite E, F, wrap_in_range; [split; reflexivity|].
      unfold Int32.in_range. lia.
    + unfold passed, flt in P. unfold F32.gtb in C. rewrite P, S in C.
      discriminate.
  - apply Flagged.
  - intros N.
    destruct (scorePipe_cases G g pipe) as [(C & _)|[_ E]]; [|exact E].
    elim N. exact C.
  - destruct (scorePipe_cases G g pipe) as [(_ & _ & _ & _ & F)|[_ E]].
    + rewrite (Flagged (fst (scorePipe G g pipe)) (snd (scorePipe G g pipe))).
      * destruct (scorePipe G g pipe); reflexivity.
      * rewrite F. reflexivity.
    + rewrite E. exact E.
  - intros i dt. apply Update_score_mono.
  - intros dt bw bh. split; [apply movePipes_pipes|apply movePipes_score].
  - intros dt g'. unfold crossing, stepPipe. cbv zeta. cbn [Pipe.scored].
    split; [destruct (Pipe.scored pipe); reflexivity|].
    intros S. rewrite S. reflexivity.
  - intros i dt. apply Update_running_points.
Qed.

(** C3: the tick of the difficulty controller adds [rate * dt] to the
    pipe speed and replaces the sum by the maximum when it is above it,
    so that the speed is never above the maximum after a tick.  With a
    positive rate and a positive maximum, whatever the sequence of ticks
    with [dt >= 0] from a speed that is a positive float not above the
    maximum, the speed after the ticks is not below the speed before
    them, in the order of binary32, and is again such a float; this
    holds after each tick.  A frame with [dt >= 0] does not lower the
    speed either, unless it ends in [Reset], which returns to the base
    speed; and when the default speed is such a float, so are the pipe
    speed and the base speed in every state that frames with [dt >= 0]
    reach from the constructor.  (The rate, the maximum and the default
    speed are constants of [game.h].) *)
Theorem speed_ramps_to_maximum G :
  rampOK G = true ->
  (forall dt g,
      pipeSpeed (UpdatePipeSpeed G dt g)
      = if F32.gtb (F32.add (pipeSpeed g) (F32.mul (pipeSpeedIncrease G) dt))
                   (maxSpeed G)
        then maxSpeed G
        else F32.add (pipeSpeed g) (F32.mul (pipeSpeedIncrease G) dt))
  /\ (forall dt g,
        F32.gtb (pipeSpeed (UpdatePipeSpeed G dt g)) (maxSpeed G) = false)
  /\ (forall dt g,
        rampSpeed G (pipeSpeed g) = true -> F32.leb F32.zero dt = true ->
        F32.leb (pipeSpeed g) (pipeSpeed (UpdatePipeSpeed G dt g)) = true
        /\ rampSpeed G (pipeSpeed (UpdatePipeSpeed G dt g)) = true)
  /\ (forall dts g,
        rampSpeed G (pipeSpeed g) = true ->
        forallb (F32.leb F32.zero) dts = true ->
        F32.leb (pipeSpeed g) (pipeSpeed (ticks G dts g)) = true
        /\ rampSpeed G (pipeSpeed (ticks G dts g)) = true)
  /\ (forall i dt g,
        onRamp G g = true -> F32.leb F32.zero dt = true ->
        onRamp G (Update G i dt g) = true
        /\ (F32.leb (pipeSpeed g) (pipeSpeed (Update G i dt g)) = true
            \/ exists g', Update G i dt g = Reset G i g'))
  /\ (forall this i mobile file bg w h frames,
        rampSpeed G (defaultPipeSpeed G) = true ->
        forallb (fun f => F32.leb F32.zero (snd f)) frames = true ->
        onRamp G (play G frames (Game_ctor G this i mobile file bg w h))
        = true).
Proof.
  intros R. split; [|split; [|split; [|split; [|split]]]].
  - intros dt g. apply UpdatePipeSpeed_pipeSpeed.
  - intros dt g. apply UpdatePipeSpeed_clamped.
  - intros dt g. apply UpdatePipeSpeed_ramp, R.
  - intros dts g. apply ticks_ramp, R.
  - intros i dt g. apply Update_onRamp, R.
  - intros this i mobile file bg w h frames D F.
    apply play_onRamp; [exact R| |exact F]. apply ctor_onRamp, D.
Qed.

(** C6, as amended: the mode that freezes a frame is the one left by the
    user-interface step of that very frame.  If a flag is set at that
    point, the player, the pipes, the score and the pipe speed come out
    of [Update] unchanged, except when the game is over and the restart
    input is given: the frame then ends in [Reset]. *)
Theorem blocked_frame_keeps_simulation G i dt g :
  running (snd (UpdateUI G i (setScreenScale G i g))) = false ->
  sim (Update G i dt g) = sim g
  \/ (gameOver g = true /\ restartPressed i g = true
      /\ sim (Update G i dt g) = sim (Reset G i g)).
Proof.
  intros H. unfold Update.
  destruct (F32.eqb dt F32.zero); [left; reflexivity|]. cbv zeta.
  pose proof (UpdateUI_kept G i (setScreenScale G i g)) as K.
  rewrite setScreenScale_kept in K.
  destruct (UpdateUI G i (setScreenScale G i g)) as [skip g1]. simpl in *.
  destruct skip.
  - left. apply kept_sim, K.
  - destruct (frame_blocked G i dt g1 H) as [E|(Hg & R & E)].
    + left. rewrite E. apply kept_sim, K.
    + right. unfold kept in K. split; [congruence|]. split.
      * unfold restartPressed in *. replace (isMobile g) with (isMobile g1) by congruence. exact R.
      * rewrite E, !sim_Reset. congruence.
Qed.

(** C7 fails on the code.  [Reset] zeroes the score, restores the base
    speed, empties the pipes, puts the player back where the constructor
    put it, clears the paused, focus-lost, exit-menu and game-over flags
    and keeps the high score and the manual music choice: so far the
    claim.  But [InitGame] clears the exit-menu flag without the exit
    request that [UpdateUI] sets together with it, and [Reset] leaves
    the request as it is.  Here a game is over, Escape asks to leave and
    Enter restarts the game: the frame ends in [Reset], the new run is
    running with the request still pending, the exit question is drawn
    over it and the pause key does nothing. *)
Theorem Reset_keeps_exit_request :
  (forall G this i0 mobile file bg i g,
      let g' := Reset G i g in
      let born := Game_ctor G this i0 mobile file bg (width g) (height g) in
      score g' = 0
      /\ pipeSpeed g' = basePipeSpeed g
      /\ pipes g' = []
      /\ playerX g' = playerX born /\ playerY g' = playerY born
      /\ playerVelocity g' = playerVelocity born
      /\ paused g' = false /\ lostWindowFocus g' = false
      /\ isInExitMenu g' = false /\ gameOver g' = false
      /\ highScore g' = highScore g
      /\ musicManuallyDisabled g' = musicManuallyDisabled g
      /\ exitWindowRequested g' = exitWindowRequested g)
  /\ gameOver Scenes.asking = true
  /\ isInExitMenu Scenes.asking = true
  /\ exitWindowRequested Scenes.asking = true
  /\ Scenes.restarted
     = Reset Sample.globals (Sample.press KEY_ENTER 0)
         (advance Sample.globals (Sample.press KEY_ENTER 0) Sample.dt60
            (snd (UpdateUI Sample.globals (Sample.press KEY_ENTER 0)
                    (setScreenScale Sample.globals
                       (Sample.press KEY_ENTER 0) Scenes.asking))))
  /\ running Scenes.restarted = true
  /\ isInExitMenu Scenes.restarted = false
  /\ exitWindowRequested Scenes.restarted = true
  /\ (forall MeasureText yellow,
        boxes (DrawUI Sample.globals MeasureText yellow Scenes.restarted)
        = 1%nat)
  /\ paused (Update Sample.globals (Sample.press KEY_P 0) Sample.dt60
                    Scenes.restarted) = false.
Proof.
  split.
  - intros G this i0 mobile file bg i g g' born. subst g' born.
    destruct (Reset_fields G i g) as (F1 & F2 & F3 & F4 & F5 & F6 & F7 & F8).
    destruct (Reset_flags G i g) as (P1 & P2 & P3 & P4 & P5).
    destruct (ctor_player G this i0 mobile file bg (width g) (height g))
      as (B1 & B2 & B3 & _).
    rewrite B1, B2, B3. repeat split; try assumption.
    pose proof (Reset_exitView G i g) as V. unfold exitView in V. congruence.
  - do 7 (split; [vm_compute; reflexivity|]).
    split; [|vm_compute; reflexivity].
    intros MeasureText yellow. rewrite boxes_DrawUI. reflexivity.
Qed.

(** C8: a frame with [dt == 0] returns the game as it received it. *)
Theorem Update_dt_zero_is_identity G i dt g :
  F32.eqb dt F32.zero = true -> Update G i dt g = g.
Proof. intros H. unfold Update. rewrite H. reflexivity. Qed.

(** C10, as amended: the score never exceeds the high score, provided
    the high score is not negative.  One frame keeps the bound when the
    high score is not negative on its entry, and so does every sequence
    of frames played from the constructor when the high score stored in
    the file, if there is one, is not negative. *)
Theorem highScore_bounds_score G :
  (forall i dt g,
      score g <= highScore g -> 0 <= highScore g ->
      score (Update G i dt g) <= highScore (Update G i dt g))
  /\ (forall this i0 mobile file bg w h frames,
        match file with Some v => 0 <= v | None => True end ->
        score (play G frames (Game_ctor G this i0 mobile file bg w h))
        <= highScore (play G frames (Game_ctor G this i0 mobile file bg w h))).
Proof.
  split.
  - intros i dt g H1 H2. apply Update_scoreInv. split; assumption.
  - intros this i0 mobile file bg w h frames H.
    apply play_scoreInv, ctor_scoreInv, H.
Qed.

Section Product.
Import Reals.

(** C5 fails on the code.  Every tick of the difficulty controller sets
    the spawn interval to the quotient of the spawn distance by the new
    speed and the scroll speed to the product of the new speed by
    [0.2f], in binary32, and the constructor sets the scroll speed from
    the base speed in the same way; the spawn distance is the product of
    the default speed by the default interval, written by the
    constructor only.  The product of the interval by the speed is the
    spawn distance up to the rounding of the quotient: as real numbers,
    and as long as the distance and the speed are positive and the
    interval is a normal float, they differ by less than the fraction
    [2 ^ -23] of the product.  But [Reset] puts the pipe speed back to
    the base speed and leaves the scroll speed.  Here a game crashes at
    a speed above 210 and is restarted: the pipe speed is 200, of which
    20% is 40, the scroll speed is still above 42, and the first frame of
    the new run, which scrolls before it ticks, moves the background by
    the old scroll speed. *)
Theorem Reset_keeps_scroll_speed :
  (forall G dt g,
      let g' := UpdatePipeSpeed G dt g in
      pipeSpawnInterval g' = F32.div (initialPipeDistance g) (pipeSpeed g')
      /\ backgroundScrollSpeed g' = F32.mul (pipeSpeed g') F32.lit_0_2
      /\ initialPipeDistance g' = initialPipeDistance g
      /\ (forall i dt', initialPipeDistance (Update G i dt' g)
                        = initialPipeDistance g)
      /\ (F32.is_positive (initialPipeDistance g) = true ->
          F32.is_positive (pipeSpeed g') = true ->
          F32.is_normal (pipeSpawnInterval g') = true ->
          (Rabs (F32.value (pipeSpawnInterval g') * F32.value (pipeSpeed g')
                 - F32.value (initialPipeDistance g))
           < F32.value (pipeSpawnInterval g') * F32.value (pipeSpeed g')
             * powerRZ 2 (-23))%R))
  /\ (forall G this i0 mobile file bg w h,
        let born := Game_ctor G this i0 mobile file bg w h in
        initialPipeDistance born
        = F32.mul (defaultPipeSpeed G) (defaultPipeSpawnInterval G)
        /\ backgroundScrollSpeed born = F32.mul (pipeSpeed born) F32.lit_0_2)
  /\ (forall G i g,
        pipeSpeed (Reset G i g) = basePipeSpeed g
        /\ backgroundScrollSpeed (Reset G i g) = backgroundScrollSpeed g)
  /\ F32.gtb (pipeSpeed Scenes.crashedRun) (F32.of_int 210) = true
  /\ running Scenes.secondRun = true
  /\ pipeSpeed Scenes.secondRun = F32.of_int 200
  /\ F32.mul (pipeSpeed Scenes.secondRun) F32.lit_0_2 = F32.of_int 40
  /\ backgroundScrollSpeed Scenes.secondRun
     = backgroundScrollSpeed Scenes.crashedRun
  /\ F32.gtb (backgroundScrollSpeed Scenes.secondRun) (F32.of_int 42) = true
  /\ backgroundScrollX (Update Sample.globals (Sample.idle 0) Sample.dt60
                               Scenes.secondRun)
     = F32.add (backgroundScrollX Scenes.secondRun)
               (F32.mul (backgroundScrollSpeed Scenes.crashedRun) Sample.dt60)
  /\ F32.eqb (backgroundScrollX (Update Sample.globals (Sample.idle 0)
                                        Sample.dt60 Scenes.secondRun))
             (F32.add (backgroundScrollX Scenes.secondRun)
                      (F32.mul (F32.of_int 40) Sample.dt60)) = false.
Proof.
  split; [|split; [|split]].
  - intros G dt g g'. subst g'.
    assert (I : pipeSpawnInterval (UpdatePipeSpeed G dt g)
                = F32.div (initialPipeDistance g)
                          (pipeSpeed (UpdatePipeSpeed G dt g)))
      by (unfold UpdatePipeSpeed; cbv zeta; destruct (F32.gtb _ _); reflexivity).
    split; [exact I|]. split; [|split; [|split]].
    + unfold UpdatePipeSpeed. cbv zeta. destruct (F32.gtb _ _); reflexivity.
    + unfold UpdatePipeSpeed. cbv zeta. destruct (F32.gtb _ _); reflexivity.
    + intros i dt'. pose proof (Update_config G i dt' g) as C.
      unfold config in C. congruence.
    + rewrite I. apply div_product.
  - intros G this i0 mobile file bg w h born. subst born.
    unfold Game_ctor, InitGame, LoadHighScore. cbv zeta.
    destruct (EMSCRIPTEN G); [|destruct file]; split; reflexivity.
  - intros G i g. open_game g.
    destruct _musicManuallyDisabled; split; reflexivity.
  - do 7 (split; [vm_compute; reflexivity|]). vm_compute. reflexivity.
Qed.
End Product.

(** C6 as stated fails: the game is paused, the frame brings the pause
    key, and the player and the pipes move in that same frame. *)
Lemma blocked_frame_counterexample :
  blocked Sample.pausedGame = true
  /\ sim (Update Sample.globals (Sample.press KEY_P 0) Sample.dt60
                 Sample.pausedGame)
     <> sim Sample.pausedGame.
Proof. split; [reflexivity|]. vm_compute. intros H. discriminate H. Qed.

(** C10 as stated fails: the file holds -5, the constructor loads it,
    and the frame that starts the game ends with a score of 0 above the
    high score of -5. *)
Lemma highScore_below_score_counterexample :
  highScore (Scenes.born (Some (-5))) = -5
  /\ highScore (Update Sample.globals (Sample.press KEY_ENTER 0) Sample.dt60
                       (Scenes.born (Some (-5))))
     < score (Update Sample.globals (Sample.press KEY_ENTER 0) Sample.dt60
                     (Scenes.born (Some (-5)))).
Proof. split; vm_compute; reflexivity. Qed.

(** C9 fails on the code: [HandleInput], which holds the music toggle,
    is only called for a running game.  Here the game is paused, the
    music plays and the frame brings the key M: nothing is toggled. *)
Lemma music_toggle_ignored_when_paused :
  let g := Sample.pausedGame in
  let g' := Update Sample.globals (Sample.press KEY_M 0) Sample.dt60 g in
  blocked g = true /\ musicPlaying g = true
  /\ musicPlaying g' = true /\ musicManuallyDisabled g' = false
  /\ trace g' = trace g ++ [UpdateMusicStream].
Proof. vm_compute. repeat split. Qed.

(** ** The theorems at work *)

Lemma obstacle_collision_gates_witness :
  overlapsHorizontally Sample.started Sample.crossedPipe
  /\ insideGap Sample.started Sample.crossedPipe
  /\ checkObstacleCollision Sample.started
       (collisionBoxWidth Sample.started) (collisionBoxHeight Sample.started)
       Sample.crossedPipe = false.
Proof.
  assert (O : overlapsHorizontally Sample.started Sample.crossedPipe)
    by (split; vm_compute; reflexivity).
  assert (I : insideGap Sample.started Sample.crossedPipe)
    by (split; vm_compute; reflexivity).
  split; [exact O|]. split; [exact I|].
  exact (proj1 (proj2 (obstacle_collision_gates Sample.globals Sample.started
                         Sample.crossedPipe)) O I).
Defined.

Lemma score_once_per_pipe_witness :
  passed Sample.started Sample.passedPipe
  /\ score (fst (scorePipe Sample.globals Sample.started Sample.passedPipe))
     = score Sample.started + 1.
Proof.
  assert (P : passed Sample.started Sample.passedPipe) by (vm_compute; reflexivity).
  split; [exact P|].
  apply (proj1 (score_once_per_pipe Sample.globals Sample.started
                  Sample.passedPipe) P).
  - reflexivity.
  - vm_compute. split; [discriminate | reflexivity].
Defined.

Lemma speed_ramps_to_maximum_witness :
  rampOK Sample.globals = true
  /\ rampSpeed Sample.globals (pipeSpeed Sample.started) = true
  /\ forallb (F32.leb F32.zero) [Sample.dt60; F32.of_int 100; Sample.dt60]
     = true
  /\ pipeSpeed (ticks Sample.globals
                      [Sample.dt60; F32.of_int 100; Sample.dt60]
                      Sample.started) = maxSpeed Sample.globals
  /\ F32.leb (pipeSpeed Sample.started)
             (pipeSpeed (ticks Sample.globals
                           [Sample.dt60; F32.of_int 100; Sample.dt60]
                           Sample.started)) = true.
Proof.
  assert (R : rampOK Sample.globals = true) by (vm_compute; reflexivity).
  assert (S : rampSpeed Sample.globals (pipeSpeed Sample.started) = true)
    by (vm_compute; reflexivity).
  assert (D : forallb (F32.leb F32.zero)
                [Sample.dt60; F32.of_int 100; Sample.dt60] = true)
    by (vm_compute; reflexivity).
  split; [exact R|]. split; [exact S|]. split; [exact D|].
  split; [vm_compute; reflexivity|].
  exact (proj1 (proj1 (proj2 (proj2 (proj2
           (speed_ramps_to_maximum Sample.globals R))))
           [Sample.dt60; F32.of_int 100; Sample.dt60] Sample.started S D)).
Defined.

Section ProductWitness.
Import Reals.

Lemma Reset_keeps_scroll_speed_witness :
  F32.is_positive (initialPipeDistance Sample.started) = true
  /\ F32.is_positive
       (pipeSpeed (UpdatePipeSpeed Sample.globals Sample.dt60 Sample.started))
     = true
  /\ F32.is_normal
       (pipeSpawnInterval
          (UpdatePipeSpeed Sample.globals Sample.dt60 Sample.started)) = true
  /\ (Rabs (F32.value
              (pipeSpawnInterval
                 (UpdatePipeSpeed Sample.globals Sample.dt60 Sample.started))
            * F32.value
                (pipeSpeed
                   (UpdatePipeSpeed Sample.globals Sample.dt60 Sample.started))
            - F32.value (initialPipeDistance Sample.started))
      < F32.value
          (pipeSpawnInterval
             (UpdatePipeSpeed Sample.globals Sample.dt60 Sample.started))
        * F32.value
            (pipeSpeed
               (UpdatePipeSpeed Sample.globals Sample.dt60 Sample.started))
        * powerRZ 2 (-23))%R.
Proof.
  assert (D : F32.is_positive (initialPipeDistance Sample.started) = true)
    by (vm_compute; reflexivity).
  assert (S : F32.is_positive
                (pipeSpeed (UpdatePipeSpeed Sample.globals Sample.dt60
                                            Sample.started)) = true)
    by (vm_compute; reflexivity).
  assert (N : F32.is_normal
                (pipeSpawnInterval
                   (UpdatePipeSpeed Sample.globals Sample.dt60 Sample.started))
              = true)
    by (vm_compute; reflexivity).
  split; [exact D|]. split; [exact S|]. split; [exact N|].
  exact (proj2 (proj2 (proj2 (proj2
           (proj1 Reset_keeps_scroll_speed Sample.globals Sample.dt60
                  Sample.started)))) D S N).
Defined.
End ProductWitness.

Lemma blocked_frame_keeps_simulation_witness :
  running (snd (UpdateUI Sample.globals (Sample.press KEY_M 0)
                  (setScreenScale Sample.globals (Sample.press KEY_M 0)
                                  Sample.pausedGame))) = false
  /\ (sim (Update Sample.globals (Sample.press KEY_M 0) Sample.dt60
                  Sample.pausedGame) = sim Sample.pausedGame
      \/ (gameOver Sample.pausedGame = true
          /\ restartPressed (Sample.press KEY_M 0) Sample.pausedGame = true
          /\ sim (Update Sample.globals (Sample.press KEY_M 0) Sample.dt60
                         Sample.pausedGame)
             = sim (Reset Sample.globals (Sample.press KEY_M 0)
                          Sample.pausedGame))).
Proof.
  split; [vm_compute; reflexivity|].
  apply blocked_frame_keeps_simulation. vm_compute. reflexivity.
Defined.

Lemma Update_dt_zero_is_identity_witness :
  F32.eqb (S754_zero true) F32.zero = true
  /\ Update Sample.globals (Sample.press KEY_SPACE 0) (S754_zero true)
            Sample.started = Sample.started.
Proof.
  split; [reflexivity|].
  apply Update_dt_zero_is_identity. reflexivity.
Defined.

Lemma highScore_bounds_score_witness :
  score (play Sample.globals Scenes.shortGame (Scenes.born None)) = 2
  /\ gameOver (play Sample.globals Scenes.shortGame (Scenes.born None)) = true
  /\ score (play Sample.globals Scenes.shortGame (Scenes.born None))
     <= highScore (play Sample.globals Scenes.shortGame (Scenes.born None)).
Proof.
  split; [vm_compute; reflexivity|]. split; [vm_compute; reflexivity|].
  apply (proj2 (highScore_bounds_score Sample.globals) Sample.blank
           (Sample.idle 0) false None 2048 1280 720 Scenes.shortGame).
  exact I.
Defined.

(** * Further properties *)

Lemma ctor_persisted G this i mobile file bg w h :
  trace this = [] -> persisted G file (Game_ctor G this i mobile file bg w h).
Proof.
  intros T. unfold persisted.
  destruct (ctor_facts G this i mobile file bg w h) as (Tr & H & S & _).
  rewrite LoadHighScore_highScore, Tr, T, H, S. simpl diskAfter.
  split; [unfold Int32.in_range, Int32.INT_MIN, Int32.INT_MAX; lia|].
  destruct (EMSCRIPTEN G);
    [split; [unfold Int32.in_range, Int32.INT_MIN, Int32.INT_MAX; lia|reflexivity]|].
  destruct file as [v|];
    [split; [apply saturate_range|reflexivity]
    |split; [unfold Int32.in_range, Int32.INT_MIN, Int32.INT_MAX; lia|reflexivity]].
Qed.

(** X1: on a build with a file system on which [highscore.txt] opens
    for writing whenever [SaveHighScore] asks, whatever frames follow
    the constructor, the file left by the writes of the game holds the
    current high score: a start of the program on it would load that
    very value.  (When the file does not open the high score of the
    game and the file part; nothing is claimed then.) *)
Theorem high_score_is_on_disk G this i mobile file bg w h frames :
  EMSCRIPTEN G = false -> ofstream_is_open G = true -> trace this = [] ->
  persisted G file (play G frames (Game_ctor G this i mobile file bg w h)).
Proof.
  intros E O T. apply play_persisted; [unfold saves; rewrite E, O; reflexivity|].
  apply ctor_persisted, T.
Qed.

(** X2: a frame plays the hit cue at most once, and not at all when the
    game was over already. *)
Theorem hit_cue_at_most_once G i dt g :
  (hits (trace g) <= hits (trace (Update G i dt g)))%nat
  /\ (hits (trace (Update G i dt g))
      <= hits (trace g) + (if gameOver g then 0 else 1))%nat.
Proof.
  unfold Update. destruct (F32.eqb dt F32.zero); [lia|]. cbv zeta.
  pose proof (UpdateUI_quiet G i (setScreenScale G i g)) as Q.
  pose proof (UpdateUI_kept G i (setScreenScale G i g)) as K.
  rewrite setScreenScale_kept in K.
  destruct (UpdateUI G i (setScreenScale G i g)) as [skip g1]. simpl in Q, K.
  assert (Q1 : quietStep g g1)
    by (eapply quietStep_trans; [apply setScreenScale_quiet|exact Q]).
  assert (O1 : gameOver g1 = gameOver g) by (unfold kept in K; congruence).
  pose proof (quietStep_hits _ _ Q1) as H1.
  destruct skip; [rewrite H1; lia|]. unfold frame. cbv zeta.
  destruct (advance_tally G i dt g1) as [T O].
  assert (H3 : hits (trace (if gameOver (advance G i dt g1)
                            then gameOverRestart G i dt (advance G i dt g1)
                            else advance G i dt g1))
               = hits (trace (advance G i dt g1))).
  { destruct (gameOver (advance G i dt g1)); [|reflexivity].
    apply quietStep_hits, gameOverRestart_quiet. }
  rewrite H3, T, H1, O1.
  destruct (gameOver g), (gameOver (advance G i dt g1)); simpl; lia.
Qed.

(** X3: whatever frames follow the constructor, music that the player
    has switched off is not playing, and it is not switched off before
    the game has left its welcome screen. *)
Theorem music_off_stays_off G this i mobile file bg w h frames :
  musicInv (play G frames (Game_ctor G this i mobile file bg w h)).
Proof. apply play_musicInv, ctor_musicInv. Qed.

(** X4: over any frames the welcome screen, once left, does not come
    back, and a confirmed exit is not withdrawn. *)
Theorem welcome_and_exit_are_one_way G frames g :
  later g (play G frames g).
Proof. apply play_later. Qed.

Section Overlay.
Import String.
Variable G : Globals.
Variable MeasureText : string -> Z -> Z.
Variable yellow : Color.

(** X5: in every state that frames reach from the constructor, [DrawUI]
    draws exactly one overlay box while the simulation is held, and
    while it runs none, but for the exit question left open by a
    restart. *)
Theorem held_game_shows_one_overlay this i mobile file bg w h frames :
  boxes (DrawUI G MeasureText yellow
           (play G frames (Game_ctor G this i mobile file bg w h)))
  = if running (play G frames (Game_ctor G this i mobile file bg w h))
    then if exitWindowRequested
              (play G frames (Game_ctor G this i mobile file bg w h))
         then 1%nat else 0%nat
    else 1%nat.
Proof.
  assert (E : exitInv (play G frames (Game_ctor G this i mobile file bg w h))).
  { apply play_later. unfold exitInv.
    destruct (ctor_facts G this i mobile file bg w h) as (_ & _ & _ & M & _).
    rewrite M. discriminate. }
  revert E. generalize (play G frames (Game_ctor G this i mobile file bg w h)).
  intros g E. rewrite boxes_DrawUI. unfold running. unfold exitInv in E.
  destruct (firstTimeGameStart g), (paused g), (lostWindowFocus g),
    (gameOver g), (exitWindowRequested g), (isInExitMenu g);
    try reflexivity.
  all: specialize (E eq_refl); discriminate.
Qed.
End Overlay.

Lemma ctor_speedInv G this i mobile file bg w h :
  F32.gtb (defaultPipeSpeed G) (maxSpeed G) = false ->
  speedInv G (Game_ctor G this i mobile file bg w h).
Proof.
  intros H. unfold speedInv.
  destruct (ctor_player G this i mobile file bg w h)
    as (_ & _ & _ & _ & _ & P & B).
  rewrite P, B. split; exact H.
Qed.

(** X6: when the default speed is not above the maximum, then whatever
    frames follow the constructor, the pipe speed is not above the
    maximum. *)
Theorem pipe_speed_stays_clamped G this i mobile file bg w h frames :
  F32.gtb (defaultPipeSpeed G) (maxSpeed G) = false ->
  F32.gtb (pipeSpeed (play G frames (Game_ctor G this i mobile file bg w h)))
          (maxSpeed G) = false.
Proof.
  intros H. apply (play_speedInv G frames). apply ctor_speedInv, H.
Qed.

Section RestartFrames.
Variable G : Globals.
Variable i : Input.
Variable dt : float.

(** X7: while the game is over and the delay that remains after this
    frame is not used up, the frame restarts nothing whatever the input:
    it keeps player, pipes, scores and the game-over flag and takes [dt]
    off the delay. *)
Theorem restart_waits_for_delay g :
  gameOver g = true -> F32.eqb dt F32.zero = false ->
  F32.gtb (gameOverDelayTimer g) F32.zero = true ->
  F32.leb (F32.sub (gameOverDelayTimer g) dt) F32.zero = false ->
  kept (Update G i dt g) = kept g
  /\ gameOverDelayTimer (Update G i dt g) = F32.sub (gameOverDelayTimer g) dt.
Proof.
  intros O Z P N.
  destruct (Update_gameOver G i dt g O Z) as (g2 & E & K & T).
  rewrite E, gameOverRestart_waits by (rewrite T; assumption).
  rewrite T. split; [|reflexivity]. rewrite <- K. reflexivity.
Qed.

(** X8: once the game is over and its delay is used up, a frame with
    the restart input starts a new run: the game is no longer over, the
    score is 0, there is no pipe, the player is back at its start and
    the speed at the base speed; the high score stays. *)
Theorem restart_after_delay g :
  gameOver g = true -> F32.eqb dt F32.zero = false ->
  F32.leb (gameOverDelayTimer g) F32.zero = true ->
  restartPressed i g = true ->
  gameOver (Update G i dt g) = false
  /\ sim (Update G i dt g)
     = (F32.of_int (Z.quot (width g) 4), F32.of_int (Z.quot (height g) 2),
        F32.zero, [], 0, basePipeSpeed g)
  /\ highScore (Update G i dt g) = highScore g.
Proof.
  intros O Z L R.
  destruct (Update_gameOver G i dt g O Z) as (g2 & E & K & T).
  assert (R2 : restartPressed i g2 = true).
  { unfold restartPressed in *. unfold kept in K.
    replace (isMobile g2) with (isMobile g) by congruence. exact R. }
  rewrite E, gameOverRestart_restarts;
    [| rewrite T; apply leb_not_ltb, L | rewrite T; exact L | exact R2].
  destruct (Reset_flags G i g2) as (_ & _ & _ & F & _).
  destruct (Reset_fields G i g2) as (_ & _ & _ & _ & _ & _ & H & _).
  rewrite sim_Reset, F, H. unfold kept in K.
  split; [reflexivity|]. split; [|congruence].
  replace (width g2) with (width g) by congruence.
  replace (height g2) with (height g) by congruence.
  replace (basePipeSpeed g2) with (basePipeSpeed g) by congruence.
  reflexivity.
Qed.
End RestartFrames.

Section RunningFrames.
Variable G : Globals.
Variable i : Input.
Variable dt : float.

(** X9: after the simulation of a running frame the pipes are the pipes
    of before, followed by the pipe that the frame spawns if it spawns
    one, each moved left by the distance covered at the speed that the
    frame has just computed and flagged once the player is beyond its
    right edge, its gap center kept, without those that are wholly left
    of the screen; the order is kept. *)
Theorem pipes_of_running_frame g :
  running g = true ->
  pipes (advance G i dt g)
  = filter (onScreen g)
      (map (stepPipe dt (UpdatePipeSpeed G dt g)) (pipes g ++ spawned G i dt g)).
Proof.
  intros R. destruct (advance_running G i dt g R) as (g1 & E & S & _).
  rewrite E, simulate_pipes_of.
  destruct (scene_spawnView g1 g S) as (V & L & P & D).
  rewrite (spawned_view G i dt g1 g V P D).
  replace (pipes g1) with (pipes g) by (unfold spawnView in V; congruence).
  assert (W : forall p, onScreen g1 p = onScreen g p).
  { intros p. unfold onScreen. unfold loopView in L.
    replace (pipeWidth g1) with (pipeWidth g) by congruence. reflexivity. }
  rewrite (filter_ext _ _ W). f_equal. apply map_ext. intros p.
  apply stepPipe_view, loopView_UpdatePipeSpeed, L.
Qed.

(** X10: when a pipe exists and the generator gives a natural number,
    the gap center of the pipe to spawn is a whole number between the
    two bounds that the code computes from the last pipe, each bound
    converted to [int]. *)
Theorem gap_center_between_bounds g prev :
  back (pipes g) = Some prev -> 0 <= rand i ->
  exists v,
    targetGapCenter G i g = F32.of_int v
    /\ Z.min (F32.to_int (minGapCenter G g prev))
             (F32.to_int (maxGapCenter G g prev)) <= v
    /\ v <= Z.max (F32.to_int (minGapCenter G g prev))
                  (F32.to_int (maxGapCenter G g prev)).
Proof.
  intros B R.
  destruct (targetGapCenter_next G i g prev B R) as (v & E & L & U & _).
  exists v. repeat split; assumption.
Qed.

(** X11: in a frame that the user interface does not hold, a flap
    replaces the velocity by the jump force before gravity is added, and
    the player moves by the new velocity: at the end of the frame the
    velocity is [(flap ? jumpForce : velocity) + gravity * dt] and the
    height [playerY + velocity' * dt], whether or not the frame ends
    the game, unless the restart input is given and the frame ends in
    [Reset]. *)
Theorem player_after_running_frame g :
  F32.eqb dt F32.zero = false ->
  fst (UpdateUI G i (setScreenScale G i g)) = false ->
  running (snd (UpdateUI G i (setScreenScale G i g))) = true ->
  body (Update G i dt g) = (nextY i dt g, nextVelocity i dt g)
  \/ (restartPressed i g = true
      /\ exists g', Update G i dt g = Reset G i g').
Proof.
  intros Z K R.
  destruct (Update_running_frame G i dt g Z K R) as (g1 & S & R1 & [E|(_ & P & H)]).
  - left. rewrite <- (simulate_scene_body G i dt g1 g S R1).
    apply (scene_eq body); [reflexivity|exact E].
  - right. split; assumption.
Qed.

(** X12: a running frame ends the game exactly when the collision box
    of the player, at its new height, is beyond the top or the bottom of
    the screen, or hits one of the pipes of the frame at its new
    place, the pipe spawned in the frame and the pipes about to be
    removed included. *)
Theorem game_over_of_running_frame g :
  running g = true ->
  gameOver (advance G i dt g)
  = checkBoundaryCollision (moved i dt g) (collisionBoxHeight g)
    || existsb (checkObstacleCollision (moved i dt g)
                  (collisionBoxWidth g) (collisionBoxHeight g))
         (map (stepPipe dt (UpdatePipeSpeed G dt g))
              (pipes g ++ spawned G i dt g)).
Proof.
  intros R. destruct (advance_running G i dt g R) as (g1 & E & S & R1).
  rewrite E, simulate_gameOver.
  assert (O : gameOver g1 = false).
  { unfold running in R1. destruct (gameOver g1); [|reflexivity].
    rewrite !andb_false_r in R1. discriminate. }
  rewrite O. simpl orb.
  pose proof (afterPhysics_hitView G i dt g1 R1) as V.
  assert (M : hitView (moved i dt g1) = hitView (moved i dt g)).
  { apply (scene_eq (fun x => hitView (moved i dt x))); [reflexivity|exact S]. }
  rewrite M in V.
  rewrite (checkBoundaryCollision_view _ _ _ V).
  rewrite (existsb_same _ _ _ (fun p => checkObstacleCollision_view _ _ _ _ p V)).
  destruct (scene_spawnView g1 g S) as (SV & L & P & D).
  rewrite (spawned_view G i dt g1 g SV P D).
  replace (pipes g1) with (pipes g) by (unfold spawnView in SV; congruence).
  rewrite (map_ext _ _ (fun p => stepPipe_view dt _ _ p
                                   (loopView_UpdatePipeSpeed G dt g1 g L))).
  rewrite (scene_eq collisionBoxWidth g1 g (fun _ => eq_refl) S).
  rewrite (scene_eq collisionBoxHeight g1 g (fun _ => eq_refl) S).
  reflexivity.
Qed.

(** X13: a frame that the user interface does not hold adds to the
    score, in the arithmetic of [int], the number of pipes that the
    frame flags, whether or not the game ends in the frame, unless the
    restart input is given and the frame ends in [Reset]. *)
Theorem score_of_running_frame g :
  F32.eqb dt F32.zero = false ->
  fst (UpdateUI G i (setScreenScale G i g)) = false ->
  running (snd (UpdateUI G i (setScreenScale G i g))) = true ->
  Int32.in_range (score g) ->
  score (Update G i dt g)
  = Int32.wrap (score g
                + Z.of_nat (crossings dt (UpdatePipeSpeed G dt g)
                              (pipes g ++ spawned G i dt g)))
  \/ (restartPressed i g = true
      /\ exists g', Update G i dt g = Reset G i g').
Proof.
  intros Z K R I.
  destruct (Update_running_points G i dt g Z K R I) as [[E _]|H];
    [left; exact E|right; exact H].
Qed.

(** X14: the simulation part of a frame writes none of the mode flags
    (first start, paused, focus lost, exit menu), of the exit flags, of
    the fullscreen flag and of the screen scale. *)
Theorem simulation_leaves_modes_alone g :
  uiState (advance G i dt g) = uiState g.
Proof. apply advance_uiState. Qed.

(** X16: a frame sets the exit flag only when the exit question was
    open on its entry and [Y] is pressed. *)
Theorem exit_needs_confirmation g :
  exitWindow g = false -> exitWindow (Update G i dt g) = true ->
  exitWindowRequested g = true /\ IsKeyPressed i KEY_Y = true.
Proof.
  intros E0 E1.
  pose proof (Update_exitView G i dt g) as V.
  rewrite UpdateUI_exitView, setScreenScale_exitView in V.
  change (exitWindowRequested (setScreenScale G i g))
    with (exitWindowRequested g) in V.
  change (exitWindow (setScreenScale G i g)) with (exitWindow g) in V.
  unfold exitView in V. rewrite E0, E1 in V.
  destruct (F32.eqb dt F32.zero); [discriminate|].
  destruct (negb _ && _); [discriminate|].
  destruct (exitWindowRequested g); [|discriminate].
  destruct (IsKeyPressed i KEY_Y); [split; reflexivity|].
  destruct (_ || _); discriminate.
Qed.

(** X17: a frame opens the exit question only in the desktop build, and
    only when the window is asked to close or [Escape] is pressed. *)
Theorem exit_request_needs_close_or_escape g :
  exitWindowRequested g = false ->
  exitWindowRequested (Update G i dt g) = true ->
  EMSCRIPTEN_BUILD G = false
  /\ (WindowShouldClose i = true \/ IsKeyPressed i KEY_ESCAPE = true).
Proof.
  intros E0 E1.
  pose proof (Update_exitView G i dt g) as V.
  rewrite UpdateUI_exitView, setScreenScale_exitView in V.
  change (exitWindowRequested (setScreenScale G i g))
    with (exitWindowRequested g) in V.
  change (exitWindow (setScreenScale G i g)) with (exitWindow g) in V.
  unfold exitView in V. rewrite E0, E1 in V.
  destruct (F32.eqb dt F32.zero); [discriminate|].
  destruct (EMSCRIPTEN_BUILD G); simpl in V; [discriminate|].
  split; [reflexivity|].
  destruct (WindowShouldClose i); [left; reflexivity|].
  destruct (IsKeyPressed i KEY_ESCAPE); [right; reflexivity|].
  simpl in V. discriminate.
Qed.

(** X18: a frame adds at most one pipe. *)
Theorem pipes_grow_by_at_most_one g :
  (length (pipes (Update G i dt g)) <= S (length (pipes g)))%nat.
Proof.
  unfold Update. destruct (F32.eqb dt F32.zero); [lia|]. cbv zeta.
  pose proof (UpdateUI_kept G i (setScreenScale G i g)) as K.
  rewrite setScreenScale_kept in K.
  destruct (UpdateUI G i (setScreenScale G i g)) as [skip g1]. simpl in K.
  assert (P : pipes g1 = pipes g) by (unfold kept, sim in K; congruence).
  rewrite <- P. destruct skip; [lia|]. apply frame_pipes_length.
Qed.

(** X19: after every frame with a [dt] other than 0, in every mode, the
    screen scale is the one that fits the game screen into the window of
    that frame. *)
Theorem screen_scale_follows_window g :
  F32.eqb dt F32.zero = false ->
  screenScale (Update G i dt g) = fitScale G i.
Proof.
  intros Z. unfold Update. rewrite Z. cbv zeta.
  pose proof (UpdateUI_screenScale G i (setScreenScale G i g)) as U.
  destruct (UpdateUI G i (setScreenScale G i g)) as [skip g1]. simpl in U.
  assert (S1 : screenScale g1 = fitScale G i) by (rewrite U; reflexivity).
  destruct skip; [exact S1|]. apply frame_screenScale, S1.
Qed.

End RunningFrames.

(** X15: no frame writes what the constructor fixes: the sizes of the
    screen, of the pipes, of their gap and of the player, the collision
    ratios, the base speed, the spawn distance and the mobile flag. *)
Theorem setup_is_fixed G frames :
  forall g, config (play G frames g) = config g.
Proof.
  induction frames as [|[i dt] frames IH]; intros g; [reflexivity|].
  simpl. rewrite IH. apply Update_config.
Qed.

Section SpawnTimer.
Variable G : Globals.
Variable i : Input.
Variable dt : float.

Lemma pipeBody_timer bw bh g pipe :
  pipeSpawnTimer (fst (pipeBody G dt bw bh g pipe)) = pipeSpawnTimer g.
Proof.
  rewrite pipeBody_fst.
  assert (S : pipeSpawnTimer (fst (scorePipe G g (movePipe dt g pipe)))
              = pipeSpawnTimer g).
  { unfold scorePipe, SaveHighScore, emit. cbv zeta. break_ifs; reflexivity. }
  rewrite <- S. unfold collidePipe, onCollision, SaveHighScore, emit.
  cbv zeta. break_ifs; reflexivity.
Qed.

Lemma pipeLoop_timer bw bh ps :
  forall g, pipeSpawnTimer (fst (pipeLoop G dt bw bh g ps)) = pipeSpawnTimer g.
Proof.
  induction ps as [|pipe ps IH]; intros g; [reflexivity|].
  simpl. pose proof (pipeBody_timer bw bh g pipe) as B.
  destruct (pipeBody G dt bw bh g pipe) as [g1 p1]. simpl in B.
  specialize (IH g1).
  destruct (pipeLoop G dt bw bh g1 ps) as [g2 ps2]. simpl in *. congruence.
Qed.

Lemma movePipes_timer bw bh g :
  pipeSpawnTimer (movePipes G dt bw bh g) = pipeSpawnTimer g.
Proof.
  unfold movePipes. pose proof (pipeLoop_timer bw bh (pipes g) g) as L.
  destruct (pipeLoop G dt bw bh g (pipes g)) as [g' ps]. exact L.
Qed.

Lemma spawn_timer_view x g :
  spawnView x = spawnView (UpdatePipeSpeed G dt g) ->
  pipeSpawnTimer (spawn G i dt x)
  = if F32.geb (F32.add (pipeSpawnTimer g) dt)
               (pipeSpawnInterval (UpdatePipeSpeed G dt g))
    then F32.zero else F32.add (pipeSpawnTimer g) dt.
Proof.
  intros V. pose proof (UpdatePipeSpeed_spawnView_eq G dt g) as Q.
  unfold spawnView in V, Q.
  assert (T : pipeSpawnTimer x = pipeSpawnTimer g) by congruence.
  assert (I : pipeSpawnInterval x = pipeSpawnInterval (UpdatePipeSpeed G dt g))
    by congruence.
  destruct (spawn_cases G i dt x) as [(C & E & _)|(C & E & _)];
    rewrite E; rewrite T, I in C; rewrite C, ?T; reflexivity.
Qed.

Lemma simulate_timer g :
  pipeSpawnTimer (simulate G i dt g)
  = if F32.geb (F32.add (pipeSpawnTimer g) dt)
               (pipeSpawnInterval (UpdatePipeSpeed G dt g))
    then F32.zero else F32.add (pipeSpawnTimer g) dt.
Proof.
  rewrite simulate_eq.
  assert (E : forall x, pipeSpawnTimer (eyesTimer dt x) = pipeSpawnTimer x)
    by (intros; unfold eyesTimer; cbv zeta; break_ifs; reflexivity).
  assert (R : forall x, pipeSpawnTimer (removeOffscreen x) = pipeSpawnTimer x)
    by reflexivity.
  rewrite E, R, movePipes_timer.
  unfold beforePipes. cbv zeta.
  assert (O : forall x, spawnView (onCollision G x) = spawnView x)
    by (intros; unfold onCollision, SaveHighScore, emit; cbv zeta;
        break_ifs; reflexivity).
  assert (P : forall x, spawnView (physics dt x) = spawnView x) by reflexivity.
  assert (H : spawnView (HandleInput G i g) = spawnView g
              /\ pipeSpeed (HandleInput G i g) = pipeSpeed g
              /\ initialPipeDistance (HandleInput G i g) = initialPipeDistance g)
    by (unfold HandleInput, emit; cbv zeta; break_ifs; repeat split; reflexivity).
  destruct H as (H1 & H2 & H3).
  pose proof (UpdatePipeSpeed_spawnView G dt _ _ H1 H2 H3) as U.
  apply spawn_timer_view.
  break_ifs; rewrite ?O, P; exact U.
Qed.

Lemma simulate_scene_timer g1 g :
  scene g1 = scene g ->
  pipeSpawnTimer (simulate G i dt g1)
  = if F32.geb (F32.add (pipeSpawnTimer g) dt)
               (pipeSpawnInterval (UpdatePipeSpeed G dt g))
    then F32.zero else F32.add (pipeSpawnTimer g) dt.
Proof.
  intros S. rewrite simulate_timer.
  destruct (scene_spawnView g1 g S) as (SV & L & P & D).
  pose proof (UpdatePipeSpeed_spawnView G dt _ _ SV P D) as U.
  unfold spawnView in SV, U.
  replace (pipeSpawnTimer g1) with (pipeSpawnTimer g) by congruence.
  replace (pipeSpawnInterval (UpdatePipeSpeed G dt g1))
    with (pipeSpawnInterval (UpdatePipeSpeed G dt g)) by congruence.
  reflexivity.
Qed.

(** X24: in a frame that the user interface does not hold the spawn
    timer grows by [dt]; once it has reached the interval that the frame
    has just computed, a pipe is spawned and the timer starts again from
    0, whatever it was above the interval; nothing later in the frame
    writes it, unless the restart input is given and the frame ends in
    [Reset]. *)
Theorem spawn_timer_of_running_frame g :
  F32.eqb dt F32.zero = false ->
  fst (UpdateUI G i (setScreenScale G i g)) = false ->
  running (snd (UpdateUI G i (setScreenScale G i g))) = true ->
  pipeSpawnTimer (Update G i dt g)
  = (if F32.geb (F32.add (pipeSpawnTimer g) dt)
                (pipeSpawnInterval (UpdatePipeSpeed G dt g))
     then F32.zero else F32.add (pipeSpawnTimer g) dt)
  \/ (restartPressed i g = true
      /\ exists g', Update G i dt g = Reset G i g').
Proof.
  intros Z K R.
  destruct (Update_running_frame G i dt g Z K R) as (g1 & S & _ & [E|(_ & P & H)]).
  - left. rewrite <- (simulate_scene_timer g1 g S).
    apply (scene_eq pipeSpawnTimer); [reflexivity|exact E].
  - right. split; assumption.
Qed.
End SpawnTimer.

Lemma hitSaves_app tr es :
  forall prev,
    hitSaves prev (tr ++ es)
    = (hitSaves prev tr
       + hitSaves (fold_left (fun _ e => isHit e) tr prev) es)%nat.
Proof.
  induction tr as [|e tr IH]; intros prev; [reflexivity|].
  simpl. rewrite IH. lia.
Qed.

Lemma quiet_calm es : quiet es = true -> calm es.
Proof.
  unfold quiet, calm. induction es as [|e es IH]; intros Q prev; [reflexivity|].
  simpl in Q. apply andb_true_iff in Q. destruct Q as [Q1 Q2].
  apply andb_true_iff in Q1. destruct Q1 as [Q1 _].
  apply andb_true_iff in Q1. destruct Q1 as [_ Q1].
  apply negb_true_iff in Q1. simpl. rewrite Q1, andb_false_r, (IH Q2).
  reflexivity.
Qed.

Lemma unsaved_step g g' es :
  trace g' = trace g ++ es -> calm es -> scoreInv g' ->
  unsaved g -> unsaved g'.
Proof.
  intros T C S [_ H]. split; [exact S|].
  rewrite T, hitSaves_app, H, C. reflexivity.
Qed.

Lemma unsaved_quiet g g' :
  quietStep g g' -> scores g' = scores g -> unsaved g -> unsaved g'.
Proof.
  intros (es & T & Q) S U.
  apply (unsaved_step g g' es T (quiet_calm es Q)); [|exact U].
  apply (scoreInv_scores g g' S), U.
Qed.

Section Unsaved.
Variable G : Globals.
Variable i : Input.
Variable dt : float.

Lemma onCollision_unsaved g : unsaved g -> unsaved (onCollision G g).
Proof.
  intros U. pose proof U as [S _].
  apply (unsaved_step g _ [StopMusicStream; StopSound flySound;
                           StopSound scoreSound; PlaySound hitSound]);
    [| intros []; reflexivity | apply onCollision_scoreInv, S | exact U].
  unfold onCollision, emit. cbv zeta.
  change (score (_ <| trace := _ |>)) with (score g).
  change (highScore (_ <| trace := _ |>)) with (highScore g).
  destruct S as [S _].
  destruct (Z.gtb_spec (score g) (highScore g)); [lia|reflexivity].
Qed.

Lemma collidePipe_unsaved bw bh g pipe :
  unsaved g -> unsaved (collidePipe G bw bh g pipe).
Proof.
  intros U. unfold collidePipe. break_ifs; auto using onCollision_unsaved.
Qed.

Lemma SaveHighScore_after_cue g tr :
  trace g = tr ++ [PlaySound scoreSound] ->
  hitSaves false tr = 0%nat ->
  hitSaves false (trace (SaveHighScore G g)) = 0%nat.
Proof.
  intros T H. rewrite SaveHighScore_trace, T, <- app_assoc, hitSaves_app, H.
  destruct (saves G), (fold_left (fun _ e => isHit e) tr false); reflexivity.
Qed.

Lemma scorePipe_unsaved g pipe :
  unsaved g -> unsaved (fst (scorePipe G g pipe)).
Proof.
  intros U. pose proof U as [S H].
  pose proof (scorePipe_scoreInv G g pipe S) as S'.
  revert S'. unfold scorePipe. destruct (_ && _); [|intros _; exact U].
  cbv zeta. destruct (_ >? _); simpl fst; intros S'.
  - split; [exact S'|].
    apply (SaveHighScore_after_cue _ (trace g)); [reflexivity|exact H].
  - revert U.
    apply (unsaved_step g _ [PlaySound scoreSound]);
      [reflexivity|intros []; reflexivity|exact S'].
Qed.

Lemma pipeLoop_unsaved bw bh ps :
  forall g, unsaved g -> unsaved (fst (pipeLoop G dt bw bh g ps)).
Proof.
  induction ps as [|pipe ps IH]; intros g P; [exact P|].
  simpl. pose proof (pipeBody_fst G dt bw bh g pipe) as B.
  destruct (pipeBody G dt bw bh g pipe) as [g1 p1]. simpl in B.
  specialize (IH g1).
  destruct (pipeLoop G dt bw bh g1 ps) as [g2 ps2]. simpl in *.
  apply IH. rewrite B.
  apply collidePipe_unsaved, scorePipe_unsaved; assumption.
Qed.

Lemma movePipes_unsaved bw bh g :
  unsaved g -> unsaved (movePipes G dt bw bh g).
Proof.
  intros P. destruct (movePipes_trace G dt bw bh g) as (T & _ & H).
  pose proof (movePipes_scores G dt bw bh g) as S. unfold scores in S.
  pose proof (pipeLoop_unsaved bw bh (pipes g) g P) as [L1 L2].
  split; [|rewrite T; exact L2].
  unfold scoreInv in *.
  replace (score (movePipes G dt bw bh g))
    with (score (fst (pipeLoop G dt bw bh g (pipes g)))) by congruence.
  rewrite H. exact L1.
Qed.

Lemma beforePipes_unsaved g : unsaved g -> unsaved (beforePipes G i dt g).
Proof.
  intros P. unfold beforePipes. cbv zeta.
  set (g2 := physics dt (UpdatePipeSpeed G dt (HandleInput G i g))).
  assert (P2 : unsaved g2).
  { revert P. apply unsaved_quiet.
    - subst g2. eapply quietStep_trans; [apply HandleInput_quiet|].
      eapply quietStep_trans; [apply UpdatePipeSpeed_quiet|apply physics_quiet].
    - subst g2. pose proof (physics_scores dt (UpdatePipeSpeed G dt (HandleInput G i g))) as S1.
      pose proof (UpdatePipeSpeed_scores G dt (HandleInput G i g)) as S2.
      pose proof (HandleInput_scores G i g) as S3.
      unfold scores in *. congruence. }
  clearbody g2.
  set (g3 := if checkBoundaryCollision g2 (collisionBoxHeight g2)
             then onCollision G g2 else g2).
  assert (P3 : unsaved g3).
  { subst g3. destruct (checkBoundaryCollision _ _); auto using onCollision_unsaved. }
  clearbody g3. revert P3. apply unsaved_quiet; [apply spawn_quiet|].
  apply spawn_scores.
Qed.

Lemma simulate_unsaved g : unsaved g -> unsaved (simulate G i dt g).
Proof.
  intros P. rewrite simulate_eq.
  assert (Step : forall m, unsaved m -> unsaved (eyesTimer dt (removeOffscreen m))).
  { intros m. apply unsaved_quiet.
    - eapply quietStep_trans; [apply removeOffscreen_quiet|apply eyesTimer_quiet].
    - rewrite eyesTimer_scores. apply removeOffscreen_scores. }
  apply Step, movePipes_unsaved, beforePipes_unsaved; assumption.
Qed.

Lemma advance_unsaved g : unsaved g -> unsaved (advance G i dt g).
Proof.
  intros P. unfold advance. cbv zeta.
  set (g0 := if running g then scrollBackground dt g else g).
  assert (P0 : unsaved g0).
  { subst g0. destruct (running g); [|exact P]. revert P.
    apply unsaved_quiet; [apply scrollBackground_quiet|].
    apply scrollBackground_scores. }
  clearbody g0.
  set (g1 := if musicPlaying g0 then emit [UpdateMusicStream] g0 else g0).
  assert (P1 : unsaved g1).
  { subst g1. destruct (musicPlaying g0); [|exact P0]. revert P0.
    apply unsaved_quiet; [apply quietStep_emit; reflexivity|reflexivity]. }
  clearbody g1.
  destruct (running g); [apply simulate_unsaved|]; exact P1.
Qed.

Lemma gameOverRestart_unsaved g :
  unsaved g -> unsaved (gameOverRestart G i dt g).
Proof.
  intros P. destruct (gameOverRestart_quiet G i dt g) as (es & T & Q).
  apply (unsaved_step g _ es T (quiet_calm es Q)); [|exact P].
  apply gameOverRestart_scoreInv, P.
Qed.

Lemma Update_unsaved g : unsaved g -> unsaved (Update G i dt g).
Proof.
  intros P. unfold Update. destruct (F32.eqb dt F32.zero); [exact P|]. cbv zeta.
  pose proof (UpdateUI_quiet G i (setScreenScale G i g)) as Q.
  pose proof (UpdateUI_kept G i (setScreenScale G i g)) as K.
  rewrite setScreenScale_kept in K.
  destruct (UpdateUI G i (setScreenScale G i g)) as [skip g1]. simpl in Q, K.
  assert (P1 : unsaved g1).
  { revert P. apply unsaved_quiet.
    - eapply quietStep_trans; [apply setScreenScale_quiet|exact Q].
    - apply kept_scores, K. }
  destruct skip; [exact P1|]. unfold frame. cbv zeta.
  pose proof (advance_unsaved g1 P1) as P2.
  destruct (gameOver _); [|exact P2].
  apply gameOverRestart_unsaved, P2.
Qed.
End Unsaved.

Lemma play_unsaved G frames :
  forall g, unsaved g -> unsaved (play G frames g).
Proof.
  induction frames as [|[i dt] frames IH]; intros g H; [exact H|].
  simpl. apply IH, Update_unsaved, H.
Qed.

(** X23: in a game played from the constructor with a stored high score
    that is not negative, whatever the frames, no write of the
    high-score file directly follows the hit cue: the save of the two
    collision blocks never runs, since each point has raised the high
    score already.  With a stored high score of -5 it does run, in a
    crash at a score of 0. *)
Theorem collision_block_saves_nothing :
  (forall G this i mobile file bg w h frames,
      match file with Some v => 0 <= v | None => True end ->
      trace this = [] ->
      hitSaves false
        (trace (play G frames (Game_ctor G this i mobile file bg w h)))
      = 0%nat)
  /\ hitSaves false
       (trace (play Sample.globals Scenes.shortGame (Scenes.born (Some (-5)))))
     = 1%nat.
Proof.
  split; [|vm_compute; reflexivity].
  intros G this i mobile file bg w h frames F T.
  apply play_unsaved. split; [apply ctor_scoreInv, F|].
  destruct (ctor_facts G this i mobile file bg w h) as (E & _).
  rewrite E, T. reflexivity.
Qed.


Section HighScore.
Variable G : Globals.
Variable i : Input.
Variable dt : float.

Lemma pipeBody_highScore_le bw bh g pipe :
  highScore g <= highScore (fst (pipeBody G dt bw bh g pipe)).
Proof.
  rewrite pipeBody_fst.
  assert (S : highScore g <= highScore (fst (scorePipe G g (movePipe dt g pipe)))).
  { destruct (scorePipe_cases G g (movePipe dt g pipe))
      as [(_ & _ & _ & H & _)|[_ E]]; [rewrite H; lia|rewrite E; simpl; lia]. }
  unfold collidePipe. break_ifs; try exact S.
  rewrite onCollision_highScore. lia.
Qed.

Lemma pipeLoop_highScore_le bw bh ps :
  forall g, highScore g <= highScore (fst (pipeLoop G dt bw bh g ps)).
Proof.
  induction ps as [|pipe ps IH]; intros g; [simpl; lia|].
  simpl. pose proof (pipeBody_highScore_le bw bh g pipe) as B.
  destruct (pipeBody G dt bw bh g pipe) as [g1 p1]. simpl in B.
  specialize (IH g1).
  destruct (pipeLoop G dt bw bh g1 ps) as [g2 ps2]. simpl in *. lia.
Qed.

Lemma beforePipes_highScore_le g :
  highScore g <= highScore (beforePipes G i dt g).
Proof.
  unfold beforePipes. cbv zeta.
  assert (S : forall x, highScore (spawn G i dt x) = highScore x)
    by (intros x; pose proof (spawn_scores G i dt x) as E; unfold scores in E;
        congruence).
  assert (P : highScore (physics dt (UpdatePipeSpeed G dt (HandleInput G i g)))
              = highScore g).
  { pose proof (physics_scores dt (UpdatePipeSpeed G dt (HandleInput G i g))) as E1.
    pose proof (UpdatePipeSpeed_scores G dt (HandleInput G i g)) as E2.
    pose proof (HandleInput_scores G i g) as E3.
    unfold scores in *. congruence. }
  rewrite S. destruct (checkBoundaryCollision _ _).
  - rewrite onCollision_highScore, P. lia.
  - rewrite P. lia.
Qed.

Lemma simulate_highScore_le g : highScore g <= highScore (simulate G i dt g).
Proof.
  pose proof (simulate_scores G i dt g) as S. unfold scores in S.
  injection S as _ S. rewrite S.
  pose proof (beforePipes_highScore_le g).
  match goal with |- _ <= highScore (fst (pipeLoop G dt ?bw ?bh ?b ?ps)) =>
    pose proof (pipeLoop_highScore_le bw bh ps b) end.
  lia.
Qed.

Lemma advance_highScore_le g : highScore g <= highScore (advance G i dt g).
Proof.
  unfold advance. cbv zeta. destruct (running g).
  - match goal with |- _ <= highScore (simulate G i dt ?x) =>
      pose proof (simulate_highScore_le x) as S;
      assert (E : highScore x = highScore g)
        by (pose proof (scrollBackground_scores dt g) as Q; unfold scores in Q;
            destruct (musicPlaying _);
            [change (highScore (emit ?e ?y)) with (highScore y)|]; congruence)
    end.
    lia.
  - destruct (musicPlaying g); [change (highScore (emit ?e ?y)) with (highScore y)|]; lia.
Qed.

Lemma Update_highScore_le g : highScore g <= highScore (Update G i dt g).
Proof.
  unfold Update. destruct (F32.eqb dt F32.zero); [lia|]. cbv zeta.
  pose proof (UpdateUI_kept G i (setScreenScale G i g)) as K.
  rewrite setScreenScale_kept in K.
  destruct (UpdateUI G i (setScreenScale G i g)) as [skip g1]. simpl in K.
  assert (H : highScore g1 = highScore g) by (unfold kept in K; congruence).
  rewrite <- H. destruct skip; [lia|]. unfold frame. cbv zeta.
  pose proof (advance_highScore_le g1) as A.
  destruct (gameOver _); [rewrite gameOverRestart_highScore|]; exact A.
Qed.
End HighScore.

(** X25: the high score never goes down, whatever the frames. *)
Theorem high_score_never_drops G frames :
  forall g, highScore g <= highScore (play G frames g).
Proof.
  induction frames as [|[i dt] frames IH]; intros g; [simpl; lia|].
  simpl. pose proof (Update_highScore_le G i dt g). specialize (IH (Update G i dt g)).
  lia.
Qed.

Section Cues.
Variable G : Globals.
Variable i : Input.
Variable dt : float.

Lemma SaveHighScore_cues g : cues (trace (SaveHighScore G g)) = cues (trace g).
Proof.
  rewrite SaveHighScore_trace, cues_app.
  destruct (saves G); unfold cues; simpl; lia.
Qed.

Lemma onCollision_cues g : cues (trace (onCollision G g)) = cues (trace g).
Proof.
  unfold onCollision. cbv zeta.
  destruct (_ >? _); [rewrite SaveHighScore_cues|];
    unfold emit;
    change (cues (trace g ++ [StopMusicStream; StopSound flySound;
                              StopSound scoreSound; PlaySound hitSound])
            = cues (trace g));
    rewrite cues_app; unfold cues; simpl; lia.
Qed.

Lemma collidePipe_cues bw bh g pipe :
  cues (trace (collidePipe G bw bh g pipe)) = cues (trace g).
Proof. unfold collidePipe. break_ifs; try reflexivity. apply onCollision_cues. Qed.

Lemma scorePipe_cues g pipe :
  cues (trace (fst (scorePipe G g (movePipe dt g pipe))))
  = (cues (trace g) + if crossing dt g pipe then 1 else 0)%nat.
Proof.
  assert (C : F32.gtb (playerX g)
                (F32.add (Pipe.x (movePipe dt g pipe)) (pipeWidth g))
              && negb (Pipe.scored (movePipe dt g pipe))
              = crossing dt g pipe).
  { unfold crossing, stepPipe, movePipe. cbv zeta. destruct pipe as [x c s].
    cbn [Pipe.x Pipe.gapCenter Pipe.scored].
    change (Pipe.x ({| Pipe.x := x; Pipe.gapCenter := c; Pipe.scored := s |}
                      <| Pipe.x := F32.sub x (F32.mul (pipeSpeed g) dt) |>))
      with (F32.sub x (F32.mul (pipeSpeed g) dt)).
    change (Pipe.scored ({| Pipe.x := x; Pipe.gapCenter := c; Pipe.scored := s |}
                           <| Pipe.x := F32.sub x (F32.mul (pipeSpeed g) dt) |>))
      with s.
    destruct s, (F32.gtb (playerX g) _); reflexivity. }
  unfold scorePipe. rewrite C. destruct (crossing dt g pipe); [|simpl; lia].
  cbv zeta. destruct (_ >? _); simpl fst;
    [rewrite SaveHighScore_cues|];
    unfold emit;
    change (cues (trace g ++ [PlaySound scoreSound]) = (cues (trace g) + 1)%nat);
    rewrite cues_app; unfold cues; simpl; lia.
Qed.

Lemma pipeBody_cues bw bh g pipe :
  cues (trace (fst (pipeBody G dt bw bh g pipe)))
  = (cues (trace g) + if crossing dt g pipe then 1 else 0)%nat.
Proof. rewrite pipeBody_fst, collidePipe_cues. apply scorePipe_cues. Qed.

Lemma pipeLoop_cues bw bh ps :
  forall g, cues (trace (fst (pipeLoop G dt bw bh g ps)))
            = (cues (trace g) + crossings dt g ps)%nat.
Proof.
  induction ps as [|pipe ps IH]; intros g; [simpl; unfold crossings; simpl; lia|].
  simpl.
  pose proof (pipeBody_cues bw bh g pipe) as S.
  pose proof (pipeBody_view G dt bw bh g pipe) as V.
  destruct (pipeBody G dt bw bh g pipe) as [g1 p1]. simpl in S, V.
  specialize (IH g1).
  destruct (pipeLoop G dt bw bh g1 ps) as [g2 ps2]. simpl in *.
  rewrite IH, (crossings_view dt g g1 ps V), S.
  unfold crossings. simpl filter.
  destruct (crossing dt g pipe); simpl length; lia.
Qed.

Lemma beforePipes_cues g :
  cues (trace (beforePipes G i dt g)) = cues (trace g).
Proof.
  unfold beforePipes. cbv zeta.
  rewrite (quietStep_cues _ _ (spawn_quiet G i dt _)).
  assert (P : cues (trace (physics dt (UpdatePipeSpeed G dt (HandleInput G i g))))
              = cues (trace g)).
  { rewrite (quietStep_cues _ _ (physics_quiet dt _)).
    rewrite (quietStep_cues _ _ (UpdatePipeSpeed_quiet G dt _)).
    apply quietStep_cues, HandleInput_quiet. }
  destruct (checkBoundaryCollision _ _); [rewrite onCollision_cues|]; exact P.
Qed.

Lemma simulate_cues g :
  cues (trace (simulate G i dt g))
  = (cues (trace g)
     + crossings dt (UpdatePipeSpeed G dt g) (pipes g ++ spawned G i dt g))%nat.
Proof.
  rewrite simulate_eq.
  rewrite (quietStep_cues _ _ (eyesTimer_quiet dt _)).
  rewrite (quietStep_cues _ _ (removeOffscreen_quiet _)).
  match goal with |- cues (trace (movePipes G dt ?bw ?bh ?b)) = _ =>
    destruct (movePipes_trace G dt bw bh b) as (T & _ & _); rewrite T end.
  rewrite pipeLoop_cues, beforePipes_cues, beforePipes_pipes.
  rewrite (crossings_view dt _ _ _ (beforePipes_view G i dt g)). reflexivity.
Qed.
End Cues.

Section CuesOfFrame.
Variable G : Globals.
Variable i : Input.
Variable dt : float.

Lemma advance_running_quiet g :
  running g = true ->
  exists g1, advance G i dt g = simulate G i dt g1 /\ scene g1 = scene g
             /\ quietStep g g1.
Proof.
  intros R. unfold advance. rewrite R. cbv zeta.
  eexists. split; [reflexivity|].
  assert (S : scene (scrollBackground dt g) = scene g)
    by (unfold scrollBackground; cbv zeta; break_ifs; reflexivity).
  pose proof (scrollBackground_quiet dt g) as Q.
  destruct (musicPlaying (scrollBackground dt g)); split; try exact S; try exact Q.
  eapply quietStep_trans; [exact Q|]. apply quietStep_emit. reflexivity.
Qed.

(** X26: a running frame plays the score cue once for every pipe that it
    flags, that is once for every point, and not otherwise. *)
Theorem score_cue_once_per_point g :
  running g = true ->
  cues (trace (advance G i dt g))
  = (cues (trace g)
     + crossings dt (UpdatePipeSpeed G dt g) (pipes g ++ spawned G i dt g))%nat.
Proof.
  intros R. destruct (advance_running_quiet g R) as (g1 & E & S & Q).
  rewrite E, simulate_cues, (quietStep_cues _ _ Q).
  destruct (scene_spawnView g1 g S) as (SV & L & P & D).
  rewrite (spawned_view G i dt g1 g SV P D).
  replace (pipes g1) with (pipes g) by (unfold spawnView in SV; congruence).
  rewrite (crossings_view dt _ _ _ (loopView_UpdatePipeSpeed G dt g1 g L)).
  reflexivity.
Qed.
End CuesOfFrame.

Lemma writes_app tr es : writes (tr ++ es) = (writes tr + writes es)%nat.
Proof. unfold writes. rewrite filter_app, length_app. reflexivity. Qed.

Lemma quiet_writes es : quiet es = true -> writes es = 0%nat.
Proof.
  unfold quiet, writes. induction es as [|e es IH]; [reflexivity|].
  simpl. intros H. apply andb_true_iff in H. destruct H as [H1 H2].
  apply andb_true_iff in H1. destruct H1 as [H1 _].
  apply andb_true_iff in H1. destruct H1 as [_ H1].
  apply negb_true_iff in H1. rewrite H1. auto.
Qed.

Lemma quietStep_writes g g' :
  quietStep g g' -> writes (trace g') = writes (trace g).
Proof.
  intros (es & E & Q). rewrite E, writes_app, (quiet_writes es Q). lia.
Qed.

Section Web.
Variable G : Globals.
Variable i : Input.
Variable dt : float.
Hypothesis web : EMSCRIPTEN G = true.

Lemma SaveHighScore_web g : SaveHighScore G g = g.
Proof. unfold SaveHighScore. rewrite web. reflexivity. Qed.

Lemma onCollision_writes g :
  writes (trace (onCollision G g)) = writes (trace g).
Proof.
  unfold onCollision. cbv zeta.
  destruct (_ >? _); [rewrite SaveHighScore_web|];
    unfold emit;
    change (writes (trace g ++ [StopMusicStream; StopSound flySound;
                                StopSound scoreSound; PlaySound hitSound])
            = writes (trace g));
    rewrite writes_app; unfold writes; simpl; lia.
Qed.

Lemma pipeBody_writes bw bh g pipe :
  writes (trace (fst (pipeBody G dt bw bh g pipe))) = writes (trace g).
Proof.
  rewrite pipeBody_fst.
  assert (S : writes (trace (fst (scorePipe G g (movePipe dt g pipe))))
              = writes (trace g)).
  { unfold scorePipe. destruct (_ && _); [|reflexivity].
    cbv zeta. destruct (_ >? _); simpl fst;
      [rewrite SaveHighScore_web|];
      unfold emit;
      change (writes (trace g ++ [PlaySound scoreSound]) = writes (trace g));
      rewrite writes_app; unfold writes; simpl; lia. }
  rewrite <- S. unfold collidePipe.
  break_ifs; try reflexivity. apply onCollision_writes.
Qed.

Lemma pipeLoop_writes bw bh ps :
  forall g, writes (trace (fst (pipeLoop G dt bw bh g ps))) = writes (trace g).
Proof.
  induction ps as [|pipe ps IH]; intros g; [reflexivity|].
  simpl. pose proof (pipeBody_writes bw bh g pipe) as B.
  destruct (pipeBody G dt bw bh g pipe) as [g1 p1]. simpl in B.
  specialize (IH g1).
  destruct (pipeLoop G dt bw bh g1 ps) as [g2 ps2]. simpl in *. congruence.
Qed.

Lemma simulate_writes g :
  writes (trace (simulate G i dt g)) = writes (trace g).
Proof.
  rewrite simulate_eq.
  rewrite (quietStep_writes _ _ (eyesTimer_quiet dt _)).
  rewrite (quietStep_writes _ _ (removeOffscreen_quiet _)).
  match goal with |- writes (trace (movePipes G dt ?bw ?bh ?b)) = _ =>
    destruct (movePipes_trace G dt bw bh b) as (T & _ & _); rewrite T end.
  rewrite pipeLoop_writes.
  unfold beforePipes. cbv zeta.
  rewrite (quietStep_writes _ _ (spawn_quiet G i dt _)).
  assert (P : writes (trace (physics dt (UpdatePipeSpeed G dt (HandleInput G i g))))
              = writes (trace g)).
  { rewrite (quietStep_writes _ _ (physics_quiet dt _)).
    rewrite (quietStep_writes _ _ (UpdatePipeSpeed_quiet G dt _)).
    apply quietStep_writes, HandleInput_quiet. }
  destruct (checkBoundaryCollision _ _); [rewrite onCollision_writes|]; exact P.
Qed.

Lemma advance_writes g : writes (trace (advance G i dt g)) = writes (trace g).
Proof.
  unfold advance. cbv zeta.
  pose proof (scrollBackground_quiet dt g) as Q.
  destruct (running g).
  - rewrite simulate_writes.
    destruct (musicPlaying _);
      [change (trace (emit [UpdateMusicStream] (scrollBackground dt g)))
         with (trace (scrollBackground dt g) ++ [UpdateMusicStream]);
       rewrite writes_app; unfold writes at 2; simpl; rewrite Nat.add_0_r|];
      apply quietStep_writes, Q.
  - destruct (musicPlaying g); [|reflexivity].
    change (trace (emit [UpdateMusicStream] g)) with (trace g ++ [UpdateMusicStream]).
    rewrite writes_app. unfold writes at 2. simpl. lia.
Qed.

Lemma Update_writes g : writes (trace (Update G i dt g)) = writes (trace g).
Proof.
  unfold Update. destruct (F32.eqb dt F32.zero); [reflexivity|]. cbv zeta.
  pose proof (UpdateUI_quiet G i (setScreenScale G i g)) as Q.
  destruct (UpdateUI G i (setScreenScale G i g)) as [skip g1]. simpl in Q.
  assert (W : writes (trace g1) = writes (trace g))
    by (apply quietStep_writes in Q; exact Q).
  destruct skip; [exact W|]. unfold frame. cbv zeta.
  destruct (gameOver _);
    [rewrite (quietStep_writes _ _ (gameOverRestart_quiet G i dt _))|];
    rewrite advance_writes; exact W.
Qed.
End Web.

(** X27: the build for the web never writes the high-score file,
    whatever the frames, and its constructor starts from a high score
    of 0 whatever the file. *)
Theorem web_build_keeps_no_high_score G this i mobile file bg w h frames :
  EMSCRIPTEN G = true ->
  writes (trace (play G frames (Game_ctor G this i mobile file bg w h)))
  = writes (trace this)
  /\ highScore (Game_ctor G this i mobile file bg w h) = 0.
Proof.
  intros E.
  destruct (ctor_facts G this i mobile file bg w h) as (T & H & _).
  rewrite E in H. split; [|exact H]. rewrite <- T.
  generalize (Game_ctor G this i mobile file bg w h).
  induction frames as [|[j dt] frames IH]; intros g; [reflexivity|].
  simpl. rewrite IH. apply Update_writes, E.
Qed.

Section TextFacts.
Import String Ascii Decimal DecimalString DecimalZ.

Lemma length_zeros n : String.length (zeros n) = n.
Proof. induction n; simpl; congruence. Qed.

Lemma length_app_string (a b : string) :
  String.length (a ++ b)%string = (String.length a + String.length b)%nat.
Proof. induction a; simpl; congruence. Qed.

Lemma uint_of_string_zeros n s :
  NilEmpty.uint_of_string (zeros n ++ s)%string
  = option_map (Nat.iter n D0) (NilEmpty.uint_of_string s).
Proof.
  induction n as [|n IH]; simpl.
  - destruct (NilEmpty.uint_of_string s); reflexivity.
  - rewrite IH. destruct (NilEmpty.uint_of_string s); reflexivity.
Qed.

Lemma of_uint_zeros n d : Z.of_uint (Nat.iter n D0 d) = Z.of_uint d.
Proof. induction n as [|n IH]; [reflexivity|]. simpl. exact IH. Qed.

Lemma string_of_uint_head d :
  exists c s, NilZero.string_of_uint d = String c s /\ c <> "-"%char
              /\ NilEmpty.uint_of_string (String c s)
                 = Some (match d with Nil => D0 Nil | _ => d end).
Proof.
  destruct d; simpl; try (eexists; eexists; split; [reflexivity|split; [discriminate|]]).
  all: try reflexivity.
  all: rewrite NilEmpty.usu; reflexivity.
Qed.

Lemma int_of_string_pos a s :
  a <> "-"%char ->
  NilZero.int_of_string (String a s)
  = option_map Pos (NilEmpty.uint_of_string (String a s)).
Proof.
  intros H. unfold NilZero.int_of_string, NilZero.uint_of_string.
  apply Ascii.eqb_neq in H. rewrite H. reflexivity.
Qed.

Lemma read_padded n number :
  0 <= number -> read_int (zeros n ++ to_string number)%string = Some number.
Proof.
  intros H. unfold read_int, to_string.
  destruct (Z.to_int number) as [d|d] eqn:E.
  2:{ destruct number; simpl in E; try discriminate. lia. }
  assert (V : Z.of_uint d = number).
  { pose proof (DecimalZ.of_to number) as R. rewrite E in R. exact R. }
  simpl NilZero.string_of_int.
  destruct (string_of_uint_head d) as (c & s & S & C & U).
  rewrite S.
  assert (P : NilEmpty.uint_of_string (zeros n ++ String c s)%string
              = Some (Nat.iter n D0 (match d with Nil => D0 Nil | _ => d end))).
  { rewrite uint_of_string_zeros, U. reflexivity. }
  assert (I : NilZero.int_of_string (zeros n ++ String c s)%string
              = Some (Pos (Nat.iter n D0 (match d with Nil => D0 Nil | _ => d end)))).
  { destruct n as [|n].
    - simpl zeros in *. simpl append in *.
      rewrite (int_of_string_pos c s C), P. reflexivity.
    - simpl zeros in *. simpl append in *.
      rewrite int_of_string_pos by discriminate. rewrite P. reflexivity. }
  rewrite I. simpl option_map. f_equal.
  change (Z.of_int (Pos ?u)) with (Z.of_uint u).
  rewrite of_uint_zeros, <- V. destruct d; reflexivity.
Qed.
End TextFacts.

Section Format.
Import String Ascii Decimal DecimalString DecimalZ.
Variable number width_ : Z.

(** X20: when the text of the number is not longer than the width,
    [FormatWithLeadingZeroes] returns it with zeros before it, up to the
    width exactly. *)
Theorem Format_pads :
  Int32.in_range width_ ->
  Z.of_nat (String.length (to_string number)) <= width_ ->
  exists s, FormatWithLeadingZeroes number width_ = Some s
            /\ String.length s = Z.to_nat width_
            /\ s = (zeros (Z.to_nat width_ - String.length (to_string number))
                     ++ to_string number)%string.
Proof.
  intros R L. unfold FormatWithLeadingZeroes. cbv zeta.
  rewrite wrap_in_range
    by (unfold Int32.in_range, Int32.INT_MIN, Int32.INT_MAX in *; lia).
  destruct (Z.ltb_spec (width_ - Z.of_nat (String.length (to_string number))) 0);
    [lia|].
  eexists. split; [reflexivity|].
  replace (Z.to_nat (width_ - Z.of_nat (String.length (to_string number))))
    with (Z.to_nat width_ - String.length (to_string number))%nat by lia.
  split; [|reflexivity].
  rewrite length_app_string, length_zeros. lia.
Qed.

(** X21: when the text of the number is longer than the width,
    [FormatWithLeadingZeroes] returns nothing: the negative count makes
    the constructor of the padding throw. *)
Theorem Format_throws :
  Int32.INT_MIN + Z.of_nat (String.length (to_string number)) <= width_ ->
  width_ < Z.of_nat (String.length (to_string number)) ->
  FormatWithLeadingZeroes number width_ = None.
Proof.
  intros L U. unfold FormatWithLeadingZeroes. cbv zeta.
  rewrite wrap_in_range
    by (unfold Int32.in_range, Int32.INT_MIN, Int32.INT_MAX in *; lia).
  destruct (Z.ltb_spec (width_ - Z.of_nat (String.length (to_string number))) 0);
    [reflexivity|lia].
Qed.

(** X22: whatever [FormatWithLeadingZeroes] returns for a number that
    is not negative reads back as that number. *)
Theorem Format_reads_back s :
  0 <= number -> FormatWithLeadingZeroes number width_ = Some s ->
  read_int s = Some number.
Proof.
  intros H. unfold FormatWithLeadingZeroes. cbv zeta.
  destruct (_ <? 0); [discriminate|]. intros E. injection E as <-.
  apply read_padded, H.
Qed.
End Format.

(** ** The further properties at work *)

Lemma high_score_is_on_disk_witness :
  EMSCRIPTEN Sample.globals = false /\ ofstream_is_open Sample.globals = true
  /\ trace Sample.blank = []
  /\ writes (trace (play Sample.globals Scenes.shortGame (Scenes.born None)))
     = 2%nat
  /\ diskAfter None
       (trace (play Sample.globals Scenes.shortGame (Scenes.born None)))
     = Some 2
  /\ persisted Sample.globals None
       (play Sample.globals Scenes.shortGame (Scenes.born None)).
Proof.
  split; [reflexivity|]. split; [reflexivity|]. split; [reflexivity|].
  split; [vm_compute; reflexivity|]. split; [vm_compute; reflexivity|].
  apply (high_score_is_on_disk Sample.globals Sample.blank (Sample.idle 0)
           false None 2048 1280 720); reflexivity.
Defined.

Lemma pipe_speed_stays_clamped_witness :
  F32.gtb (defaultPipeSpeed Sample.globals) (maxSpeed Sample.globals) = false
  /\ F32.gtb (pipeSpeed (play Sample.globals
                           [(Sample.press KEY_ENTER 0, Sample.dt60)]
                           Sample.fresh))
             (maxSpeed Sample.globals) = false.
Proof.
  split; [vm_compute; reflexivity|].
  apply (pipe_speed_stays_clamped Sample.globals Sample.blank (Sample.idle 0)
           false (Some 7) 2048 1280 720).
  vm_compute. reflexivity.
Defined.

Lemma restart_waits_for_delay_witness :
  gameOver Scenes.crashed = true
  /\ F32.eqb Sample.dt60 F32.zero = false
  /\ F32.gtb (gameOverDelayTimer Scenes.crashed) F32.zero = true
  /\ F32.leb (F32.sub (gameOverDelayTimer Scenes.crashed) Sample.dt60)
             F32.zero = false
  /\ kept (Update Sample.globals (Sample.press KEY_ENTER 0) Sample.dt60
                  Scenes.crashed) = kept Scenes.crashed
  /\ gameOverDelayTimer (Update Sample.globals (Sample.press KEY_ENTER 0)
                                Sample.dt60 Scenes.crashed)
     = F32.sub (gameOverDelayTimer Scenes.crashed) Sample.dt60.
Proof.
  assert (H1 : gameOver Scenes.crashed = true) by reflexivity.
  assert (H2 : F32.eqb Sample.dt60 F32.zero = false) by (vm_compute; reflexivity).
  assert (H3 : F32.gtb (gameOverDelayTimer Scenes.crashed) F32.zero = true)
    by (vm_compute; reflexivity).
  assert (H4 : F32.leb (F32.sub (gameOverDelayTimer Scenes.crashed) Sample.dt60)
                       F32.zero = false) by (vm_compute; reflexivity).
  split; [exact H1|]. split; [exact H2|]. split; [exact H3|]. split; [exact H4|].
  exact (restart_waits_for_delay Sample.globals (Sample.press KEY_ENTER 0)
           Sample.dt60 Scenes.crashed H1 H2 H3 H4).
Defined.

Lemma restart_after_delay_witness :
  gameOver Scenes.waiting = true
  /\ F32.eqb Sample.dt60 F32.zero = false
  /\ F32.leb (gameOverDelayTimer Scenes.waiting) F32.zero = true
  /\ restartPressed (Sample.press KEY_ENTER 0) Scenes.waiting = true
  /\ gameOver (Update Sample.globals (Sample.press KEY_ENTER 0) Sample.dt60
                      Scenes.waiting) = false.
Proof.
  assert (H1 : gameOver Scenes.waiting = true) by reflexivity.
  assert (H2 : F32.eqb Sample.dt60 F32.zero = false) by (vm_compute; reflexivity).
  assert (H3 : F32.leb (gameOverDelayTimer Scenes.waiting) F32.zero = true)
    by (vm_compute; reflexivity).
  assert (H4 : restartPressed (Sample.press KEY_ENTER 0) Scenes.waiting = true)
    by (vm_compute; reflexivity).
  split; [exact H1|]. split; [exact H2|]. split; [exact H3|]. split; [exact H4|].
  exact (proj1 (restart_after_delay Sample.globals (Sample.press KEY_ENTER 0)
                  Sample.dt60 Scenes.waiting H1 H2 H3 H4)).
Defined.

Lemma pipes_of_running_frame_witness :
  running Scenes.onePipe = true
  /\ pipes (advance Sample.globals (Sample.idle 5) Sample.dt60 Scenes.onePipe)
     = filter (onScreen Scenes.onePipe)
         (map (stepPipe Sample.dt60
                 (UpdatePipeSpeed Sample.globals Sample.dt60 Scenes.onePipe))
              (pipes Scenes.onePipe
               ++ spawned Sample.globals (Sample.idle 5) Sample.dt60
                    Scenes.onePipe)).
Proof.
  assert (R : running Scenes.onePipe = true) by (vm_compute; reflexivity).
  split; [exact R|].
  exact (pipes_of_running_frame Sample.globals (Sample.idle 5) Sample.dt60
           Scenes.onePipe R).
Defined.

Lemma gap_center_between_bounds_witness :
  back (pipes Scenes.onePipe) = Some Sample.crossedPipe
  /\ 0 <= rand (Sample.idle 5)
  /\ exists v,
       targetGapCenter Sample.globals (Sample.idle 5) Scenes.onePipe
       = F32.of_int v
       /\ Z.min (F32.to_int (minGapCenter Sample.globals Scenes.onePipe
                               Sample.crossedPipe))
                (F32.to_int (maxGapCenter Sample.globals Scenes.onePipe
                               Sample.crossedPipe)) <= v
       /\ v <= Z.max (F32.to_int (minGapCenter Sample.globals Scenes.onePipe
                                    Sample.crossedPipe))
                     (F32.to_int (maxGapCenter Sample.globals Scenes.onePipe
                                    Sample.crossedPipe)).
Proof.
  assert (B : back (pipes Scenes.onePipe) = Some Sample.crossedPipe)
    by reflexivity.
  assert (R : 0 <= rand (Sample.idle 5)) by (simpl; lia).
  split; [exact B|]. split; [exact R|].
  exact (gap_center_between_bounds Sample.globals (Sample.idle 5)
           Scenes.onePipe Sample.crossedPipe B R).
Defined.

Lemma player_after_running_frame_witness :
  F32.eqb Sample.dt60 F32.zero = false
  /\ fst (UpdateUI Sample.globals (Sample.press KEY_SPACE 5)
             (setScreenScale Sample.globals (Sample.press KEY_SPACE 5)
                             Sample.started)) = false
  /\ running (snd (UpdateUI Sample.globals (Sample.press KEY_SPACE 5)
                     (setScreenScale Sample.globals (Sample.press KEY_SPACE 5)
                                     Sample.started))) = true
  /\ body (Update Sample.globals (Sample.press KEY_SPACE 5) Sample.dt60
                  Sample.started)
     = (nextY (Sample.press KEY_SPACE 5) Sample.dt60 Sample.started,
        nextVelocity (Sample.press KEY_SPACE 5) Sample.dt60 Sample.started).
Proof.
  assert (Z : F32.eqb Sample.dt60 F32.zero = false) by (vm_compute; reflexivity).
  split; [exact Z|].
  match goal with |- ?A /\ _ =>
    assert (K : A) by (vm_compute; reflexivity); split; [exact K|] end.
  match goal with |- ?A /\ _ =>
    assert (R : A) by (vm_compute; reflexivity); split; [exact R|] end.
  destruct (player_after_running_frame Sample.globals
              (Sample.press KEY_SPACE 5) Sample.dt60 Sample.started Z K R)
    as [E|[P _]].
  - exact E.
  - vm_compute in P. discriminate P.
Defined.

Lemma game_over_of_running_frame_witness :
  running Scenes.onePipe = true
  /\ gameOver (advance Sample.globals (Sample.idle 5) Sample.dt60
                       Scenes.onePipe)
     = checkBoundaryCollision (moved (Sample.idle 5) Sample.dt60 Scenes.onePipe)
         (collisionBoxHeight Scenes.onePipe)
       || existsb (checkObstacleCollision
                     (moved (Sample.idle 5) Sample.dt60 Scenes.onePipe)
                     (collisionBoxWidth Scenes.onePipe)
                     (collisionBoxHeight Scenes.onePipe))
            (map (stepPipe Sample.dt60
                    (UpdatePipeSpeed Sample.globals Sample.dt60 Scenes.onePipe))
                 (pipes Scenes.onePipe
                  ++ spawned Sample.globals (Sample.idle 5) Sample.dt60
                       Scenes.onePipe)).
Proof.
  assert (R : running Scenes.onePipe = true) by (vm_compute; reflexivity).
  split; [exact R|].
  exact (game_over_of_running_frame Sample.globals (Sample.idle 5) Sample.dt60
           Scenes.onePipe R).
Defined.

Lemma score_of_running_frame_witness :
  F32.eqb Sample.dt60 F32.zero = false
  /\ fst (UpdateUI Sample.globals (Sample.idle 5)
             (setScreenScale Sample.globals (Sample.idle 5) Scenes.passing))
     = false
  /\ running (snd (UpdateUI Sample.globals (Sample.idle 5)
                     (setScreenScale Sample.globals (Sample.idle 5)
                                     Scenes.passing))) = true
  /\ Int32.in_range (score Scenes.passing)
  /\ crossings Sample.dt60
       (UpdatePipeSpeed Sample.globals Sample.dt60 Scenes.passing)
       (pipes Scenes.passing
        ++ spawned Sample.globals (Sample.idle 5) Sample.dt60 Scenes.passing)
     = 1%nat
  /\ score (Update Sample.globals (Sample.idle 5) Sample.dt60 Scenes.passing)
     = Int32.wrap
         (score Scenes.passing
          + Z.of_nat (crossings Sample.dt60
                        (UpdatePipeSpeed Sample.globals Sample.dt60
                                         Scenes.passing)
                        (pipes Scenes.passing
                         ++ spawned Sample.globals (Sample.idle 5) Sample.dt60
                              Scenes.passing))).
Proof.
  assert (I : Int32.in_range (score Scenes.passing))
    by (vm_compute; split; discriminate).
  assert (Z : F32.eqb Sample.dt60 F32.zero = false) by (vm_compute; reflexivity).
  split; [exact Z|].
  match goal with |- ?A /\ _ =>
    assert (K : A) by (vm_compute; reflexivity); split; [exact K|] end.
  match goal with |- ?A /\ _ =>
    assert (R : A) by (vm_compute; reflexivity); split; [exact R|] end.
  split; [exact I|]. split; [vm_compute; reflexivity|].
  destruct (score_of_running_frame Sample.globals (Sample.idle 5) Sample.dt60
              Scenes.passing Z K R I)
    as [E|[P _]].
  - exact E.
  - vm_compute in P. discriminate P.
Defined.

Lemma exit_needs_confirmation_witness :
  exitWindow Scenes.leaving = false
  /\ exitWindow (Update Sample.globals (Sample.press KEY_Y 0) Sample.dt60
                        Scenes.leaving) = true
  /\ exitWindowRequested Scenes.leaving = true
  /\ IsKeyPressed (Sample.press KEY_Y 0) KEY_Y = true.
Proof.
  assert (H1 : exitWindow Scenes.leaving = false) by (vm_compute; reflexivity).
  assert (H2 : exitWindow (Update Sample.globals (Sample.press KEY_Y 0)
                                  Sample.dt60 Scenes.leaving) = true)
    by (vm_compute; reflexivity).
  split; [exact H1|]. split; [exact H2|].
  exact (exit_needs_confirmation Sample.globals (Sample.press KEY_Y 0)
           Sample.dt60 Scenes.leaving H1 H2).
Defined.

Lemma exit_request_needs_close_or_escape_witness :
  exitWindowRequested Sample.started = false
  /\ exitWindowRequested (Update Sample.globals (Sample.press KEY_ESCAPE 0)
                                 Sample.dt60 Sample.started) = true
  /\ EMSCRIPTEN_BUILD Sample.globals = false
  /\ (WindowShouldClose (Sample.press KEY_ESCAPE 0) = true
      \/ IsKeyPressed (Sample.press KEY_ESCAPE 0) KEY_ESCAPE = true).
Proof.
  assert (H1 : exitWindowRequested Sample.started = false)
    by (vm_compute; reflexivity).
  assert (H2 : exitWindowRequested
                 (Update Sample.globals (Sample.press KEY_ESCAPE 0)
                         Sample.dt60 Sample.started) = true)
    by (vm_compute; reflexivity).
  split; [exact H1|]. split; [exact H2|].
  exact (exit_request_needs_close_or_escape Sample.globals
           (Sample.press KEY_ESCAPE 0) Sample.dt60 Sample.started H1 H2).
Defined.

Lemma screen_scale_follows_window_witness :
  F32.eqb Sample.dt60 F32.zero = false
  /\ screenScale (Update Sample.globals (Sample.idle 5) Sample.dt60
                         Sample.pausedGame)
     = fitScale Sample.globals (Sample.idle 5).
Proof.
  assert (H : F32.eqb Sample.dt60 F32.zero = false) by (vm_compute; reflexivity).
  split; [exact H|].
  exact (screen_scale_follows_window Sample.globals (Sample.idle 5) Sample.dt60
           Sample.pausedGame H).
Defined.

Lemma collision_block_saves_nothing_witness :
  hits (trace (play Sample.globals Scenes.shortGame (Scenes.born None))) = 1%nat
  /\ writes (trace (play Sample.globals Scenes.shortGame (Scenes.born None)))
     = 2%nat
  /\ hitSaves false
       (trace (play Sample.globals Scenes.shortGame (Scenes.born None)))
     = 0%nat.
Proof.
  split; [vm_compute; reflexivity|]. split; [vm_compute; reflexivity|].
  apply (proj1 collision_block_saves_nothing Sample.globals Sample.blank
           (Sample.idle 0) false None 2048 1280 720 Scenes.shortGame).
  - exact I.
  - reflexivity.
Defined.

Section FormatWitnesses.
Import String.

Lemma Format_pads_witness :
  Int32.in_range 5
  /\ Z.of_nat (String.length (to_string 42)) <= 5
  /\ exists s, FormatWithLeadingZeroes 42 5 = Some s
               /\ String.length s = Z.to_nat 5
               /\ s = (zeros (Z.to_nat 5 - String.length (to_string 42))
                        ++ to_string 42)%string.
Proof.
  assert (H1 : Int32.in_range 5) by (vm_compute; split; discriminate).
  assert (H2 : Z.of_nat (String.length (to_string 42)) <= 5)
    by (vm_compute; discriminate).
  split; [exact H1|]. split; [exact H2|].
  exact (Format_pads 42 5 H1 H2).
Defined.

Lemma Format_throws_witness :
  Int32.INT_MIN + Z.of_nat (String.length (to_string 12345)) <= 3
  /\ 3 < Z.of_nat (String.length (to_string 12345))
  /\ FormatWithLeadingZeroes 12345 3 = None.
Proof.
  assert (H1 : Int32.INT_MIN + Z.of_nat (String.length (to_string 12345)) <= 3)
    by (vm_compute; discriminate).
  assert (H2 : 3 < Z.of_nat (String.length (to_string 12345)))
    by (vm_compute; reflexivity).
  split; [exact H1|]. split; [exact H2|].
  exact (Format_throws 12345 3 H1 H2).
Defined.

Lemma Format_reads_back_witness :
  0 <= 42 /\ FormatWithLeadingZeroes 42 5 = Some "00042"%string
  /\ read_int "00042" = Some 42.
Proof.
  assert (H1 : 0 <= 42) by lia.
  assert (H2 : FormatWithLeadingZeroes 42 5 = Some "00042"%string)
    by (vm_compute; reflexivity).
  split; [exact H1|]. split; [exact H2|].
  exact (Format_reads_back 42 5 "00042" H1 H2).
Defined.
End FormatWitnesses.

Lemma spawn_timer_of_running_frame_witness :
  F32.eqb Sample.dt60 F32.zero = false
  /\ fst (UpdateUI Sample.globals (Sample.idle 5)
             (setScreenScale Sample.globals (Sample.idle 5) Sample.started))
     = false
  /\ running (snd (UpdateUI Sample.globals (Sample.idle 5)
                     (setScreenScale Sample.globals (Sample.idle 5)
                                     Sample.started))) = true
  /\ pipeSpawnTimer (Update Sample.globals (Sample.idle 5) Sample.dt60
                            Sample.started)
     = if F32.geb (F32.add (pipeSpawnTimer Sample.started) Sample.dt60)
                  (pipeSpawnInterval
                     (UpdatePipeSpeed Sample.globals Sample.dt60 Sample.started))
       then F32.zero
       else F32.add (pipeSpawnTimer Sample.started) Sample.dt60.
Proof.
  assert (Z : F32.eqb Sample.dt60 F32.zero = false) by (vm_compute; reflexivity).
  split; [exact Z|].
  match goal with |- ?A /\ _ =>
    assert (K : A) by (vm_compute; reflexivity); split; [exact K|] end.
  match goal with |- ?A /\ _ =>
    assert (R : A) by (vm_compute; reflexivity); split; [exact R|] end.
  destruct (spawn_timer_of_running_frame Sample.globals (Sample.idle 5)
              Sample.dt60 Sample.started Z K R)
    as [E|[P _]].
  - exact E.
  - vm_compute in P. discriminate P.
Defined.

Lemma score_cue_once_per_point_witness :
  running Scenes.passing = true
  /\ cues (trace (advance Sample.globals (Sample.idle 5) Sample.dt60
                          Scenes.passing))
     = (cues (trace Scenes.passing)
        + crossings Sample.dt60
            (UpdatePipeSpeed Sample.globals Sample.dt60 Scenes.passing)
            (pipes Scenes.passing
             ++ spawned Sample.globals (Sample.idle 5) Sample.dt60
                  Scenes.passing))%nat.
Proof.
  assert (R : running Scenes.passing = true) by (vm_compute; reflexivity).
  split; [exact R|].
  exact (score_cue_once_per_point Sample.globals (Sample.idle 5) Sample.dt60
           Scenes.passing R).
Defined.

Lemma web_build_keeps_no_high_score_witness :
  EMSCRIPTEN (Sample.globals <| EMSCRIPTEN := true |>) = true
  /\ writes (trace (play (Sample.globals <| EMSCRIPTEN := true |>)
                      [(Sample.press KEY_ENTER 0, Sample.dt60)]
                      (Game_ctor (Sample.globals <| EMSCRIPTEN := true |>)
                         Sample.blank (Sample.idle 0) true (Some 7)
                         2048 1280 720)))
     = writes (trace Sample.blank)
  /\ highScore (Game_ctor (Sample.globals <| EMSCRIPTEN := true |>)
                  Sample.blank (Sample.idle 0) true (Some 7) 2048 1280 720)
     = 0.
Proof.
  split; [reflexivity|].
  apply (web_build_keeps_no_high_score (Sample.globals <| EMSCRIPTEN := true |>)).
  reflexivity.
Defined.
